(** * Universal expansion service: instruction parsing, structure allocation,
      section generation and stitch repair

    A shallow embedding of [server/services/universalExpansion.ts].

    - JavaScript strings are sequences of UTF-16 code units: [list N].
    - Word counts are JavaScript numbers that are integers or [NaN]: [jsnum].
      The few fractional computations of the source ([parseFloat],
      [target * 0.95], [Math.round (target * 0.015)], ...) are carried out on
      exact rationals; doubles give the same results on the integers below
      2^53 except possibly where the exact value lies half-way between two
      integers.  No statement below depends on such a tie.
    - Regular expressions are translated one by one into a small abstract
      syntax with the backtracking semantics of ECMAScript.  Where a comment
      quotes a pattern of the source, a blank separates a star from a
      closing parenthesis that follows it.
    - The provider and the other collaborators are functions that give the
      answers of one job.  The prompts, the log, the delays and the clock
      are left out, and so are exceptions of the provider calls, which end
      a job. *)

From Stdlib Require Import ZArith NArith QArith Qround Lia List Bool String Ascii.
From stdpp Require Import gmap.
Import ListNotations.

Local Open Scope Z_scope.

(** ** Strings *)

Module Js.

Definition char : Type := N.
Definition jsstring : Type := list char.

(** An ASCII literal as a sequence of code units. *)
Definition str (s : String.string) : jsstring :=
  List.map N_of_ascii (list_ascii_of_string s).

Definition lf : char := 10%N.

Definition is_upper (c : char) : bool := ((65 <=? c) && (c <=? 90))%N.
Definition is_lower (c : char) : bool := ((97 <=? c) && (c <=? 122))%N.
Definition is_alpha (c : char) : bool := is_upper c || is_lower c.
Definition is_digit (c : char) : bool := ((48 <=? c) && (c <=? 57))%N.

(** [\s], and the characters removed by [String.prototype.trim]:
    WhiteSpace and LineTerminator of ECMAScript. *)
Definition is_space (c : char) : bool :=
  (((9 <=? c) && (c <=? 13)) || (c =? 32) || (c =? 160) || (c =? 5760)
   || ((8192 <=? c) && (c <=? 8202)) || (c =? 8232) || (c =? 8233)
   || (c =? 8239) || (c =? 8287) || (c =? 12288) || (c =? 65279))%N.

(** [\w], used by [\b]. *)
Definition is_word (c : char) : bool := is_alpha c || is_digit c || (c =? 95)%N.

(** Line terminators, for [^] and [$] under the [m] flag. *)
Definition is_line_terminator (c : char) : bool :=
  ((c =? 10) || (c =? 13) || (c =? 8232) || (c =? 8233))%N.

(** [toUpperCase] on one code unit.  The mapping is the ASCII one; code units
    outside ASCII are left as they are (the Unicode case tables are not part
    of the model), which is exact for the ASCII instruction texts the
    statements below evaluate. *)
Definition upper (c : char) : char := if is_lower c then (c - 32)%N else c.
Definition toUpperCase (s : jsstring) : jsstring := List.map upper s.

Definition eqb (a b : jsstring) : bool := bool_decide (a = b).

(** [s.startsWith(p)] *)
Fixpoint startsWith (s p : jsstring) {struct p} : bool :=
  match p with
  | [] => true
  | c :: p' =>
      match s with
      | [] => false
      | d :: s' => (c =? d)%N && startsWith s' p'
      end
  end.

(** [s.includes(p)] *)
Fixpoint includes (s p : jsstring) : bool :=
  startsWith s p ||
  match s with
  | [] => false
  | _ :: s' => includes s' p
  end.

Fixpoint dropWhile {A} (f : A -> bool) (l : list A) : list A :=
  match l with
  | [] => []
  | x :: l' => if f x then dropWhile f l' else l
  end.

Definition trimStart (s : jsstring) : jsstring := dropWhile is_space s.
Definition trimEnd (s : jsstring) : jsstring := rev (dropWhile is_space (rev s)).
Definition trim (s : jsstring) : jsstring := trimEnd (trimStart s).

(** [s.substring(0, n)] *)
Definition substring0 (n : nat) (s : jsstring) : jsstring := firstn n s.

(** [s.split(sep)] for a one-character separator. *)
Fixpoint split_char (sep : char) (s : jsstring) : list jsstring :=
  match s with
  | [] => [[]]
  | c :: s' =>
      if (c =? sep)%N then [] :: split_char sep s'
      else match split_char sep s' with
           | [] => [[c]]
           | w :: ws => (c :: w) :: ws
           end
  end.

(** [l.join(sep)] *)
Fixpoint join (sep : jsstring) (l : list jsstring) : jsstring :=
  match l with
  | [] => []
  | [w] => w
  | w :: ws => w ++ sep ++ join sep ws
  end.

(** [s.split(/\s+/)]: the fields between maximal runs of white space.  A
    string that starts (ends) with white space has an empty first (last)
    field, and the empty string has the single field [""]. *)
Fixpoint split_ws_from (in_ws : bool) (s : jsstring) : list jsstring :=
  match s with
  | [] => [[]]
  | c :: s' =>
      if is_space c then
        if in_ws then split_ws_from true s' else [] :: split_ws_from true s'
      else match split_ws_from false s' with
           | [] => [[c]]
           | w :: ws => (c :: w) :: ws
           end
  end.
Definition split_ws (s : jsstring) : list jsstring := split_ws_from false s.

Definition nonempty (s : jsstring) : bool :=
  match s with [] => false | _ => true end.

(** Decimal rendering of a number, as template literals and [toString] do. *)
Fixpoint digits_of_pos (fuel : nat) (n : N) (acc : jsstring) : jsstring :=
  match fuel with
  | O => acc
  | S f =>
      let acc' := (48 + n mod 10)%N :: acc in
      if (n / 10 =? 0)%N then acc' else digits_of_pos f (n / 10)%N acc'
  end.
Definition toString (z : Z) : jsstring :=
  let n := Z.to_N (Z.abs z) in
  let ds := digits_of_pos (S (N.to_nat (N.size n))) n [] in
  if z <? 0 then 45%N :: ds else ds.

End Js.
Import Js.

(** ** Regular expressions

    The abstract syntax covers what the patterns of the source use; the
    matcher follows the continuation semantics of the ECMAScript
    specification (leftmost match, alternatives in order, greedy and lazy
    quantifiers, an iteration that consumes nothing after the minimum is
    rejected). *)

Module Regex.

Inductive regex : Type :=
| Eps
| Chr (p : char -> bool)
| Seq (a b : regex)
| Alt (a b : regex)
| Rep (lo : nat) (hi : option nat) (greedy : bool) (r : regex)
| Group (n : nat) (r : regex)
| Bol (multiline : bool)
| Eol (multiline : bool)
| WordB.

(** The matcher state: the code units already passed (most recent first),
    the code units ahead, and the captures made so far. *)
Record mstate : Type := MS {
  ms_pre : jsstring;
  ms_rest : jsstring;
  ms_caps : list (nat * jsstring)
}.

Definition at_word_boundary (st : mstate) : bool :=
  let a := match ms_pre st with c :: _ => is_word c | [] => false end in
  let b := match ms_rest st with c :: _ => is_word c | [] => false end in
  xorb a b.

Definition dec_hi (hi : option nat) : option nat :=
  match hi with Some h => Some (Nat.pred h) | None => None end.

Definition hi_is_zero (hi : option nat) : bool :=
  match hi with Some O => true | _ => false end.

Definition orElse {A} (x : option A) (y : unit -> option A) : option A :=
  match x with Some v => Some v | None => y tt end.

(** The repetition of a matcher [mr], after RepeatMatcher of the ECMAScript
    specification.  The counter [fuel] bounds the number of iterations:
    every iteration lowers the outstanding minimum or consumes a code unit,
    so a counter that starts at [lo + length rest + 1] is never used up. *)
Fixpoint rep (mr : (mstate -> option mstate) -> mstate -> option mstate)
  (k : mstate -> option mstate) (greedy : bool)
  (fuel lo : nat) (hi : option nat) (x : mstate) {struct fuel} : option mstate :=
  match fuel with
  | O => None
  | S fuel' =>
      if hi_is_zero hi then k x
      else
        let d := fun y : mstate =>
          if Nat.eqb lo 0 && Nat.eqb (length (ms_rest y)) (length (ms_rest x))
          then None
          else rep mr k greedy fuel' (Nat.pred lo) (dec_hi hi) y in
        if negb (Nat.eqb lo 0) then mr d x
        else if greedy then orElse (mr d x) (fun _ => k x)
        else orElse (k x) (fun _ => mr d x)
  end.

(** [m r k st]: match [r] at [st], then the continuation [k]. *)
Fixpoint m (r : regex) (k : mstate -> option mstate) (st : mstate) {struct r}
  : option mstate :=
  match r with
  | Eps => k st
  | Chr p =>
      match ms_rest st with
      | c :: rest =>
          if p c then k (MS (c :: ms_pre st) rest (ms_caps st)) else None
      | [] => None
      end
  | Seq a b => m a (m b k) st
  | Alt a b => orElse (m a k st) (fun _ => m b k st)
  | Rep lo hi greedy r' =>
      rep (m r') k greedy (lo + length (ms_rest st) + 1)%nat lo hi st
  | Group n r' =>
      m r' (fun y =>
              let len := (length (ms_rest st) - length (ms_rest y))%nat in
              k (MS (ms_pre y) (ms_rest y) ((n, firstn len (ms_rest st)) :: ms_caps y)))
        st
  | Bol multiline =>
      match ms_pre st with
      | [] => k st
      | c :: _ => if multiline && is_line_terminator c then k st else None
      end
  | Eol multiline =>
      match ms_rest st with
      | [] => k st
      | c :: _ => if multiline && is_line_terminator c then k st else None
      end
  | WordB => if at_word_boundary st then k st else None
  end.

(** A successful match: where it starts, the matched text, the captures. *)
Record rmatch : Type := RM {
  rm_index : nat;
  rm_text : jsstring;
  rm_caps : list (nat * jsstring);
  rm_after : mstate
}.

(** [match[n]]; a group that took no part in the match reads as the empty
    string here (every use in the source is of a group that did). *)
Fixpoint cap (n : nat) (caps : list (nat * jsstring)) : jsstring :=
  match caps with
  | [] => []
  | (i, s) :: caps' => if Nat.eqb i n then s else cap n caps'
  end.

Definition match_at (r : regex) (st : mstate) : option rmatch :=
  match m r (fun y => Some y) (MS (ms_pre st) (ms_rest st) []) with
  | Some y =>
      Some (RM (length (ms_pre st))
               (firstn (length (ms_rest st) - length (ms_rest y)) (ms_rest st))
               (ms_caps y) y)
  | None => None
  end.

(** Search for the leftmost match at or after the position of [st]. *)
Fixpoint search_from (fuel : nat) (r : regex) (st : mstate) : option rmatch :=
  match match_at r st with
  | Some res => Some res
  | None =>
      match fuel, ms_rest st with
      | S fuel', c :: rest => search_from fuel' r (MS (c :: ms_pre st) rest [])
      | _, _ => None
      end
  end.

Definition search (r : regex) (st : mstate) : option rmatch :=
  search_from (length (ms_rest st)) r st.

(** [s.match(r)] for a pattern without the [g] flag, and [r.test(s)]. *)
Definition exec (r : regex) (s : jsstring) : option rmatch := search r (MS [] s []).
Definition test (r : regex) (s : jsstring) : bool :=
  match exec r s with Some _ => true | None => false end.

(** The loop [while ((match = r.exec(s)) !== null) ...] for a pattern with
    the [g] flag: every search starts where the previous match ended.  The
    patterns of the source cannot match the empty string; the enumeration
    stops if a match is empty, where the loop of the source would not
    advance. *)
Fixpoint exec_all_from (fuel : nat) (r : regex) (st : mstate) : list rmatch :=
  match fuel with
  | O => []
  | S fuel' =>
      match search r st with
      | None => []
      | Some res =>
          match rm_text res with
          | [] => [res]
          | _ :: _ =>
              res :: exec_all_from fuel' r
                       (MS (ms_pre (rm_after res)) (ms_rest (rm_after res)) [])
          end
      end
  end.
Definition exec_all (r : regex) (s : jsstring) : list rmatch :=
  exec_all_from (S (length s)) r (MS [] s []).

(** [s.replace(r, by)] for a pattern with the [g] flag and a replacement
    text without [$]. *)
Fixpoint replace_all_from (fuel : nat) (r : regex) (by_ : jsstring) (st : mstate)
  : jsstring :=
  match fuel with
  | O => ms_rest st
  | S fuel' =>
      match search r st with
      | None => ms_rest st
      | Some res =>
          let skipped := firstn (rm_index res - length (ms_pre st)) (ms_rest st) in
          match rm_text res with
          | [] => ms_rest st
          | _ :: _ =>
              skipped ++ by_ ++
              replace_all_from fuel' r by_
                (MS (ms_pre (rm_after res)) (ms_rest (rm_after res)) [])
          end
      end
  end.
Definition replace_all (r : regex) (by_ : jsstring) (s : jsstring) : jsstring :=
  replace_all_from (S (length s)) r by_ (MS [] s []).

(** *** Building blocks *)

Definition star (r : regex) : regex := Rep 0 None true r.
Definition plus (r : regex) : regex := Rep 1 None true r.
Definition opt (r : regex) : regex := Rep 0 (Some 1%nat) true r.
Definition star_lazy (r : regex) : regex := Rep 0 None false r.
Definition plus_lazy (r : regex) : regex := Rep 1 None false r.

Fixpoint seqs (l : list regex) : regex :=
  match l with
  | [] => Eps
  | [r] => r
  | r :: l' => Seq r (seqs l')
  end.

Fixpoint alts (l : list regex) : regex :=
  match l with
  | [] => Chr (fun _ => false)
  | [r] => r
  | r :: l' => Alt r (alts l')
  end.

(** One pattern character, case sensitive or under the [i] flag.  A code unit
    outside ASCII never canonicalizes to an ASCII one, so comparing the
    ASCII upper-case forms is exact for the ASCII pattern characters. *)
Definition ch (c : char) : regex := Chr (fun x => (x =? c)%N).
Definition chi (c : char) : regex := Chr (fun x => (upper x =? upper c)%N).
Arguments ch c%_N.
Arguments chi c%_N.

Definition lit (s : String.string) : regex := seqs (List.map ch (str s)).
Definition liti (s : String.string) : regex := seqs (List.map chi (str s)).

Definition one_of_i (s : String.string) (x : char) : bool :=
  existsb (fun c => (upper x =? upper c)%N) (str s).

Definition ws : regex := Chr is_space.
Definition digit : regex := Chr is_digit.

End Regex.
Import Regex.

(** ** Numbers *)

(** A word count: an integer, or [NaN] where [parseInt] or [parseFloat]
    found no digits. *)
Inductive jsnum : Type :=
| NaN
| Int (z : Z).

(** [Math.round]: the nearest integer, a half rounded up. *)
Definition round (q : Q) : Z := Qfloor (q + (1 # 2)).

(** [Math.round (t * (num / den))] and [Math.round (t / n)] for integers. *)
Definition round_frac (t num den : Z) : Z := (2 * t * num + den) / (2 * den).
Definition round_div (t n : Z) : Z := round_frac t 1 n.

Definition digit_val (c : char) : Z := Z.of_N (c - 48)%N.

Fixpoint take_digits (s : jsstring) : jsstring * jsstring :=
  match s with
  | c :: s' =>
      if is_digit c then let (d, r) := take_digits s' in (c :: d, r) else ([], s)
  | [] => ([], [])
  end.

Definition digits_val (ds : jsstring) : Z :=
  fold_left (fun acc c => 10 * acc + digit_val c) ds 0.

(** [parseFloat] on the texts the number groups of the patterns admit
    (digits and dots; no sign, exponent or leading white space can occur
    there): the longest prefix [digits], [digits.digits] or [.digits].
    [None] is [NaN]. *)
Definition parseFloat (s : jsstring) : option Q :=
  let (ip, r) := take_digits s in
  let fp :=
    match r with
    | 46%N :: r' => fst (take_digits r')
    | _ => []
    end in
  match ip, fp with
  | [], [] => None
  | _, _ =>
      Some (inject_Z (digits_val ip)
            + inject_Z (digits_val fp) / inject_Z (10 ^ Z.of_nat (length fp)))%Q
  end.

(** [parseInt] on the same texts: the leading digits. *)
Definition parseInt (s : jsstring) : jsnum :=
  match fst (take_digits s) with
  | [] => NaN
  | ds => Int (digits_val ds)
  end.

(** [s.replace(/,/g, '')] *)
Definition remove_commas (s : jsstring) : jsstring :=
  List.filter (fun c => negb (c =? 44)%N) s.

(** ** The instruction parser *)

(** An entry of a structure: [{ name: string; wordCount: number }]. *)
Record SectionSpec : Type := mkSection {
  name : jsstring;
  wordCount : jsnum
}.

(** The fields of [ParsedInstructions] that the structure and section
    machinery reads.  The style flags, citation request, philosopher list,
    dialogue fields and free-text constraints only feed prompt texts and are
    left out. *)
Record ParsedInstructions : Type := mkParsed {
  targetWordCount : option jsnum;
  structure : list SectionSpec
}.

Module Patterns.

Definition comma_digit (c : char) : bool := is_digit c || (c =? 44)%N.
Definition comma_dot_digit (c : char) : bool := is_digit c || (c =? 44)%N || (c =? 46)%N.
Definition dot_digit (c : char) : bool := is_digit c || (c =? 46)%N.
(** [[-•*]] *)
Definition bullet (c : char) : bool := ((c =? 45) || (c =? 8226) || (c =? 42))%N.
(** [[:\-–—]] *)
Definition separator (c : char) : bool :=
  ((c =? 58) || (c =? 45) || (c =? 8211) || (c =? 8212))%N.
(** [[^\n(]] and [[^\n]] *)
Definition not_lf_paren (c : char) : bool := negb ((c =? 10) || (c =? 40))%N.
Definition not_lf (c : char) : bool := negb (c =? 10)%N.
Definition alpha_space (c : char) : bool := is_alpha c || is_space c.
Definition alpha_space_colon (c : char) : bool := is_alpha c || is_space c || (c =? 58)%N.

(** [([\d,]+(?:\.\d+)?)] *)
Definition number_group : regex :=
  Group 1 (Seq (plus (Chr comma_digit)) (opt (Seq (ch 46) (plus digit)))).

(** [\s*(?:K)?\s*WORDS?] and [\s*(?:K)?\s*WORD] *)
Definition k_words : regex :=
  seqs [star ws; opt (liti "K"); star ws; liti "WORD"; opt (liti "S")].
Definition k_word : regex :=
  seqs [star ws; opt (liti "K"); star ws; liti "WORD"].

Definition verb_pattern (verb : String.string) : regex :=
  seqs [liti verb; star ws; opt (Seq (liti "A") (star ws)); number_group; k_word].

(** [/EXPAND\s*(?:TO)?\s*([\d,]+(?:\.\d+)?)\s*(?:K)?\s*WORDS?/i] *)
Definition expandPattern : regex :=
  seqs [liti "EXPAND"; star ws; opt (liti "TO"); star ws; number_group; k_words].

Definition wordCountPatterns : list regex :=
  [ expandPattern;
    (* /([\d,]+(?:\.\d+)?)\s*(?:K)?\s*WORDS?\s*(?:THESIS|...|SCHOLARLY)/i *)
    seqs [number_group; k_words; star ws;
          alts [liti "THESIS"; liti "DISSERTATION"; liti "ESSAY"; liti "DOCUMENT";
                liti "LENGTH"; liti "TREATISE"; liti "PAPER"; liti "SCHOLARLY"]];
    (* /(?:THESIS|...|PAPER)\s*(?:OF)?\s*([\d,]+(?:\.\d+)?)\s*(?:K)?\s*WORDS?/i *)
    seqs [alts [liti "THESIS"; liti "DISSERTATION"; liti "ESSAY"; liti "DOCUMENT";
                liti "TREATISE"; liti "PAPER"];
          star ws; opt (liti "OF"); star ws; number_group; k_words];
    (* /TARGET\s*(?:OF)?\s*([\d,]+(?:\.\d+)?)\s*(?:K)?\s*WORDS?/i *)
    seqs [liti "TARGET"; star ws; opt (liti "OF"); star ws; number_group; k_words];
    (* /([\d,]+(?:\.\d+)?)\s*(?:K)?\s*WORDS?\s*TOTAL/i *)
    seqs [number_group; k_words; star ws; liti "TOTAL"];
    (* /TURN\s*(?:THIS\s* )?INTO\s*(?:A\s* )?([\d,]+(?:\.\d+)?)\s*(?:K)?\s*WORD/i *)
    seqs [liti "TURN"; star ws; opt (Seq (liti "THIS") (star ws)); liti "INTO";
          star ws; opt (Seq (liti "A") (star ws)); number_group; k_word];
    verb_pattern "WRITE";
    verb_pattern "GENERATE";
    verb_pattern "PRODUCE";
    verb_pattern "CREATE" ].

(** [/K\s*WORDS?/i] *)
Definition k_format : regex := seqs [liti "K"; star ws; liti "WORD"; opt (liti "S")].

(** [/([\d.]+)\s*k/i] *)
Definition kMatch_pattern : regex :=
  seqs [Group 1 (plus (Chr dot_digit)); star ws; liti "k"].

(** [\(\s*([\d,.]+k?)\s*words?\s*\)] with the count in group [n] *)
Definition paren_count (n : nat) : regex :=
  seqs [ch 40; star ws; Group n (Seq (plus (Chr comma_dot_digit)) (opt (liti "k")));
        star ws; liti "word"; opt (liti "s"); star ws; ch 41].
(** [[:\-–—]\s*([\d,.]+k?)\s*words?] with the count in group [n] *)
Definition sep_count (n : nat) : regex :=
  seqs [Chr separator; star ws;
        Group n (Seq (plus (Chr comma_dot_digit)) (opt (liti "k")));
        star ws; liti "word"; opt (liti "s")].

(** [(?:CHAPTER|SECTION|Ch\.?|Sec\.?)] and [(?:CHAPTER|SECTION)] *)
Definition chapter_word_abbr : regex :=
  alts [liti "CHAPTER"; liti "SECTION"; Seq (liti "Ch") (opt (ch 46));
        Seq (liti "Sec") (opt (ch 46))].
Definition chapter_word : regex := alts [liti "CHAPTER"; liti "SECTION"].

Definition chapterPatterns : list regex :=
  [ (* /[-•*]?\s*(?:CHAPTER|SECTION|Ch\.?|Sec\.?)\s*(\d+)\s*[:\-–—]?\s*([A-Za-z][^\n(]*?)\s*\(\s*([\d,.]+k?)\s*words?\s*\)/gi *)
    seqs [opt (Chr bullet); star ws; chapter_word_abbr; star ws; Group 1 (plus digit);
          star ws; opt (Chr separator); star ws;
          Group 2 (Seq (Chr is_alpha) (star_lazy (Chr not_lf_paren)));
          star ws; paren_count 3];
    (* /(?:CHAPTER|SECTION)\s*(\d+)\s*[:\-–—]\s*([^\n(]+?)\s*\(\s*([\d,.]+k?)\s*words?\s*\)/gi *)
    seqs [chapter_word; star ws; Group 1 (plus digit); star ws; Chr separator; star ws;
          Group 2 (plus_lazy (Chr not_lf_paren)); star ws; paren_count 3];
    (* /[-•*]?\s*(?:CHAPTER|SECTION|Ch\.?|Sec\.?)\s*(\d+)\s*[:\-–—]\s*([A-Za-z][A-Za-z\s]+?)\s*[:\-–—]\s*([\d,.]+k?)\s*words?/gi *)
    seqs [opt (Chr bullet); star ws; chapter_word_abbr; star ws; Group 1 (plus digit);
          star ws; Chr separator; star ws;
          Group 2 (Seq (Chr is_alpha) (plus_lazy (Chr alpha_space)));
          star ws; sep_count 3];
    (* /(?:CHAPTER|SECTION)\s*(\d+)\s*[:\-–—]\s*([^\n]+?)\s*[:\-–—]\s*([\d,.]+k?)\s*words?/gi *)
    seqs [chapter_word; star ws; Group 1 (plus digit); star ws; Chr separator; star ws;
          Group 2 (plus_lazy (Chr not_lf)); star ws; sep_count 3] ].

Definition romanChapterPatterns : list regex :=
  [ (* /[-•*]?\s*(?:CHAPTER|SECTION)\s*([IVXLCDM]+)\s*[:\-–—]\s*([A-Za-z][^\n(]*?)\s*\(\s*([\d,.]+k?)\s*words?\s*\)/gi *)
    seqs [opt (Chr bullet); star ws; chapter_word; star ws;
          Group 1 (plus (Chr (one_of_i "IVXLCDM"))); star ws; Chr separator; star ws;
          Group 2 (Seq (Chr is_alpha) (star_lazy (Chr not_lf_paren)));
          star ws; paren_count 3];
    (* /[-•*]?\s*(?:CHAPTER|SECTION)\s*([IVXLCDM]+)\s*[:\-–—]\s*([A-Za-z][A-Za-z\s]+?)\s*[:\-–—]\s*([\d,.]+k?)\s*words?/gi *)
    seqs [opt (Chr bullet); star ws; chapter_word; star ws;
          Group 1 (plus (Chr (one_of_i "IVXLCDM"))); star ws; Chr separator; star ws;
          Group 2 (Seq (Chr is_alpha) (plus_lazy (Chr alpha_space)));
          star ws; sep_count 3] ].

(** [(?:REVIEW|DUCTION|CLUSION|TRACT|THESIS|OLOGY|ICATION|YSIS|SSION)?] *)
Definition name_suffix : regex :=
  opt (alts [liti "REVIEW"; liti "DUCTION"; liti "CLUSION"; liti "TRACT"; liti "THESIS";
             liti "OLOGY"; liti "ICATION"; liti "YSIS"; liti "SSION"]).

Definition sectionPatterns : list regex :=
  [ (* /[-•*]?\s*([A-Za-z][A-Za-z\s]+(?:REVIEW|...|SSION)?)\s*\(\s*([\d,.]+k?)\s*words?\s*\)/gi *)
    seqs [opt (Chr bullet); star ws;
          Group 1 (seqs [Chr is_alpha; plus (Chr alpha_space); name_suffix]);
          star ws; paren_count 2];
    (* /^[\s]*([A-Z][A-Z\s:]+)\s*\(\s*([\d,.]+k?)\s*words?\s*\)/gim *)
    seqs [Bol true; star ws;
          Group 1 (Seq (Chr is_alpha) (plus (Chr alpha_space_colon)));
          star ws; paren_count 2];
    (* /[-•*]?\s*([A-Za-z][A-Za-z\s]+(?:REVIEW|...|SSION)?)\s*[:\-–—]\s*([\d,.]+k?)\s*words?/gi *)
    seqs [opt (Chr bullet); star ws;
          Group 1 (seqs [Chr is_alpha; plus (Chr alpha_space); name_suffix]);
          star ws; sep_count 2];
    (* /^[\s]*([A-Z][A-Z\s]+)\s*[:\-–—]\s*([\d,.]+k?)\s*words?/gim *)
    seqs [Bol true; star ws;
          Group 1 (Seq (Chr is_alpha) (plus (Chr alpha_space)));
          star ws; sep_count 2] ].

(** [/[-•*]?\s*(intro|lit\.?\s*review|literature\s*rev|concl|meth|discuss|results|abs(?:tract)?)\s*\(\s*([\d,.]+k?)\s*words?\s*\)/gi] *)
Definition abbreviationPattern : regex :=
  seqs [opt (Chr bullet); star ws;
        Group 1 (alts [liti "intro";
                       seqs [liti "lit"; opt (ch 46); star ws; liti "review"];
                       seqs [liti "literature"; star ws; liti "rev"];
                       liti "concl"; liti "meth"; liti "discuss"; liti "results";
                       Seq (liti "abs") (opt (liti "tract"))]);
        star ws; paren_count 2].

(** [/[-•*]?\s*(?:CHAPTER|Ch\.?)\s*(\d+)\s*[:\-–—]\s*([^\n(]+?)(?:\n|$)/gi] *)
Definition chapterNoWordPattern : regex :=
  seqs [opt (Chr bullet); star ws;
        alts [liti "CHAPTER"; Seq (liti "Ch") (opt (ch 46))];
        star ws; Group 1 (plus digit); star ws; Chr separator; star ws;
        Group 2 (plus_lazy (Chr not_lf_paren));
        Alt (ch 10) (Eol false)].

End Patterns.
Import Patterns.

(** [parseWordCountFromString] *)
Definition parseWordCountFromString (s : jsstring) : jsnum :=
  match exec kMatch_pattern s with
  | Some km =>
      match parseFloat (cap 1 (rm_caps km)) with
      | Some q => Int (round (q * inject_Z 1000))
      | None => NaN
      end
  | None => parseInt (remove_commas s)
  end.

(** [originalText.toUpperCase().includes('THESIS')] *)
Definition thesis_mentioned (originalText : jsstring) : bool :=
  includes (toUpperCase originalText) (str "THESIS").

(** The count for a pattern that matched (l. 368-377): the number of the
    group, times 1000 in the [K] format, times 1000 when it is then below
    500 and the text mentions a thesis, rounded. *)
Definition count_of_match (originalText : jsstring) (mt : rmatch) : jsnum :=
  match parseFloat (remove_commas (cap 1 (rm_caps mt))) with
  | None => NaN
  | Some count =>
      let count := if test k_format (rm_text mt) then (count * inject_Z 1000)%Q else count in
      let count :=
        if Qlt_le_dec count (inject_Z 500) then
          if thesis_mentioned originalText then (count * inject_Z 1000)%Q else count
        else count in
      Int (round count)
  end.

(** The loop over [wordCountPatterns]: the first pattern that matches
    decides. *)
Fixpoint parseTargetWordCount (patterns : list regex) (originalText : jsstring)
  : option jsnum :=
  match patterns with
  | [] => None
  | p :: ps =>
      match exec p originalText with
      | Some mt => Some (count_of_match originalText mt)
      | None => parseTargetWordCount ps originalText
      end
  end.

(** [addSection]: a section is added unless the first 15 characters of its
    upper-cased name occur in the upper-cased name of a section already
    there. *)
Definition addSection (nm : jsstring) (wc : jsnum) (st : list SectionSpec) : list SectionSpec :=
  let normalizedName := toUpperCase (trim nm) in
  if existsb (fun s => includes (toUpperCase (name s))
                         (substring0 (Nat.min 15 (length normalizedName)) normalizedName)) st
  then st
  else st ++ [mkSection (trim nm) wc].

Definition romanMap (c : char) : Z :=
  if (c =? 73)%N then 1 else if (c =? 86)%N then 5 else if (c =? 88)%N then 10
  else if (c =? 76)%N then 50 else if (c =? 67)%N then 100
  else if (c =? 68)%N then 500 else if (c =? 77)%N then 1000 else 0.

Fixpoint romanValue (up : jsstring) (result : Z) : Z :=
  match up with
  | [] => result
  | c :: rest =>
      let current := romanMap c in
      let next := match rest with d :: _ => romanMap d | [] => 0 end in
      if current <? next then romanValue rest (result - current)
      else romanValue rest (result + current)
  end.

Definition romanToArabic (roman : jsstring) : jsstring :=
  toString (romanValue (toUpperCase roman) 0).

(** [`CHAPTER ${chapterNum}: ${chapterTitle}`], or [`CHAPTER ${chapterNum}`]
    when the title is empty. *)
Definition chapterName (chapterNum chapterTitle : jsstring) : jsstring :=
  if nonempty chapterTitle then str "CHAPTER " ++ chapterNum ++ str ": " ++ chapterTitle
  else str "CHAPTER " ++ chapterNum.

Definition addChapterMatch (numOf : jsstring -> jsstring) (st : list SectionSpec) (mt : rmatch)
  : list SectionSpec :=
  let chapterNum := numOf (cap 1 (rm_caps mt)) in
  let chapterTitle := trim (cap 2 (rm_caps mt)) in
  let wc := parseWordCountFromString (cap 3 (rm_caps mt)) in
  addSection (chapterName chapterNum chapterTitle) wc st.

Definition addSectionMatch (st : list SectionSpec) (mt : rmatch) : list SectionSpec :=
  let sectionName := trim (cap 1 (rm_caps mt)) in
  let wc := parseWordCountFromString (cap 2 (rm_caps mt)) in
  if includes (toUpperCase sectionName) (str "CHAPTER") then st
  else addSection (toUpperCase sectionName) wc st.

Definition abbreviationMap : list (String.string * String.string) :=
  [ ("INTRO", "INTRODUCTION"); ("LIT REVIEW", "LITERATURE REVIEW");
    ("LIT. REVIEW", "LITERATURE REVIEW"); ("LITERATURE REV", "LITERATURE REVIEW");
    ("CONCL", "CONCLUSION"); ("METH", "METHODOLOGY"); ("DISCUSS", "DISCUSSION");
    ("RESULTS", "RESULTS"); ("ABSTRACT", "ABSTRACT"); ("ABS", "ABSTRACT") ]%string.

Fixpoint expandAbbreviation (tbl : list (String.string * String.string)) (abbr : jsstring)
  : jsstring :=
  match tbl with
  | [] => abbr
  | (k, v) :: tbl' => if eqb (str k) abbr then str v else expandAbbreviation tbl' abbr
  end.

Definition addAbbreviationMatch (st : list SectionSpec) (mt : rmatch) : list SectionSpec :=
  let abbr := trim (replace_all (plus ws) (str " ") (toUpperCase (cap 1 (rm_caps mt)))) in
  let fullName := expandAbbreviation abbreviationMap abbr in
  addSection fullName (parseWordCountFromString (cap 2 (rm_caps mt))) st.

Definition addChapterNoWordMatch (st : list SectionSpec) (mt : rmatch) : list SectionSpec :=
  let chapterNum := cap 1 (rm_caps mt) in
  let chapterTitle := trim (cap 2 (rm_caps mt)) in
  let fullName := str "CHAPTER " ++ chapterNum ++ str ": " ++ chapterTitle in
  if existsb (fun s => includes (toUpperCase (name s)) (str "CHAPTER " ++ chapterNum)) st
  then st
  else addSection fullName (Int 0) st.

(** The loops over the pattern lists, each pattern applied to the whole
    text, in the order of the source. *)
Definition forEachMatch (step : list SectionSpec -> rmatch -> list SectionSpec)
  (originalText : jsstring) (st : list SectionSpec) (p : regex) : list SectionSpec :=
  fold_left step (exec_all p originalText) st.

Definition parseStructure (originalText : jsstring) : list SectionSpec :=
  let st := [] in
  let st := fold_left (forEachMatch (addChapterMatch romanToArabic) originalText)
              romanChapterPatterns st in
  let st := fold_left (forEachMatch (addChapterMatch (fun n => n)) originalText)
              chapterPatterns st in
  let st := fold_left (forEachMatch addSectionMatch originalText) sectionPatterns st in
  let st := forEachMatch addAbbreviationMatch originalText st abbreviationPattern in
  forEachMatch addChapterNoWordMatch originalText st chapterNoWordPattern.

(** The value a call of [parseExpansionInstructions] builds when the cache
    has no entry. *)
Definition parseFresh (customInstructions : jsstring) : ParsedInstructions :=
  match customInstructions with
  | [] => mkParsed None []
  | _ =>
      mkParsed (parseTargetWordCount wordCountPatterns customInstructions)
               (parseStructure customInstructions)
  end.

(** ** The parse cache

    [parseCache] is a module-level [Map] from the instruction text to the
    object built for it.  Objects live in a store and are named by their
    index, so that two uses of the same object are told from two equal
    objects.  The entries of [structure] are only reachable through their
    [ParsedInstructions] object (the arrays [filter] builds in
    [universalExpand] hold the same entries), so they are kept inside it. *)

Definition ref : Type := nat.

Record State : Type := mkState {
  heap : list ParsedInstructions;
  parseCache : gmap jsstring ref;
  (** how many times the pattern matchers have run (l. 347-591) *)
  matcherRuns : nat
}.

Definition initialState : State := mkState [] ∅ 0.

Definition deref (σ : State) (r : ref) : ParsedInstructions :=
  match heap σ !! r with
  | Some p => p
  | None => mkParsed None []
  end.

(** [parseExpansionInstructions]: the object and the state after the call. *)
Definition parseExpansionInstructions (customInstructions : jsstring) (σ : State)
  : ref * State :=
  match parseCache σ !! customInstructions with
  | Some r => (r, σ)
  | None =>
      let r := length (heap σ) in
      (r, mkState (heap σ ++ [parseFresh customInstructions])
                  (<[customInstructions := r]> (parseCache σ))
                  (if nonempty customInstructions then S (matcherRuns σ)
                   else matcherRuns σ))
  end.

(** ** Section generation *)

Inductive StopReason : Type :=
| end_turn
| max_tokens
| stop_sequence.

(** What one call of the provider returns: the text of the first content
    block and the stop reason. *)
Record Response : Type := mkResponse {
  text : jsstring;
  stop_reason : StopReason
}.

(** [s.trim().split(/\s+/).filter(w => w).length] *)
Definition countWords (s : jsstring) : Z :=
  Z.of_nat (length (List.filter nonempty (split_ws (trim s)))).

(** [s.trim().split(/\s+/).length], which is 1 for a blank string. *)
Definition countFields (s : jsstring) : Z :=
  Z.of_nat (length (split_ws (trim s))).

Module Strip.

Definition stars : regex := Rep 0 (Some 2%nat) true (ch 42).
Definition equals2 : regex := Rep 2 None true (ch 61).
Definition any_char : regex := Chr (fun c => negb (is_line_terminator c)).

(** [/^\*{0,2}LABEL\*{0,2}\s*:/i] *)
Definition labelled (label : String.string) : regex :=
  seqs [Bol false; stars; liti label; stars; star ws; ch 58].
(** [/^={2,}\s*LABEL\s*={2,}$/i] *)
Definition banner (label : String.string) : regex :=
  seqs [Bol false; equals2; star ws; liti label; star ws; equals2; Eol false].

Definition metadataPatterns : list regex :=
  [ labelled "UNIQUE CONCEPTUAL CONTRIBUTION";
    labelled "PREREQUISITE DEPENDENCY";
    (* /^\*{0,2}WHAT THE READER KNOWS\b/i *)
    seqs [Bol false; stars; liti "WHAT THE READER KNOWS"; WordB];
    labelled "SECTION SUMMARY";
    labelled "CONCEPTUAL CONTRIBUTION";
    labelled "KEY POINTS";
    banner "DOCUMENT SKELETON";
    banner "GENERATING SECTIONS" ].

(** [/^(#+\s+.+?)\s*\(\s*[\d,]+\s*words?\s*\)/i] *)
Definition wordCountInHeader : regex :=
  seqs [Bol false; Group 1 (seqs [plus (ch 35); plus ws; plus_lazy any_char]);
        star ws; ch 40; star ws; plus (Chr comma_digit); star ws;
        liti "word"; opt (liti "s"); star ws; ch 41].

(** [/\n{3,}/g] *)
Definition blank_lines : regex := Rep 3 None true (ch 10).

Fixpoint cleanLoop (skipNextBlank : bool) (lines : list jsstring) : list jsstring :=
  match lines with
  | [] => []
  | line :: rest =>
      let trimmed := trim line in
      if existsb (fun p => test p trimmed) metadataPatterns then cleanLoop true rest
      else if skipNextBlank && negb (nonempty trimmed) then cleanLoop false rest
      else if eqb trimmed (str "---") then cleanLoop false rest
      else match exec wordCountInHeader trimmed with
           | Some hm => trim (cap 1 (rm_caps hm)) :: cleanLoop false rest
           | None => line :: cleanLoop false rest
           end
  end.

Definition stripSkeletonMetadata (t : jsstring) : jsstring :=
  trim (replace_all blank_lines [lf; lf] (join [lf] (cleanLoop false (split_char lf t)))).

End Strip.
Import Strip.

Module Gen.

Record LoopState : Type := mkLoop {
  accumulatedContent : jsstring;
  currentWordCount : Z;
  continuationAttempts : nat
}.

Definition maxContinuationAttempts : nat := 20.

(** [currentWordCount < targetWordCount * 0.95], on exact rationals:
    [c < t * 19/20]. *)
Definition below95 (c : Z) (target : jsnum) : bool :=
  match target with
  | NaN => false
  | Int t => 20 * c <? 19 * t
  end.

(** The condition of the [while] loop of [generateSection]. *)
Definition guard (target : jsnum) (st : LoopState) : bool :=
  below95 (currentWordCount st) target
  && Nat.ltb (continuationAttempts st) maxContinuationAttempts.

(** One pass through the body of the loop.  [provider n] is the answer to
    the [n]-th request of this section; the prompt only reaches the
    provider, so it is not built.  The stop reason is read into
    [wasTruncated], which the body uses for two log lines and for the
    delay before the next test of the condition. *)
Definition body (provider : nat -> Response) (st : LoopState) : LoopState :=
  let isFirstChunk := Nat.eqb (continuationAttempts st) 0 in
  let response := provider (continuationAttempts st) in
  let chunkContent := text response in
  let acc :=
    if isFirstChunk then trim chunkContent
    else accumulatedContent st ++ [lf; lf] ++ trim chunkContent in
  mkLoop acc (countWords acc) (S (continuationAttempts st)).

Definition initial : LoopState := mkLoop [] 0 0.

(** The [while] loop as a relation between the state before and after. *)
Inductive while_loop (target : jsnum) (provider : nat -> Response)
  : LoopState -> LoopState -> Prop :=
| while_exit st :
    guard target st = false -> while_loop target provider st st
| while_iter st st' :
    guard target st = true ->
    while_loop target provider (body provider st) st' ->
    while_loop target provider st st'.

(** The same loop run for at most [n] passes. *)
Fixpoint iterate (n : nat) (target : jsnum) (provider : nat -> Response)
  (st : LoopState) : LoopState :=
  match n with
  | O => st
  | S n' =>
      if guard target st then iterate n' target provider (body provider st) else st
  end.

(** [generateSection]: the cleaned content.  Of the parameters of the
    source the target decides the loop; the others are put into the prompts.
    (The key points returned with the content only feed later prompts.) *)
Definition generateSection (targetWordCount : jsnum) (provider : nat -> Response)
  : jsstring :=
  stripSkeletonMetadata
    (accumulatedContent (iterate maxContinuationAttempts targetWordCount provider initial)).

End Gen.

(** ** Structure allocation *)

Module Alloc.

Definition sec (nm : String.string) (wc : Z) : SectionSpec := mkSection (str nm) (Int wc).

(** The table for targets of 50,000 words and more. *)
Definition largeStructure (targetWordCount : Z) : list SectionSpec :=
  let abstractWords := round_frac targetWordCount 1 100 in
  let introWords := round_frac targetWordCount 5 100 in
  let conclusionWords := round_frac targetWordCount 4 100 in
  let fixedTotal := abstractWords + introWords + conclusionWords in
  let remainingWords := targetWordCount - fixedTotal in
  let bodySectionCount := 12 in
  let wordsPerSection := round_div remainingWords bodySectionCount in
  let bodyTotal := wordsPerSection * (bodySectionCount - 1) in
  let lastBodySectionWords := remainingWords - bodyTotal in
  [ sec "ABSTRACT" abstractWords;
    sec "INTRODUCTION" introWords;
    sec "LITERATURE REVIEW PART 1: HISTORICAL CONTEXT" wordsPerSection;
    sec "LITERATURE REVIEW PART 2: CONTEMPORARY PERSPECTIVES" wordsPerSection;
    sec "LITERATURE REVIEW PART 3: CRITICAL ANALYSIS" wordsPerSection;
    sec "CHAPTER 1: FOUNDATIONAL CONCEPTS" wordsPerSection;
    sec "CHAPTER 2: THEORETICAL FRAMEWORK" wordsPerSection;
    sec "CHAPTER 3: CORE ARGUMENT DEVELOPMENT" wordsPerSection;
    sec "CHAPTER 4: EVIDENCE AND ANALYSIS" wordsPerSection;
    sec "CHAPTER 5: COUNTERARGUMENTS AND RESPONSES" wordsPerSection;
    sec "CHAPTER 6: CASE STUDIES" wordsPerSection;
    sec "CHAPTER 7: METHODOLOGICAL CONSIDERATIONS" wordsPerSection;
    sec "CHAPTER 8: BROADER IMPLICATIONS" wordsPerSection;
    sec "CHAPTER 9: FUTURE DIRECTIONS" lastBodySectionWords;
    sec "CONCLUSION" conclusionWords ].

(** The table for smaller targets. *)
Definition standardStructure (targetWordCount : Z) : list SectionSpec :=
  [ sec "ABSTRACT" (round_frac targetWordCount 15 1000);
    sec "INTRODUCTION" (round_frac targetWordCount 10 100);
    sec "LITERATURE REVIEW" (round_frac targetWordCount 20 100);
    sec "CHAPTER 1: CORE ARGUMENT" (round_frac targetWordCount 175 1000);
    sec "CHAPTER 2: SUPPORTING ANALYSIS" (round_frac targetWordCount 175 1000);
    sec "CHAPTER 3: CRITICAL EXAMINATION" (round_frac targetWordCount 175 1000);
    sec "CHAPTER 4: IMPLICATIONS" (round_frac targetWordCount 10 100);
    sec "CONCLUSION" (round_frac targetWordCount 6 100) ].

Definition synthesizedStructure (targetWordCount : Z) : list SectionSpec :=
  if 50000 <=? targetWordCount then largeStructure targetWordCount
  else standardStructure targetWordCount.

(** Addition and comparison of numbers, with [NaN]. *)
Definition jsadd (a b : jsnum) : jsnum :=
  match a, b with
  | Int x, Int y => Int (x + y)
  | _, _ => NaN
  end.

Definition is_zero (a : jsnum) : bool :=
  match a with Int 0 => true | _ => false end.

(** [structure.reduce((sum, s) => sum + s.wordCount, 0)] *)
Definition totalWords (st : list SectionSpec) : jsnum :=
  fold_left (fun sum s => jsadd sum (wordCount s)) st (Int 0).

(** The [else] branch of the structure step: the sections whose count is 0
    are given an equal share of what the target leaves, when the target
    exceeds the counts given. *)
Definition distribute (targetWordCount : Z) (st : list SectionSpec) : list SectionSpec :=
  let totalExplicit := totalWords st in
  let sectionsWithoutCount := List.filter (fun s => is_zero (wordCount s)) st in
  match totalExplicit with
  | Int total =>
      if (0 <? Z.of_nat (length sectionsWithoutCount)) && (total <? targetWordCount) then
        let remaining := targetWordCount - total in
        let perSection := round_div remaining (Z.of_nat (length sectionsWithoutCount)) in
        List.map (fun s => if is_zero (wordCount s) then mkSection (name s) (Int perSection)
                           else s) st
      else st
  | NaN => st
  end.

End Alloc.
Import Alloc.

(** ** Stitch repair *)

Module Stitch.

Record Repair : Type := mkRepair {
  sectionName : jsstring;
  problematicText : jsstring;
  repairedText : jsstring
}.

(** [l.findIndex(f)]; [None] is -1. *)
Fixpoint findIndex {A} (f : A -> bool) (l : list A) : option nat :=
  match l with
  | [] => None
  | x :: l' => if f x then Some O else option_map S (findIndex f l')
  end.

(** The text before the first occurrence of [p] in [s] and the text after
    it. *)
Fixpoint splitAtFirst (s p : jsstring) : option (jsstring * jsstring) :=
  if startsWith s p then Some ([], skipn (length p) s)
  else match s with
       | [] => None
       | c :: s' =>
           match splitAtFirst s' p with
           | Some (before, after) => Some (c :: before, after)
           | None => None
           end
       end.

(** The replacement text of [String.prototype.replace] for a string
    pattern: [$$] is a dollar sign, [$&] the matched text, [$`] the text
    before the match, [$'] the text after it; any other character stands
    for itself. *)
Fixpoint getSubstitution (matched before after : jsstring) (replacement : jsstring)
  : jsstring :=
  match replacement with
  | [] => []
  | 36%N :: rest =>
      match rest with
      | 36%N :: rest' => 36%N :: getSubstitution matched before after rest'
      | 38%N :: rest' => matched ++ getSubstitution matched before after rest'
      | 96%N :: rest' => before ++ getSubstitution matched before after rest'
      | 39%N :: rest' => after ++ getSubstitution matched before after rest'
      | _ => 36%N :: getSubstitution matched before after rest
      end
  | c :: rest => c :: getSubstitution matched before after rest
  end.

(** [s.replace(p, by)] for strings [p] and [by]: the first occurrence. *)
Definition replaceFirst (s p by_ : jsstring) : jsstring :=
  match splitAtFirst s p with
  | Some (before, after) => before ++ getSubstitution p before after by_ ++ after
  | None => s
  end.

(** The section a repair is applied to: by name in the structure, else the
    first section text that starts with the name, else the first section
    text that contains the problematic text. *)
Definition locateByName (structure_ : list SectionSpec) (sections : list jsstring) (r : Repair)
  : option nat :=
  match findIndex (fun s => eqb (name s) (sectionName r)) structure_ with
  | Some i => Some i
  | None => findIndex (fun s => startsWith s (sectionName r)) sections
  end.

Definition locate (structure_ : list SectionSpec) (sections : list jsstring) (r : Repair)
  : option nat :=
  match locateByName structure_ sections r with
  | Some i => Some i
  | None => findIndex (fun s => includes s (problematicText r)) sections
  end.

(** One repair.  [None]: reading [sections[sectionIdx]] gave [undefined]
    and [replace] threw. *)
Definition applyRepair (structure_ : list SectionSpec) (sections : list jsstring) (r : Repair)
  : option (list jsstring) :=
  match locate structure_ sections r with
  | Some sectionIdx =>
      if nonempty (problematicText r) && nonempty (repairedText r) then
        match sections !! sectionIdx with
        | Some before =>
            Some (<[sectionIdx := replaceFirst before (problematicText r) (repairedText r)]>
                    sections)
        | None => None
        end
      else Some sections
  | None => Some sections
  end.

(** The loop over the repairs.  An exception leaves the loop; the [catch]
    of the stitch pass keeps the sections as they are at that point. *)
Fixpoint applyRepairs (structure_ : list SectionSpec) (sections : list jsstring)
  (repairs : list Repair) : list jsstring :=
  match repairs with
  | [] => sections
  | r :: rest =>
      match applyRepair structure_ sections r with
      | Some sections' => applyRepairs structure_ sections' rest
      | None => sections
      end
  end.

End Stitch.
Import Stitch.

(** ** The expansion job *)

Module Job.

(** The events given to [onChunk].  The free-text messages and the
    percentages are left out. *)
Inductive StreamChunk : Type :=
| Progress
| Outline (totalSections : nat)
| SectionComplete (sectionTitle sectionContent : jsstring) (sectionIndex totalSections : nat)
    (wordCount_ totalWordCount_ : Z)
| Complete (totalSections : option nat) (wordCount_ : option Z) (totalWordCount_ : Z).

Record ExpansionRequest : Type := mkRequest {
  req_text : jsstring;
  customInstructions : jsstring;
  req_targetWordCount : option jsnum;
  maxWords : option jsnum;
  (** whether a callback [onChunk] was given *)
  onChunk : bool
}.

(** [processingTimeMs] is read off the clock and left out. *)
Record ExpansionResult : Type := mkResult {
  expandedText : jsstring;
  inputWordCount : Z;
  outputWordCount : Z;
  sectionsGenerated : nat
}.

(** What the collaborators of one job answer.  The skeleton and the outline
    only feed prompts; of a delta report the job reads whether it flags the
    section. *)
Record Env : Type := mkEnv {
  (** the source text assembled from the chunk skeletons and the
      meta-skeleton (l. 1183-1225), used for inputs over 50,000 words *)
  tieredSource : jsstring;
  (** the answer to the [n]-th generation request for section [i] *)
  provider : nat -> nat -> Response;
  (** section [i] has conflicts or the status [VIOLATION] *)
  flagged : nat -> bool;
  (** the repairs of the stitch answer; [None] when the call or the parse
      of its answer failed, or the answer has no list of repairs *)
  stitchRepairs : option (list Repair)
}.

(** A value used as a condition: neither [null]/[undefined], nor 0, nor
    [NaN]. *)
Definition truthy (n : option jsnum) : option Z :=
  match n with
  | Some (Int z) => if z =? 0 then None else Some z
  | _ => None
  end.

Definition emit (on : bool) (ev : StreamChunk) (evs : list StreamChunk) : list StreamChunk :=
  if on then evs ++ [ev] else evs.

(** The target word count and the structure (l. 1230-1311).  The [else]
    branch writes the shares into the entries of [parsed.structure], that
    is, into the object [r] of the store. *)
Definition planTarget (parsed : ParsedInstructions) (req : ExpansionRequest)
  (inputWords : Z) : Z :=
  match truthy (targetWordCount parsed) with
  | Some t => t
  | None =>
      match truthy (req_targetWordCount req) with
      | Some t => t
      | None => Z.max (inputWords * 10) 5000
      end
  end.

Definition planStructure (r : ref) (target : Z) (σ : State) : list SectionSpec * State :=
  let parsed := deref σ r in
  match structure parsed with
  | [] => (synthesizedStructure target, σ)
  | st =>
      let st' := distribute target st in
      (st', mkState (<[r := mkParsed (targetWordCount parsed) st']> (heap σ))
                    (parseCache σ) (matcherRuns σ))
  end.

(** The state of the loop over the sections. *)
Record Progress_ : Type := mkProgress {
  sections : list jsstring;
  cumulativeWordCount : Z;
  flags : list bool;
  events : list StreamChunk
}.

(** [maxWords && cumulativeWordCount >= maxWords] *)
Definition limitReached (maxWords_ : option jsnum) (cumulative : Z) : bool :=
  match truthy maxWords_ with
  | Some limit => limit <=? cumulative
  | None => false
  end.

(** One pass of the loop for section [i] (l. 1439-1526). *)
Definition generateOne (env : Env) (req : ExpansionRequest) (total i : nat)
  (section : SectionSpec) (acc : Progress_) : Progress_ :=
  let sectionContent := Gen.generateSection (wordCount section) (provider env i) in
  let fullSectionText := name section ++ [lf; lf] ++ trim sectionContent in
  let sectionWordCount := countFields sectionContent in
  let cumulative := cumulativeWordCount acc + sectionWordCount in
  mkProgress (sections acc ++ [fullSectionText]) cumulative
    (flags acc ++ [flagged env i])
    (emit (onChunk req)
       (SectionComplete (name section) fullSectionText i total sectionWordCount cumulative)
       (events acc)).

(** The loop [for (let i = 0; i < structure.length; i++)] from index [i]
    on, [todo] being the sections from [i]. *)
Fixpoint sectionLoop (env : Env) (req : ExpansionRequest) (total i : nat)
  (todo : list SectionSpec) (acc : Progress_) : Progress_ :=
  match todo with
  | [] => acc
  | section :: rest =>
      if limitReached (maxWords req) (cumulativeWordCount acc) then
        mkProgress (sections acc) (cumulativeWordCount acc) (flags acc)
          (emit (onChunk req)
             (Complete None (Some (cumulativeWordCount acc)) (cumulativeWordCount acc))
             (events acc))
      else
        sectionLoop env req total (S i) rest (generateOne env req total i section acc)
  end.

(** The stitch pass (l. 1535-1668). *)
Definition stitchPass (env : Env) (req : ExpansionRequest) (structure_ : list SectionSpec)
  (acc : Progress_) : Progress_ :=
  if existsb (fun b => b) (flags acc) && Nat.ltb 0 (length (sections acc)) then
    let evs := emit (onChunk req) Progress (events acc) in
    match stitchRepairs env with
    | Some repairs =>
        mkProgress (applyRepairs structure_ (sections acc) repairs)
          (cumulativeWordCount acc) (flags acc) evs
    | None => mkProgress (sections acc) (cumulativeWordCount acc) (flags acc) evs
    end
  else acc.

(** The progress events of the two-tier skeleton stage: one at its start,
    one for every chunk of 50,000 words, one before the meta-skeleton. *)
Definition tierEvents (rawWordCount : Z) : list StreamChunk :=
  repeat Progress (2 + Z.to_nat ((rawWordCount + 49999) / 50000)).

(** [universalExpand]: the result, the events given to [onChunk], and the
    state after the job. *)
Definition universalExpand (env : Env) (req : ExpansionRequest) (σ : State)
  : ExpansionResult * list StreamChunk * State :=
  let rawWordCount := countFields (req_text req) in
  let tiered := 50000 <? rawWordCount in
  let text_ := if tiered then tieredSource env else req_text req in
  let evs := if tiered && onChunk req then tierEvents rawWordCount else [] in
  let inputWords := countFields text_ in
  let (r, σ1) := parseExpansionInstructions (customInstructions req) σ in
  let target := planTarget (deref σ1 r) req inputWords in
  let (structure_, σ2) := planStructure r target σ1 in
  let evs := emit (onChunk req) Progress evs in
  let evs := emit (onChunk req) Progress evs in
  let evs := emit (onChunk req) (Outline (length structure_)) evs in
  let acc := sectionLoop env req (length structure_) 0 structure_ (mkProgress [] 0 [] evs) in
  let acc := stitchPass env req structure_ acc in
  let expanded := join [lf; lf] (sections acc) in
  let outputWords := countFields expanded in
  (mkResult expanded inputWords outputWords (length structure_),
   emit (onChunk req) (Complete (Some (length structure_)) None outputWords) (events acc),
   σ2).

End Job.
Import Job.

(** ** Notions used in the statements *)

(** *** Allocation *)

(** The sections [distribute] selects, and what it makes of a section. *)
Definition without_count (st : list SectionSpec) : list SectionSpec :=
  List.filter (fun s => is_zero (wordCount s)) st.

Definition give (per : Z) (s : SectionSpec) : SectionSpec :=
  if is_zero (wordCount s) then mkSection (name s) (Int per) else s.

(** *** The loop over the sections *)

(** The text pushed for section [i], and the words it adds to the
    cumulative count. *)
Definition sectionText (env : Env) (i : nat) (s : SectionSpec) : jsstring :=
  name s ++ [lf; lf] ++ trim (Gen.generateSection (wordCount s) (provider env i)).

Definition sectionWords (env : Env) (i : nat) (s : SectionSpec) : Z :=
  countFields (Gen.generateSection (wordCount s) (provider env i)).

Fixpoint sectionTexts (env : Env) (i : nat) (l : list SectionSpec) : list jsstring :=
  match l with
  | [] => []
  | s :: l' => sectionText env i s :: sectionTexts env (S i) l'
  end.


Definition isSectionComplete (ev : StreamChunk) : bool :=
  match ev with SectionComplete _ _ _ _ _ _ => true | _ => false end.

(** *** The parse cache *)

(** The cache agrees with the parser on the target word count of every
    text it holds. *)
Definition cacheFaithful (σ : State) : Prop :=
  forall s r, parseCache σ !! s = Some r ->
    exists p, heap σ !! r = Some p /\ targetWordCount p = targetWordCount (parseFresh s).

(** *** The clause [EXPAND TO N WORDS] *)








(** *** The matcher *)

(** The next code unit, if any, is outside the class [p]. *)
Definition stops (p : char -> bool) (rest : jsstring) : Prop :=
  match rest with
  | [] => True
  | c :: _ => p c = false
  end.

(** A matcher is local when its result depends on its continuation only at
    states that have no more code units ahead than the state it starts
    from. *)
Definition local_matcher (mr : (mstate -> option mstate) -> mstate -> option mstate) : Prop :=
  forall (d d' : mstate -> option mstate) (x : mstate),
    (forall y, (length (ms_rest y) <= length (ms_rest x))%nat -> d y = d' y) ->
    mr d x = mr d' x.

(** *** Roman numerals *)

(** Modelled from the spec: the standard subtractive notation of the
    numbers 1 to 3999, against which [romanToArabic] is compared. *)
Definition romanTable : list (Z * String.string) :=
  [ (1000, "M"); (900, "CM"); (500, "D"); (400, "CD"); (100, "C"); (90, "XC");
    (50, "L"); (40, "XL"); (10, "X"); (9, "IX"); (5, "V"); (4, "IV"); (1, "I") ]%string.

Fixpoint standardRomanFrom (fuel : nat) (tbl : list (Z * String.string)) (n : Z) : jsstring :=
  match fuel, tbl with
  | S fuel', (v, sym) :: tbl' =>
      if v <=? n then str sym ++ standardRomanFrom fuel' tbl (n - v)
      else standardRomanFrom fuel' tbl' n
  | _, _ => []
  end.

Definition standardRoman (n : Z) : jsstring := standardRomanFrom 40 romanTable n.


(** *** Inputs the statements are evaluated at *)

Definition romanInstruction : jsstring := str "CHAPTER IV: Methods (2,000 words)".



(** Instructions that name two chapters without word counts, and a job for
    them with a target of 1000 words. *)
Definition twoChapters : jsstring :=
  str "CHAPTER 1: Intro" ++ [lf] ++ str "CHAPTER 2: Methods".

Definition twoChaptersRequest : ExpansionRequest :=
  mkRequest (str "source text") twoChapters (Some (Int 1000)) None false.

(** A provider that answers every request with the single word [word], and
    collaborators that flag nothing. *)
Definition oneWordProvider : nat -> nat -> Response :=
  fun _ _ => mkResponse (str "word") end_turn.

Definition quietEnv : Env := mkEnv [] oneWordProvider (fun _ => false) None.

(** A job for 5000 words, capped at one word, with a listener. *)
Definition cappedRequest : ExpansionRequest :=
  mkRequest (str "source text") (str "EXPAND TO 5000 WORDS") None (Some (Int 1)) true.





(** ** Further functions of the service

    The helpers around section generation ([extractRelevantSourceExcerpt],
    [extractKeyPoints], [generateSectionSummary]), the entry test
    [hasExpansionInstructions], and the splitting of a large source into
    chunks.  As before, what only builds a prompt or a log line is left
    out. *)

From Stdlib Require Import Sorted.

Module Words.

(** [toLowerCase] on one code unit; as for [upper], the ASCII mapping. *)
Definition lower (c : char) : char := if is_upper c then (c + 32)%N else c.
Definition toLowerCase (s : jsstring) : jsstring := List.map lower s.

(** [s.split(/[...]+/)] for a character class [p]: the fields between
    maximal runs of code units of the class.  [split_ws] is the instance
    for [\s]. *)
Fixpoint split_runs_from (p : char -> bool) (in_run : bool) (s : jsstring)
  : list jsstring :=
  match s with
  | [] => [[]]
  | c :: s' =>
      if p c then
        if in_run then split_runs_from p true s' else [] :: split_runs_from p true s'
      else match split_runs_from p false s' with
           | [] => [[c]]
           | w :: ws => (c :: w) :: ws
           end
  end.
Definition split_runs (p : char -> bool) (s : jsstring) : list jsstring :=
  split_runs_from p false s.

(** [s.split(/\n\n+/)]: the paragraphs between runs of two or more line
    feeds.  The scan remembers whether it is inside a paragraph, has passed
    one line feed that may begin a break, or is inside a break. *)
Inductive ParState : Type :=
| InText
| OneLf
| InBreak.

Fixpoint split_paragraphs_from (st : ParState) (s : jsstring) : list jsstring :=
  match s with
  | [] => match st with OneLf => [[lf]] | _ => [[]] end
  | c :: s' =>
      if (c =? lf)%N then
        match st with
        | InText => split_paragraphs_from OneLf s'
        | OneLf => [] :: split_paragraphs_from InBreak s'
        | InBreak => split_paragraphs_from InBreak s'
        end
      else
        let here := match st with OneLf => [lf; c] | _ => [c] end in
        match split_paragraphs_from InText s' with
        | [] => [here]
        | w :: ws => (here ++ w) :: ws
        end
  end.
Definition split_paragraphs (s : jsstring) : list jsstring :=
  split_paragraphs_from InText s.

(** [s.split(kw).length - 1] for a non-empty string [kw]: the occurrences
    of [kw] in [s], counted from the left without overlap.  After an
    occurrence the scan passes over the rest of it. *)
Fixpoint countSplit (kw : jsstring) (skip : nat) (s : jsstring) : Z :=
  match s with
  | [] => 0
  | _ :: s' =>
      match skip with
      | S n => countSplit kw n s'
      | O =>
          if startsWith s kw then 1 + countSplit kw (length kw - 1) s'
          else countSplit kw 0 s'
      end
  end.

(** [Array.prototype.sort] with a comparator: the sort is stable, so for a
    comparator that is a total preorder the result is the sorted
    permutation that keeps the order of equal elements.  [before x y] says
    that the comparator does not put [y] before [x]. *)
Fixpoint insertBy {A} (before : A -> A -> bool) (x : A) (l : list A) : list A :=
  match l with
  | [] => [x]
  | y :: l' => if before x y then x :: l else y :: insertBy before x l'
  end.
Definition sortBy {A} (before : A -> A -> bool) (l : list A) : list A :=
  fold_right (insertBy before) [] l.

(** [Array.from(new Set(l))]: the first occurrence of every element. *)
Fixpoint dedupe (seen l : list jsstring) : list jsstring :=
  match l with
  | [] => []
  | x :: l' =>
      if existsb (eqb x) seen then dedupe seen l' else x :: dedupe (x :: seen) l'
  end.

(** [words.slice(0, n).join(' ')] *)
Definition firstWords (n : nat) (words : list jsstring) : jsstring :=
  join (str " ") (firstn n words).

End Words.

Module Excerpt.

Import Words.

Record Scored : Type := mkScored {
  para : jsstring;
  score : Q;
  idx : nat
}.

Definition stopWords : list jsstring :=
  List.map str
    [ "chapter"; "section"; "words"; "word"; "write"; "with"; "this"; "that"; "from";
      "about"; "into" ]%string.

(** The key words of a section (l. 641-648): the words of more than three
    letters of the name and the outline, stop words apart. *)
Definition keywords (sectionName outlineForSection : jsstring) : list jsstring :=
  List.filter (fun w => negb (existsb (eqb w) stopWords))
    (List.filter (fun w => Nat.ltb 3 (length w))
       (split_ws
          (List.filter (fun c => is_lower c || is_space c)
             (toLowerCase (sectionName ++ str " " ++ outlineForSection))))).

(** The score of the paragraph at [idx]: two for every occurrence of a key
    word, and [1 / (idx + 1)].  The scores are exact rationals here.  Two
    paragraphs never have the same exact score; where two doubles coincide,
    the stable sort leaves the earlier paragraph first, which is the order
    of the exact scores. *)
Definition scoreOf (uniqueKeywords : list jsstring) (p : jsstring) (i : nat) : Q :=
  (fold_left (fun sc kw => sc + inject_Z (countSplit kw 0 (toLowerCase p) * 2))
     uniqueKeywords 0
   + 1 / inject_Z (Z.of_nat i + 1))%Q.

Fixpoint scoreAll (uniqueKeywords : list jsstring) (i : nat) (paragraphs : list jsstring)
  : list Scored :=
  match paragraphs with
  | [] => []
  | p :: rest => mkScored p (scoreOf uniqueKeywords p i) i :: scoreAll uniqueKeywords (S i) rest
  end.

(** The loop that takes paragraphs in the order of the scores until one
    does not fit (l. 668-673). *)
Fixpoint selectWithin (maxWords wordCount_ : Z) (items : list Scored) : list Scored :=
  match items with
  | [] => []
  | item :: rest =>
      let paraWords := countFields (para item) in
      if maxWords <? wordCount_ + paraWords then []
      else item :: selectWithin maxWords (wordCount_ + paraWords) rest
  end.

Definition byScore (a b : Scored) : bool := Qle_bool (score b) (score a).
Definition byIdx (a b : Scored) : bool := Nat.leb (idx a) (idx b).

Definition selectedParagraphs (sourceText sectionName outlineForSection : jsstring)
  (maxWords : Z) : list Scored :=
  let uniqueKeywords := dedupe [] (keywords sectionName outlineForSection) in
  let scored := scoreAll uniqueKeywords 0 (split_paragraphs sourceText) in
  sortBy byIdx (selectWithin maxWords 0 (sortBy byScore scored)).

(** [extractRelevantSourceExcerpt]; the caller passes 3000 for [maxWords],
    which is also the default. *)
Definition extractRelevantSourceExcerpt (sourceText sectionName outlineForSection : jsstring)
  (maxWords : Z) : jsstring :=
  if countFields sourceText <=? maxWords then sourceText
  else
    let excerpt :=
      join [lf; lf]
        (List.map para (selectedParagraphs sourceText sectionName outlineForSection maxWords)) in
    if nonempty excerpt then excerpt
    else substring0 (Z.to_nat (maxWords * 6)) sourceText.

End Excerpt.

Module KeyPoints.

Import Words.

(** [[.!?]] *)
Definition sentence_end (c : char) : bool := ((c =? 46) || (c =? 33) || (c =? 63))%N.

(** [w s?] under the [i] flag *)
Definition word_s (w : String.string) : regex := Seq (liti w) (opt (liti "s")).

(** [/\b(argues?|claims?|...|necessitates?)\b/i] *)
Definition claimLike : regex :=
  seqs [ WordB;
         Group 1
           (alts [ word_s "argue"; word_s "claim"; word_s "contend"; word_s "demonstrate";
                   word_s "show"; word_s "reveal"; word_s "suggest"; word_s "establishe";
                   word_s "prove"; word_s "maintain"; word_s "assert"; word_s "propose";
                   word_s "conclude"; liti "central"; liti "key"; liti "crucial";
                   liti "fundamental"; liti "essential"; liti "primary"; liti "core";
                   word_s "introduce"; word_s "define"; word_s "distinguishe";
                   liti "therefore"; liti "consequently"; word_s "necessitate" ]);
         WordB ].

(** [`[${sectionName}] ${sentence.trim().substring(0, 200)}`] *)
Definition point (sectionName sentence : jsstring) : jsstring :=
  str "[" ++ sectionName ++ str "] " ++ substring0 200 (trim sentence).

(** [sentence.trim().toLowerCase().replace(/\s+/g, ' ').substring(0, 60)] *)
Definition seenKey (sentence : jsstring) : jsstring :=
  substring0 60 (replace_all (plus ws) (str " ") (toLowerCase (trim sentence))).

(** The loop over the sentences (l. 1045-1056), with the set [seen] and the
    points found so far. *)
Fixpoint claimLoop (sectionName : jsstring) (sentences : list jsstring)
  (seen : gset jsstring) (points : list jsstring) : list jsstring :=
  match sentences with
  | [] => points
  | sentence :: rest =>
      if test claimLike sentence && negb (bool_decide (seenKey sentence ∈ seen)) then
        let points' := points ++ [point sectionName sentence] in
        if Nat.leb 8 (length points') then points'
        else claimLoop sectionName rest ({[ seenKey sentence ]} ∪ seen) points'
      else claimLoop sectionName rest seen points
  end.

Definition sentencesOf (sectionContent : jsstring) : list jsstring :=
  List.filter (fun s => Nat.ltb 30 (length (trim s))) (split_runs sentence_end sectionContent).

Definition extractKeyPoints (sectionContent sectionName : jsstring) : list jsstring :=
  let sentences := sentencesOf sectionContent in
  match claimLoop sectionName sentences ∅ [] with
  | [] => List.map (point sectionName) (firstn 3 sentences)
  | points => points
  end.

End KeyPoints.

Module Summary.

Import Words.

(** [/\b(introduces?|defines?|argues?|establishes?|distinguishes?|therefore|thus|this means|the key|crucial|demonstrates?)\b/i] *)
Definition summaryClaim : regex :=
  seqs [ WordB;
         Group 1
           (alts [ KeyPoints.word_s "introduce"; KeyPoints.word_s "define";
                   KeyPoints.word_s "argue"; KeyPoints.word_s "establishe";
                   KeyPoints.word_s "distinguishe"; liti "therefore"; liti "thus";
                   liti "this means"; liti "the key"; liti "crucial";
                   KeyPoints.word_s "demonstrate" ]);
         WordB ].

(** A paragraph of more than 100 words is cut to its first 100 words, with
    an ellipsis (l. 1083-1086). *)
Definition shorten (p : jsstring) : jsstring :=
  let pWords := split_ws (trim p) in
  if Nat.ltb 100 (length pWords) then firstWords 100 pWords ++ str "..." else p.

(** [paragraphs.slice(1, -1)] *)
Definition middle {A} (l : list A) : list A := removelast (tl l).

(** [generateSectionSummary]; the section name is not used by the source
    either.  The caller passes 400 for [maxWords]; the default is 300. *)
Definition generateSectionSummary (sectionContent : jsstring) (maxWords : Z) : jsstring :=
  if countFields sectionContent <=? maxWords then sectionContent
  else
    let paragraphs :=
      List.filter (fun p => Nat.ltb 50 (length (trim p))) (split_paragraphs sectionContent) in
    let firstPara := default [] (head paragraphs) in
    let lastPara := default [] (last paragraphs) in
    let claimParagraphs := firstn 2 (List.filter (test summaryClaim) (middle paragraphs)) in
    join [lf; lf] (List.map shorten ([firstPara] ++ claimParagraphs ++ [lastPara])).

End Summary.

Module Entry.

(** The patterns of [expansionKeywords] (l. 615-623). *)
Definition thesis_or_dissertation : regex := Alt (liti "THESIS") (liti "DISSERTATION").

Definition expansionKeywords : list regex :=
  [ (* /EXPAND\s*TO/i *)
    seqs [liti "EXPAND"; star ws; liti "TO"];
    (* /TURN\s*(?:THIS\s* )?INTO\s*(?:A\s* )?\d/i *)
    seqs [liti "TURN"; star ws; opt (Seq (liti "THIS") (star ws)); liti "INTO"; star ws;
          opt (Seq (liti "A") (star ws)); digit];
    (* /\d+\s*WORD\s*(?:THESIS|DISSERTATION|ESSAY)/i *)
    seqs [plus digit; star ws; liti "WORD"; star ws;
          alts [liti "THESIS"; liti "DISSERTATION"; liti "ESSAY"]];
    (* /MASTER'?S?\s*THESIS/i *)
    seqs [liti "MASTER"; opt (ch 39); opt (liti "S"); star ws; liti "THESIS"];
    (* /DOCTORAL\s*(?:THESIS|DISSERTATION)/i *)
    seqs [liti "DOCTORAL"; star ws; thesis_or_dissertation];
    (* /PHD\s*(?:THESIS|DISSERTATION)/i *)
    seqs [liti "PHD"; star ws; thesis_or_dissertation];
    (* /WRITE\s*(?:A\s* )?\d+\s*WORDS?/i *)
    seqs [liti "WRITE"; star ws; opt (Seq (liti "A") (star ws)); plus digit; star ws;
          liti "WORD"; opt (liti "S")] ].

(** [parsed.targetWordCount && parsed.targetWordCount > 0] *)
Definition positive (n : option jsnum) : bool :=
  match n with
  | Some (Int z) => 0 <? z
  | _ => false
  end.

(** [hasExpansionInstructions]: the answer and the state after the call.
    [None] is an argument left out. *)
Definition hasExpansionInstructions (customInstructions : option jsstring) (σ : State)
  : bool * State :=
  match customInstructions with
  | None => (false, σ)
  | Some [] => (false, σ)
  | Some s =>
      let (r, σ') := parseExpansionInstructions s σ in
      let parsed := deref σ' r in
      if positive (targetWordCount parsed) then (true, σ')
      else if Nat.ltb 0 (length (structure parsed)) then (true, σ')
      else (existsb (fun p => test p s) expansionKeywords, σ')
  end.

End Entry.

Module Chunks.

Import Words.

(** The loop [for (let i = 0; i < words.length; i += CHUNK_SIZE)
    chunks.push(words.slice(i, i + CHUNK_SIZE))] (l. 1191-1193), on the
    words from [i] on.  The counter bounds the number of passes; a pass
    takes at least one word when the size is positive. *)
Fixpoint slices {A} (fuel size : nat) (words : list A) : list (list A) :=
  match fuel with
  | O => []
  | S fuel' =>
      match words with
      | [] => []
      | _ :: _ => firstn size words :: slices fuel' size (skipn size words)
      end
  end.

Definition CHUNK_SIZE : nat := 50000.

(** The chunks of a source of more than 50,000 words. *)
Definition chunksOf (rawText : jsstring) : list jsstring :=
  let words := split_ws (trim rawText) in
  List.map (join (str " ")) (slices (length words) CHUNK_SIZE words).

(** The source handed to the skeleton extraction (l. 94-97) and the section
    text handed to the delta report (l. 248-251). *)
Definition truncationMark : jsstring :=
  [lf; lf] ++ str "[...truncated for skeleton extraction...]".

Definition truncatedSource (sourceText : jsstring) : jsstring :=
  if 15000 <? countFields sourceText
  then firstWords 15000 (split_ws (trim sourceText)) ++ truncationMark
  else sourceText.

Definition truncatedSection (sectionContent : jsstring) : jsstring :=
  if 4000 <? countFields sectionContent
  then firstWords 4000 (split_ws (trim sectionContent))
  else sectionContent.

End Chunks.

(** *** Notions used in the statements *)

(** The words of a text: the non-empty fields. *)
Definition wordsOf (s : jsstring) : list jsstring := List.filter nonempty (split_ws s).

(** A word: not empty, and without white space. *)
Definition is_word_text (w : jsstring) : bool :=
  nonempty w && forallb (fun c => negb (is_space c)) w.

(** The fields of some texts, counted one by one. *)
Definition totalFields (ps : list jsstring) : Z :=
  fold_right Z.add 0 (List.map countFields ps).

(** The matcher state [y] lies ahead of [x]: it is [x] after some code
    units have been passed (the captures may differ). *)
Definition ahead (x y : mstate) : Prop :=
  exists u, ms_rest x = u ++ ms_rest y /\ ms_pre y = rev u ++ ms_pre x.

(** [k] or [K] *)
Definition isK (c : char) : bool := (upper c =? 75)%N.

(** What [addSection] keeps of a structure: no two names that are equal
    when upper-cased, and only trimmed names. *)
Definition distinctNames (st : list SectionSpec) : Prop :=
  NoDup (List.map (fun s => toUpperCase (name s)) st)
  /\ Forall (fun s => trim (name s) = name s) st.

(** The answers to the first [n] requests of a section, as the loop of
    [generateSection] joins them. *)
Definition joinedAnswers (provider : nat -> Response) (n : nat) : jsstring :=
  join [lf; lf] (List.map (fun i => trim (text (provider i))) (seq 0 n)).

(** A section target that the loop of [generateSection] never works for:
    [NaN], zero or a negative number. *)
Definition no_target (target : jsnum) : bool :=
  match target with
  | NaN => true
  | Int t => t <=? 0
  end.

(** What a [section_complete] event tells of the progress: the index of
    the section, the number of sections, the words of the section and the
    running total. *)
Record Streamed : Type := mkStreamed {
  st_index : nat;
  st_total : nat;
  st_words : Z;
  st_running : Z
}.

Definition sectionEvents (evs : list StreamChunk) : list Streamed :=
  flat_map (fun ev => match ev with
                      | SectionComplete _ _ i total w c => [mkStreamed i total w c]
                      | _ => []
                      end) evs.

(** The section texts of the [section_complete] events. *)
Definition streamedTexts (evs : list StreamChunk) : list jsstring :=
  flat_map (fun ev => match ev with
                      | SectionComplete _ content _ _ _ _ => [content]
                      | _ => []
                      end) evs.

Definition isComplete (ev : StreamChunk) : bool :=
  match ev with Complete _ _ _ => true | _ => false end.

(** The sums of the first one, two, ... numbers of a list, from [c] on. *)
Fixpoint prefixSums (c : Z) (l : list Z) : list Z :=
  match l with
  | [] => []
  | x :: l' => (c + x) :: prefixSums (c + x) l'
  end.

(** What the loop over the sections [l], numbered from [i], streams when
    the count stands at [c]. *)
Fixpoint loopEvents (env : Env) (total i : nat) (l : list SectionSpec) (c : Z)
  : list Streamed :=
  match l with
  | [] => []
  | s :: l' =>
      mkStreamed i total (sectionWords env i s) (c + sectionWords env i s)
      :: loopEvents env total (S i) l' (c + sectionWords env i s)
  end.

(** Three line feeds in a row somewhere in the text. *)
Fixpoint blankRun (s : jsstring) : bool :=
  match s with
  | [] => false
  | a :: t =>
      match t with
      | b :: c :: _ => (a =? lf)%N && (b =? lf)%N && (c =? lf)%N
      | _ => false
      end
      || blankRun t
  end.

(** The text with every run of three line feeds or more cut down to two,
    when [n] line feeds stand directly before it. *)
Fixpoint squeeze (n : nat) (s : jsstring) : jsstring :=
  match s with
  | [] => []
  | c :: s' =>
      if (c =? lf)%N then (if (2 <=? n)%nat then squeeze n s' else c :: squeeze (S n) s')
      else c :: squeeze 0 s'
  end.

(** A line that the loop of [stripSkeletonMetadata] keeps as it is: no
    metadata line, no rule, no header with a word count. *)
Definition plainLine (line : jsstring) : bool :=
  negb (existsb (fun p => test p (trim line)) metadataPatterns)
  && negb (eqb (trim line) (str "---"))
  && match exec wordCountInHeader (trim line) with Some _ => false | None => true end.
(** ** Sanity checks of the model on small inputs *)

Example split_ws_fields : split_ws (str " a  b ") = [[]; str "a"; str "b"; []].
Proof. reflexivity. Qed.

Example toString_digits :
  toString 2000 = str "2000" /\ toString 0 = str "0" /\ toString (-4) = str "-4".
Proof. vm_compute. auto. Qed.

Example lazy_plus_is_shortest :
  option_map rm_text (exec (seqs [plus_lazy (Chr is_alpha); lit "b"]) (str "aabab"))
  = Some (str "aab").
Proof. vm_compute. reflexivity. Qed.

Example strip_header_annotation :
  stripSkeletonMetadata (str "## Scope (500 words)" ++ [lf] ++ str "Body text.")
  = str "## Scope" ++ [lf] ++ str "Body text.".
Proof. vm_compute. reflexivity. Qed.

Example replaceFirst_dollar :
  replaceFirst (str "a cost b") (str "cost") (str "$$5 $& x") = str "a $5 cost x b".
Proof. vm_compute. reflexivity. Qed.

(** ** The parse cache (C6) *)

Section Cache.


Lemma parse_records (s : jsstring) (σ : State) :
  parseCache (snd (parseExpansionInstructions s σ)) !! s
  = Some (fst (parseExpansionInstructions s σ)).
Proof.
  unfold parseExpansionInstructions.
  destruct (parseCache σ !! s) as [r|] eqn:E; simpl.
  - exact E.
  - apply lookup_insert_eq.
Qed.

Lemma parse_miss_deref (s : jsstring) (σ : State) :
  parseCache σ !! s = None ->
  deref (snd (parseExpansionInstructions s σ)) (fst (parseExpansionInstructions s σ))
  = parseFresh s.
Proof.
  intros H. unfold parseExpansionInstructions. rewrite H. simpl.
  unfold deref. simpl.
  rewrite lookup_app_r by lia.
  replace (length (heap σ) - length (heap σ))%nat with 0%nat by lia.
  reflexivity.
Qed.

End Cache.


(** ** The continuation loop of [generateSection] (C1, C2) *)

Section ContinuationLoop.

Variable target : jsnum.
Variable provider : nat -> Response.

Lemma body_attempts (st : Gen.LoopState) :
  Gen.continuationAttempts (Gen.body provider st) = S (Gen.continuationAttempts st).
Proof. reflexivity. Qed.

Lemma body_counts (st : Gen.LoopState) :
  Gen.currentWordCount (Gen.body provider st)
  = countWords (Gen.accumulatedContent (Gen.body provider st)).
Proof. reflexivity. Qed.

(** Running the loop for [n] more passes from a state with [a] attempts
    behind it, [a + n = 20], is running the [while] loop. *)
Lemma iterate_is_while (n : nat) (st : Gen.LoopState) :
  (Gen.continuationAttempts st + n = Gen.maxContinuationAttempts)%nat ->
  Gen.while_loop target provider st (Gen.iterate n target provider st).
Proof.
  revert st. induction n as [|n IH]; intros st Hn; simpl.
  - apply Gen.while_exit. unfold Gen.guard.
    replace (Gen.continuationAttempts st) with Gen.maxContinuationAttempts by lia.
    rewrite Nat.ltb_irrefl. apply andb_false_r.
  - destruct (Gen.guard target st) eqn:G.
    + apply Gen.while_iter; [exact G|]. apply IH. rewrite body_attempts. lia.
    + apply Gen.while_exit. exact G.
Qed.

Lemma iterate_attempts (n : nat) (st : Gen.LoopState) :
  (Gen.continuationAttempts st <= Gen.continuationAttempts (Gen.iterate n target provider st)
   <= Gen.continuationAttempts st + n)%nat.
Proof.
  revert st. induction n as [|n IH]; intros st; simpl; [lia|].
  destruct (Gen.guard target st); [|lia].
  specialize (IH (Gen.body provider st)). rewrite body_attempts in IH. lia.
Qed.

Lemma iterate_counts (n : nat) (st : Gen.LoopState) :
  Gen.currentWordCount st = countWords (Gen.accumulatedContent st) ->
  Gen.currentWordCount (Gen.iterate n target provider st)
  = countWords (Gen.accumulatedContent (Gen.iterate n target provider st)).
Proof.
  revert st. induction n as [|n IH]; intros st H; simpl; [exact H|].
  destruct (Gen.guard target st); [|exact H].
  apply IH. apply body_counts.
Qed.

(** The [while] loop is deterministic: it has one final state. *)
Lemma while_loop_functional (st a b : Gen.LoopState) :
  Gen.while_loop target provider st a -> Gen.while_loop target provider st b -> a = b.
Proof.
  intros Ha. revert b. induction Ha as [st G | st st' G _ IH]; intros b Hb.
  - inversion Hb; subst; [reflexivity | congruence].
  - inversion Hb; subst; [congruence | apply IH; assumption].
Qed.

Lemma while_loop_guard (st st' : Gen.LoopState) :
  Gen.while_loop target provider st st' -> Gen.guard target st' = false.
Proof. induction 1; assumption. Qed.

End ContinuationLoop.

(** The stop reasons play no part in the loop: two providers that return
    the same texts drive it through the same states. *)
Lemma iterate_ignores_stop_reason (n : nat) (target : jsnum) (p q : nat -> Response)
  (st : Gen.LoopState) :
  (forall i, text (p i) = text (q i)) ->
  Gen.iterate n target p st = Gen.iterate n target q st.
Proof.
  intros H. revert st. induction n as [|n IH]; intros st; simpl; [reflexivity|].
  destruct (Gen.guard target st); [|reflexivity].
  unfold Gen.body. rewrite H. apply IH.
Qed.

(** C1, as amended.  For every integer section target [t] and every
    provider, the continuation loop of [generateSection] terminates: the
    [while] loop started in the initial state ends in the state reached
    after at most 20 passes, each pass being one request.  In that state the
    word count of the accumulated text is at least 0.95 t, or 20 requests
    were made; the text returned is this accumulated text after the removal
    of metadata lines. *)
Theorem generateSection_terminates (t : Z) (provider : nat -> Response) :
  let final := Gen.iterate Gen.maxContinuationAttempts (Int t) provider Gen.initial in
  Gen.while_loop (Int t) provider Gen.initial final
  /\ (Gen.continuationAttempts final <= 20)%nat
  /\ Gen.currentWordCount final = countWords (Gen.accumulatedContent final)
  /\ (19 * t <= 20 * countWords (Gen.accumulatedContent final)
      \/ Gen.continuationAttempts final = 20%nat)
  /\ Gen.generateSection (Int t) provider
     = stripSkeletonMetadata (Gen.accumulatedContent final).
Proof.
  intros final.
  assert (W : Gen.while_loop (Int t) provider Gen.initial final).
  { apply iterate_is_while. reflexivity. }
  assert (A := iterate_attempts (Int t) provider Gen.maxContinuationAttempts Gen.initial).
  assert (C : Gen.currentWordCount final = countWords (Gen.accumulatedContent final)).
  { apply iterate_counts. reflexivity. }
  fold final in A. simpl in A.
  repeat split; try assumption; try (unfold Gen.maxContinuationAttempts in A; lia).
  apply while_loop_guard in W. unfold Gen.guard in W.
  apply andb_false_iff in W. destruct W as [W|W].
  - left. rewrite <- C. simpl in W. apply Z.ltb_ge in W. lia.
  - right. apply Nat.ltb_ge in W. unfold Gen.maxContinuationAttempts in *. lia.
Qed.

(** C1, as stated, fails: with target 10 a first answer of ten words, all on
    a line that starts with the marker [KEY POINTS:], ends the loop after
    one request, and the text returned has no word left. *)
Lemma generateSection_returned_text_short :
  let provider := fun _ : nat => mkResponse (str "KEY POINTS: a b c d e f g h") end_turn in
  let final := Gen.iterate Gen.maxContinuationAttempts (Int 10) provider Gen.initial in
  Gen.continuationAttempts final = 1%nat
  /\ countWords (Gen.accumulatedContent final) = 10
  /\ Gen.generateSection (Int 10) provider = []
  /\ ~ (19 * 10 <= 20 * countWords (Gen.generateSection (Int 10) provider)
        \/ Gen.continuationAttempts final = 20%nat).
Proof.
  vm_compute. repeat split; try reflexivity.
  intros [H|H]; [apply H; reflexivity | discriminate H].
Qed.

(** C2 fails on the code.  With target 10, a first answer of ten words that
    the provider cut off ([max_tokens]) is the last one: the loop ends after
    this one request. *)
Theorem truncated_answer_not_continued :
  let provider := fun _ : nat =>
    mkResponse (str "one two three four five six seven eight nine ten") max_tokens in
  let final := Gen.iterate Gen.maxContinuationAttempts (Int 10) provider Gen.initial in
  stop_reason (provider 0%nat) = max_tokens
  /\ Gen.while_loop (Int 10) provider Gen.initial final
  /\ Gen.continuationAttempts final = 1%nat
  /\ Gen.generateSection (Int 10) provider
     = str "one two three four five six seven eight nine ten".
Proof.
  intros provider final. split; [reflexivity|]. split.
  - apply iterate_is_while. reflexivity.
  - vm_compute. split; reflexivity.
Qed.

(** ** Structure allocation (C3) *)

Section Allocation.

Lemma round_frac_exact (t num den v : Z) :
  0 < den -> t * num = v * den -> round_frac t num den = v.
Proof.
  intros Hden H. unfold round_frac.
  replace (2 * t * num + den) with (v * (2 * den) + den) by lia.
  rewrite Z.div_add_l by lia. rewrite Z.div_small by lia. lia.
Qed.

Lemma round_div_positive (r n : Z) : 0 < n -> n <= 2 * r -> 1 <= round_div r n.
Proof.
  intros Hn H. unfold round_div, round_frac.
  apply Z.div_le_lower_bound; lia.
Qed.

Lemma large_counts (T : Z) :
  exists a i c w,
    List.map wordCount (largeStructure T)
    = [Int a; Int i; Int w; Int w; Int w; Int w; Int w; Int w; Int w; Int w; Int w;
       Int w; Int w; Int (T - (a + i + c) - 11 * w); Int c].
Proof.
  exists (round_frac T 1 100), (round_frac T 5 100), (round_frac T 4 100),
    (round_div (T - (round_frac T 1 100 + round_frac T 5 100 + round_frac T 4 100)) 12).
  set (a := round_frac T 1 100). set (i := round_frac T 5 100).
  set (c := round_frac T 4 100). set (w := round_div (T - (a + i + c)) 12).
  replace (T - (a + i + c) - 11 * w) with (T - (a + i + c) - w * (12 - 1)) by lia.
  reflexivity.
Qed.

Lemma large_total (T : Z) : totalWords (largeStructure T) = Int T.
Proof.
  unfold largeStructure, totalWords, sec.
  cbv [fold_left jsadd wordCount].
  f_equal. lia.
Qed.

Lemma standard_total (T : Z) : (200 | T) -> totalWords (standardStructure T) = Int T.
Proof.
  intros [q ->]. unfold standardStructure, totalWords, sec.
  cbv [fold_left jsadd wordCount].
  rewrite (round_frac_exact (q * 200) 15 1000 (3 * q)) by lia.
  rewrite (round_frac_exact (q * 200) 10 100 (20 * q)) by lia.
  rewrite (round_frac_exact (q * 200) 20 100 (40 * q)) by lia.
  rewrite (round_frac_exact (q * 200) 175 1000 (35 * q)) by lia.
  rewrite (round_frac_exact (q * 200) 6 100 (12 * q)) by lia.
  f_equal. lia.
Qed.

Lemma fold_NaN (st : list SectionSpec) :
  fold_left (fun sum s => jsadd sum (wordCount s)) st NaN = NaN.
Proof. induction st as [|s st IH]; simpl; [reflexivity | exact IH]. Qed.

Lemma fold_give (per : Z) (st : list SectionSpec) (a b E : Z) :
  fold_left (fun sum s => jsadd sum (wordCount s)) st (Int a) = Int E ->
  fold_left (fun sum s => jsadd sum (wordCount s)) (List.map (give per) st) (Int b)
  = Int (E - a + b + per * Z.of_nat (length (without_count st))).
Proof.
  revert a b. induction st as [|s st IH]; intros a b H.
  - simpl in *. injection H as <-. f_equal. lia.
  - cbn [List.map fold_left] in *.
    destruct (wordCount s) as [|z] eqn:W.
    + simpl in H. rewrite fold_NaN in H. discriminate.
    + unfold give at 2, without_count. cbn [List.filter]. rewrite W.
      destruct (is_zero (Int z)) eqn:Z0.
      * assert (z = 0) as -> by (destruct z; simpl in Z0; congruence).
        cbn [wordCount jsadd length]. fold (without_count st).
        rewrite (IH _ (b + per) H). f_equal. lia.
      * rewrite W. cbn [jsadd]. fold (without_count st).
        rewrite (IH _ (b + z) H). f_equal. lia.
Qed.

Lemma give_nonzero (per : Z) (st : list SectionSpec) :
  per <> 0 -> Forall (fun s => is_zero (wordCount s) = false) (List.map (give per) st).
Proof.
  intros Hper. induction st as [|s st IH]; simpl; constructor; [|exact IH].
  unfold give. destruct (is_zero (wordCount s)) eqn:Z; simpl; [|exact Z].
  destruct per; [contradiction | reflexivity | reflexivity].
Qed.

Lemma distribute_gives (T E : Z) (st : list SectionSpec) :
  totalWords st = Int E -> E < T -> (0 < length (without_count st))%nat ->
  distribute T st
  = List.map (give (round_div (T - E) (Z.of_nat (length (without_count st))))) st.
Proof.
  intros HE HT Hk. unfold distribute. rewrite HE.
  fold (without_count st).
  replace (0 <? Z.of_nat (length (without_count st))) with true
    by (symmetry; apply Z.ltb_lt; lia).
  replace (E <? T) with true by (symmetry; apply Z.ltb_lt; lia).
  reflexivity.
Qed.

Lemma distribute_unchanged (T E : Z) (st : list SectionSpec) :
  totalWords st = Int E -> T <= E \/ without_count st = [] -> distribute T st = st.
Proof.
  intros HE H. unfold distribute. rewrite HE. fold (without_count st).
  destruct H as [H|H].
  - replace (E <? T) with false by (symmetry; apply Z.ltb_ge; lia).
    rewrite andb_false_r. reflexivity.
  - rewrite H. reflexivity.
Qed.

End Allocation.

(** C3, as amended.  (1) For a target of 50,000 or more the synthesized
    table sums to the target exactly: the last body section receives what
    the three fixed sections and the eleven equal body sections leave.
    (2) For a smaller target that is a multiple of 200 the standard table
    sums to the target.  (3) For a user-specified structure whose counts sum to
    [E], with [k > 0] sections at 0 and a target [T > E], each of the [k]
    sections receives [round ((T - E) / k)]: the sum becomes
    [E + k * round ((T - E) / k)], which is [T] when [k] divides [T - E], and
    no section stays at 0 when [k <= 2 (T - E)].  With [T <= E] or no section
    at 0 the structure is left as it is. *)
Theorem allocation_sums (T E : Z) (st : list SectionSpec) :
  (50000 <= T ->
     totalWords (synthesizedStructure T) = Int T
     /\ exists a i c w,
          List.map wordCount (synthesizedStructure T)
          = [Int a; Int i; Int w; Int w; Int w; Int w; Int w; Int w; Int w; Int w;
             Int w; Int w; Int w; Int (T - (a + i + c) - 11 * w); Int c])
  /\ (T < 50000 -> (200 | T) -> totalWords (synthesizedStructure T) = Int T)
  /\ (totalWords st = Int E ->
      let k := Z.of_nat (length (List.filter (fun s => is_zero (wordCount s)) st)) in
      (0 < k -> E < T ->
         totalWords (distribute T st) = Int (E + k * round_div (T - E) k)
         /\ ((k | T - E) -> totalWords (distribute T st) = Int T)
         /\ (k <= 2 * (T - E) ->
             Forall (fun s => is_zero (wordCount s) = false) (distribute T st)))
      /\ (k = 0 \/ T <= E -> distribute T st = st)).
Proof.
  split; [|split].
  - intros HT. unfold synthesizedStructure.
    replace (50000 <=? T) with true by (symmetry; apply Z.leb_le; lia).
    split; [apply large_total | apply large_counts].
  - intros HT Hdiv. unfold synthesizedStructure.
    replace (50000 <=? T) with false by (symmetry; apply Z.leb_gt; lia).
    apply standard_total, Hdiv.
  - intros HE k. fold (without_count st) in k. split.
    + intros Hk HT.
      assert (Hk' : (0 < length (without_count st))%nat) by (subst k; lia).
      rewrite (distribute_gives T E st HE HT Hk'). fold k.
      assert (Hsum : totalWords (List.map (give (round_div (T - E) k)) st)
                     = Int (E + k * round_div (T - E) k)).
      { unfold totalWords. rewrite (fold_give _ st 0 0 E HE). f_equal. subst k. lia. }
      split; [exact Hsum|]. split.
      * intros [q Hq]. rewrite Hsum. f_equal.
        unfold round_div. rewrite (round_frac_exact (T - E) 1 k q) by lia. lia.
      * intros Hle. apply give_nonzero.
        pose proof (round_div_positive (T - E) k Hk Hle). lia.
    + intros H. apply (distribute_unchanged T E st HE).
      destruct H as [H|H]; [right | left; exact H].
      subst k. destruct (without_count st); [reflexivity | simpl in H; lia].
Qed.

Lemma allocation_sums_witness :
  totalWords (synthesizedStructure 60000) = Int 60000
  /\ totalWords (synthesizedStructure 5000) = Int 5000
  /\ totalWords (distribute 1000 [mkSection (str "A") (Int 400); mkSection (str "B") (Int 0);
                                  mkSection (str "C") (Int 0)]) = Int 1000
  /\ Forall (fun s => is_zero (wordCount s) = false)
       (distribute 1000 [mkSection (str "A") (Int 400); mkSection (str "B") (Int 0);
                         mkSection (str "C") (Int 0)])
  /\ distribute 300 [mkSection (str "A") (Int 400); mkSection (str "B") (Int 0)]
     = [mkSection (str "A") (Int 400); mkSection (str "B") (Int 0)].
Proof.
  split; [|split; [|split; [|split]]].
  - destruct (allocation_sums 60000 0 []) as [H _]. apply H. lia.
  - destruct (allocation_sums 5000 0 []) as (_ & H & _).
    apply H; [lia | exists 25; lia].
  - destruct (allocation_sums 1000 400
                [mkSection (str "A") (Int 400); mkSection (str "B") (Int 0);
                 mkSection (str "C") (Int 0)]) as (_ & _ & H).
    destruct (H eq_refl) as [H1 _]. simpl in H1.
    destruct H1 as (_ & H2 & _); [lia | lia |].
    apply H2. exists 300. lia.
  - destruct (allocation_sums 1000 400
                [mkSection (str "A") (Int 400); mkSection (str "B") (Int 0);
                 mkSection (str "C") (Int 0)]) as (_ & _ & H).
    destruct (H eq_refl) as [H1 _]. simpl in H1.
    destruct H1 as (_ & _ & H3); [lia | lia |].
    apply H3. lia.
  - destruct (allocation_sums 300 400
                [mkSection (str "A") (Int 400); mkSection (str "B") (Int 0)]) as (_ & _ & H).
    destruct (H eq_refl) as [_ H4]. apply H4. right. lia.
Defined.

(** C3, as stated, fails: for the target 10 the standard table allots
    0 + 1 + 2 + 2 + 2 + 2 + 1 + 1 = 11 words. *)
Lemma standard_table_sum_differs :
  List.map wordCount (synthesizedStructure 10)
  = [Int 0; Int 1; Int 2; Int 2; Int 2; Int 2; Int 1; Int 1]
  /\ totalWords (synthesizedStructure 10) <> Int 10.
Proof. vm_compute. split; [reflexivity | discriminate]. Qed.

(** ** The loop over the sections (C8, C9) *)

Section SectionLoop.

Variable env : Env.
Variable req : ExpansionRequest.
Variable limit : Z.
Hypothesis ceiling : truthy (maxWords req) = Some limit.
Hypothesis listening : onChunk req = true.



End SectionLoop.



(** C9 fails on the code.  A job with the instructions
    [EXPAND TO 5000 WORDS] gets the standard table of eight sections;
    capped at one word, it stops after the first section.  The result has
    one section and one [section_complete] event, and reports eight sections
    generated. *)
Theorem sectionsGenerated_counts_planned_sections :
  let '(result, evs, _) := universalExpand quietEnv cappedRequest initialState in
  sectionsGenerated result = 8%nat
  /\ length (List.filter isSectionComplete evs) = 1%nat
  /\ expandedText result
     = str "ABSTRACT" ++ [lf; lf] ++ join [lf; lf] (repeat (str "word") 20).
Proof. vm_compute. repeat split. Qed.

(** ** Mutation of the cached object (C7) *)

Lemma universalExpand_state (env : Env) (req : ExpansionRequest) (σ : State) :
  snd (universalExpand env req σ)
  = let rawWordCount := countFields (req_text req) in
    let text_ := if 50000 <? rawWordCount then tieredSource env else req_text req in
    let p := parseExpansionInstructions (customInstructions req) σ in
    snd (planStructure (fst p) (planTarget (deref (snd p) (fst p)) req (countFields text_))
           (snd p)).
Proof.
  unfold universalExpand. simpl.
  destruct (parseExpansionInstructions (customInstructions req) σ) as [r σ1]. simpl.
  destruct (planStructure r _ σ1) as [st σ2]. reflexivity.
Qed.

(** C7 fails on the code.  The instructions name two chapters without word
    counts; a first parse returns an object whose sections have the count
    0.  A job with these instructions and a target of 1000 words, whatever
    its collaborators answer, writes 500 into both sections of that object,
    and a later parse of the same instructions returns the same object with
    the counts 500. *)
Theorem cached_structure_mutated (env : Env) :
  let first := parseExpansionInstructions twoChapters initialState in
  let after_job := snd (universalExpand env twoChaptersRequest (snd first)) in
  let second := parseExpansionInstructions twoChapters after_job in
  structure (deref (snd first) (fst first))
  = [mkSection (str "CHAPTER 1: Intro") (Int 0); mkSection (str "CHAPTER 2: Methods") (Int 0)]
  /\ fst second = fst first
  /\ structure (deref (snd second) (fst second))
     = [mkSection (str "CHAPTER 1: Intro") (Int 500);
        mkSection (str "CHAPTER 2: Methods") (Int 500)].
Proof.
  intros first after_job second.
  subst second after_job. rewrite universalExpand_state.
  vm_compute. repeat split.
Qed.

(** ** Roman-numeral chapters (C10) *)

Example standardRoman_samples :
  standardRoman 4 = str "IV" /\ standardRoman 1994 = str "MCMXCIV"
  /\ standardRoman 3888 = str "MMMDCCCLXXXVIII".
Proof. vm_compute. auto. Qed.





(** What the section patterns find in the instruction text: the first one
    the title alone, the second one the whole chapter heading. *)
Example roman_other_matchers :
  List.map (fun p => List.map (fun mt => trim (cap 1 (rm_caps mt))) (exec_all p romanInstruction))
    sectionPatterns
  = [[str "Methods"]; [str "CHAPTER IV: Methods"]; []; []]
  /\ List.map (fun p => length (exec_all p romanInstruction)) romanChapterPatterns = [1; 0]%nat
  /\ List.map (fun p => length (exec_all p romanInstruction)) chapterPatterns = [0; 0; 0; 0]%nat
  /\ exec_all abbreviationPattern romanInstruction = []
  /\ exec_all chapterNoWordPattern romanInstruction = [].
Proof. vm_compute. repeat split. Qed.

(** C10.  Parsing [CHAPTER IV: Methods (2,000 words)], when the cache has
    no entry for it, gives a structure of exactly one section, named
    [CHAPTER 4: Methods], with the word count 2000; the numeral [IV] is
    converted to [4]. *)
Theorem roman_chapter_parsed (σ : State) :
  parseCache σ !! romanInstruction = None ->
  let p := parseExpansionInstructions romanInstruction σ in
  structure (deref (snd p) (fst p)) = [mkSection (str "CHAPTER 4: Methods") (Int 2000)]
  /\ romanToArabic (str "IV") = str "4".
Proof.
  intros Hmiss p. subst p. rewrite (parse_miss_deref _ _ Hmiss).
  vm_compute. split; reflexivity.
Qed.

Lemma roman_chapter_parsed_witness :
  parseCache initialState !! romanInstruction = None
  /\ structure (deref (snd (parseExpansionInstructions romanInstruction initialState))
                  (fst (parseExpansionInstructions romanInstruction initialState)))
     = [mkSection (str "CHAPTER 4: Methods") (Int 2000)].
Proof.
  split; [reflexivity|].
  apply (roman_chapter_parsed initialState). reflexivity.
Defined.

(** ** Stitch repair (C5) *)

Section StitchRepair.



Lemma includes_head (s p : jsstring) : startsWith s p = true -> includes s p = true.
Proof. intros H. destruct s; simpl; rewrite H; reflexivity. Qed.









End StitchRepair.




(** ** The matcher on runs of characters *)

Section MatcherLemmas.

Lemma m_chr_stop (p : char -> bool) (k : mstate -> option mstate)
  (pre rest : jsstring) (caps : list (nat * jsstring)) :
  stops p rest -> m (Chr p) k (MS pre rest caps) = None.
Proof. intros H. destruct rest as [|c rest]; simpl in *; [reflexivity | rewrite H; reflexivity]. Qed.

Lemma m_chr_ok (p : char -> bool) (k : mstate -> option mstate)
  (pre rest : jsstring) (caps : list (nat * jsstring)) (c : char) :
  p c = true -> m (Chr p) k (MS pre (c :: rest) caps) = k (MS (c :: pre) rest caps).
Proof. intros H. simpl. rewrite H. reflexivity. Qed.

Lemma m_rep (lo : nat) (hi : option nat) (greedy : bool) (r : regex)
  (k : mstate -> option mstate) (st : mstate) :
  m (Rep lo hi greedy r) k st
  = rep (m r) k greedy (lo + length (ms_rest st) + 1)%nat lo hi st.
Proof. reflexivity. Qed.

Lemma rep_S (mr : (mstate -> option mstate) -> mstate -> option mstate)
  (k : mstate -> option mstate) (greedy : bool) (fuel lo : nat) (hi : option nat)
  (x : mstate) :
  rep mr k greedy (S fuel) lo hi x
  = if hi_is_zero hi then k x
    else
      let d := fun y : mstate =>
        if Nat.eqb lo 0 && Nat.eqb (length (ms_rest y)) (length (ms_rest x))
        then None
        else rep mr k greedy fuel (Nat.pred lo) (dec_hi hi) y in
      if negb (Nat.eqb lo 0) then mr d x
      else if greedy then orElse (mr d x) (fun _ => k x)
      else orElse (k x) (fun _ => mr d x).
Proof. reflexivity. Qed.

(** A greedy repetition of a class, past its minimum, takes the whole run
    when the continuation accepts what follows the run. *)
Lemma rep_class_run (p : char -> bool) (k : mstate -> option mstate) (y : mstate)
  (tail : jsstring) (caps : list (nat * jsstring)) (run : jsstring) :
  forall (fuel : nat) (pre : jsstring),
    (length (run ++ tail) < fuel)%nat ->
    forallb p run = true ->
    stops p tail ->
    k (MS (rev run ++ pre) tail caps) = Some y ->
    rep (m (Chr p)) k true fuel 0 None (MS pre (run ++ tail) caps) = Some y.
Proof.
  induction run as [|c run IH]; intros fuel pre Hfuel Hrun Hstop Hk.
  - destruct fuel as [|fuel]; [simpl in Hfuel; lia|].
    rewrite rep_S. cbn [hi_is_zero Nat.eqb negb app]. cbv zeta.
    rewrite (m_chr_stop _ _ _ _ _ Hstop).
    cbn [orElse]. exact Hk.
  - destruct fuel as [|fuel]; [simpl in Hfuel; lia|].
    cbn [forallb] in Hrun. apply andb_true_iff in Hrun. destruct Hrun as [Hc Hrun].
    rewrite rep_S. cbn [hi_is_zero Nat.eqb negb app]. cbv zeta.
    rewrite (m_chr_ok _ _ _ _ _ _ Hc).
    cbn [andb length ms_rest].
    replace (Nat.eqb (length (run ++ tail)) (S (length (run ++ tail)))) with false
      by (symmetry; apply Nat.eqb_neq; lia).
    cbn [dec_hi Nat.pred]. rewrite (IH fuel (c :: pre)).
    + reflexivity.
    + simpl in Hfuel. lia.
    + exact Hrun.
    + exact Hstop.
    + cbn [rev] in Hk. rewrite <- app_assoc in Hk. exact Hk.
Qed.

Lemma star_class_run (p : char -> bool) (k : mstate -> option mstate) (y : mstate)
  (run tail pre : jsstring) (caps : list (nat * jsstring)) :
  forallb p run = true ->
  stops p tail ->
  k (MS (rev run ++ pre) tail caps) = Some y ->
  m (star (Chr p)) k (MS pre (run ++ tail) caps) = Some y.
Proof.
  intros Hrun Hstop Hk. unfold star. rewrite m_rep. cbn [ms_rest].
  apply rep_class_run; try assumption. lia.
Qed.

Lemma plus_class_run (p : char -> bool) (k : mstate -> option mstate) (y : mstate)
  (run tail pre : jsstring) (caps : list (nat * jsstring)) :
  run <> [] ->
  forallb p run = true ->
  stops p tail ->
  k (MS (rev run ++ pre) tail caps) = Some y ->
  m (plus (Chr p)) k (MS pre (run ++ tail) caps) = Some y.
Proof.
  intros Hne Hrun Hstop Hk. destruct run as [|c run]; [contradiction|].
  cbn [forallb] in Hrun. apply andb_true_iff in Hrun. destruct Hrun as [Hc Hrun].
  unfold plus. rewrite m_rep.
  cbn [ms_rest app length Nat.add]. rewrite rep_S.
  cbn [hi_is_zero Nat.eqb negb]. cbv zeta.
  rewrite (m_chr_ok _ _ _ _ _ _ Hc). cbn [andb dec_hi Nat.pred].
  apply rep_class_run; try assumption.
  - lia.
  - cbn [rev] in Hk. rewrite <- app_assoc in Hk. exact Hk.
Qed.



(** *** The counter of the repetition is never used up *)

Lemma rep_local (mr : (mstate -> option mstate) -> mstate -> option mstate)
  (greedy : bool) :
  local_matcher mr ->
  forall (fuel fuel' lo : nat) (hi : option nat) (k k' : mstate -> option mstate)
         (x : mstate),
    (lo + length (ms_rest x) < fuel)%nat ->
    (lo + length (ms_rest x) < fuel')%nat ->
    (forall y, (length (ms_rest y) <= length (ms_rest x))%nat -> k y = k' y) ->
    rep mr k greedy fuel lo hi x = rep mr k' greedy fuel' lo hi x.
Proof.
  intros Hmr. induction fuel as [|fuel IH]; intros fuel' lo hi k k' x Hf Hf' Hk; [lia|].
  destruct fuel' as [|fuel']; [lia|].
  rewrite !rep_S. cbv zeta.
  assert (Hx : k x = k' x) by (apply Hk; lia).
  assert (Hd : mr (fun y : mstate =>
                     if Nat.eqb lo 0 && Nat.eqb (length (ms_rest y)) (length (ms_rest x))
                     then None
                     else rep mr k greedy fuel (Nat.pred lo) (dec_hi hi) y) x
               = mr (fun y : mstate =>
                     if Nat.eqb lo 0 && Nat.eqb (length (ms_rest y)) (length (ms_rest x))
                     then None
                     else rep mr k' greedy fuel' (Nat.pred lo) (dec_hi hi) y) x).
  { apply Hmr. intros y Hy.
    destruct (Nat.eqb lo 0 && Nat.eqb (length (ms_rest y)) (length (ms_rest x))) eqn:E;
      [reflexivity|].
    assert (Hlt : (Nat.pred lo + length (ms_rest y) < lo + length (ms_rest x))%nat).
    { apply andb_false_iff in E. destruct E as [E|E].
      - apply Nat.eqb_neq in E. lia.
      - apply Nat.eqb_neq in E. lia. }
    apply IH; [lia | lia |]. intros z Hz. apply Hk. lia. }
  rewrite Hd, Hx. reflexivity.
Qed.

Lemma m_local (r : regex) : local_matcher (m r).
Proof.
  induction r as [|p|a IHa b IHb|a IHa b IHb|lo hi greedy r IHr|n r IHr|ml|ml|];
    intros d d' x H.
  - apply H. lia.
  - cbn [m]. destruct (ms_rest x) as [|c rest] eqn:E; [reflexivity|].
    destruct (p c); [|reflexivity]. apply H. cbn [ms_rest]. simpl. lia.
  - cbn [m]. apply IHa. intros y Hy. apply IHb. intros z Hz. apply H. lia.
  - cbn [m]. rewrite (IHa d d' x H), (IHb d d' x H). reflexivity.
  - rewrite !m_rep. apply (rep_local _ _ IHr); [lia | lia | exact H].
  - cbn [m]. apply IHr. intros y Hy. apply H. exact Hy.
  - cbn [m]. rewrite (H x) by lia. reflexivity.
  - cbn [m]. rewrite (H x) by lia. reflexivity.
  - cbn [m]. rewrite (H x) by lia. reflexivity.
Qed.

(** A larger counter gives the same result: the counter with which [m]
    starts a repetition cuts no match short. *)
Lemma rep_counter_enough (r : regex) (k : mstate -> option mstate) (greedy : bool)
  (lo : nat) (hi : option nat) (x : mstate) (extra : nat) :
  rep (m r) k greedy (lo + length (ms_rest x) + 1 + extra) lo hi x
  = m (Rep lo hi greedy r) k x.
Proof.
  rewrite m_rep. apply (rep_local _ _ (m_local r)); [lia | lia | reflexivity].
Qed.

End MatcherLemmas.

(** ** The clause [EXPAND TO N WORDS] (C4) *)

Section ExpandClause.

Lemma m_seq (a b : regex) (k : mstate -> option mstate) (st : mstate) :
  m (Seq a b) k st = m a (m b k) st.
Proof. reflexivity. Qed.

Lemma m_group (n : nat) (r : regex) (k : mstate -> option mstate) (st : mstate) :
  m (Group n r) k st
  = m r (fun y =>
           k (MS (ms_pre y) (ms_rest y)
                ((n, firstn (length (ms_rest st) - length (ms_rest y)) (ms_rest st))
                 :: ms_caps y))) st.
Proof. reflexivity. Qed.

(** A literal under the [i] flag matches a text that differs from it in
    case only. *)
Lemma chis_match (w : jsstring) :
  w <> [] ->
  forall (w' : jsstring) (k : mstate -> option mstate) (pre rest : jsstring)
         (caps : list (nat * jsstring)),
    List.map upper w' = List.map upper w ->
    m (seqs (List.map chi w)) k (MS pre (w' ++ rest) caps)
    = k (MS (rev w' ++ pre) rest caps).
Proof.
  induction w as [|c w IH]; intros Hne w' k pre rest caps Hup; [contradiction|].
  destruct w' as [|c' w']; [discriminate|].
  cbn [List.map] in Hup. injection Hup as Hc Hw.
  assert (Hchi : (fun x : char => (upper x =? upper c)%N) c' = true)
    by (cbv beta; rewrite Hc; apply N.eqb_refl).
  destruct w as [|c2 w].
  - destruct w'; [|discriminate]. cbn [List.map seqs app rev].
    unfold chi. rewrite (m_chr_ok _ _ _ _ _ _ Hchi). reflexivity.
  - cbn [List.map seqs]. rewrite m_seq. cbn [app]. unfold chi at 1.
    rewrite (m_chr_ok _ _ _ _ _ _ Hchi).
    change (seqs (chi c2 :: List.map chi w)) with (seqs (List.map chi (c2 :: w))).
    rewrite (IH ltac:(discriminate) w' _ _ _ _ Hw).
    cbn [rev]. rewrite <- app_assoc. reflexivity.
Qed.


Lemma search_from_hit (fuel : nat) (r : regex) (st : mstate) (res : rmatch) :
  match_at r st = Some res -> search_from fuel r st = Some res.
Proof. intros H. destruct fuel; simpl; rewrite H; reflexivity. Qed.

Lemma search_from_miss (fuel : nat) (r : regex) (pre rest : jsstring) (c : char)
  (caps : list (nat * jsstring)) :
  match_at r (MS pre (c :: rest) caps) = None ->
  search_from (S fuel) r (MS pre (c :: rest) caps) = search_from fuel r (MS (c :: pre) rest []).
Proof. intros H. simpl. rewrite H. reflexivity. Qed.

Lemma match_at_none (r : regex) (st : mstate) :
  m r (fun y => Some y) (MS (ms_pre st) (ms_rest st) []) = None -> match_at r st = None.
Proof. intros H. unfold match_at. rewrite H. reflexivity. Qed.


End ExpandClause.

Section ExpandClauseMatch.

Lemma is_digit_range (c : char) : is_digit c = true -> (48 <= c <= 57)%N.
Proof.
  unfold is_digit. intros H. apply andb_true_iff in H. destruct H as [H1 H2].
  apply N.leb_le in H1. apply N.leb_le in H2. lia.
Qed.





Lemma remove_commas_digits (ds : jsstring) :
  forallb is_digit ds = true -> remove_commas ds = ds.
Proof.
  induction ds as [|c ds IH]; intros H; [reflexivity|].
  cbn [forallb] in H. apply andb_true_iff in H. destruct H as [Hc H].
  unfold remove_commas in *. cbn [List.filter].
  apply is_digit_range in Hc.
  replace (c =? 44)%N with false by (symmetry; apply N.eqb_neq; lia).
  cbn [negb]. rewrite (IH H). reflexivity.
Qed.

Lemma take_digits_all (ds : jsstring) :
  forallb is_digit ds = true -> take_digits ds = (ds, []).
Proof.
  induction ds as [|c ds IH]; intros H; [reflexivity|].
  cbn [forallb] in H. apply andb_true_iff in H. destruct H as [Hc H].
  cbn [take_digits]. rewrite Hc, (IH H). reflexivity.
Qed.

Lemma firstn_app_sub {A} (a b : list A) :
  firstn (length (a ++ b) - length b) (a ++ b) = a.
Proof.
  rewrite length_app. replace (length a + length b - length b)%nat with (length a) by lia.
  apply take_app_length.
Qed.


Lemma liti_then (w : String.string) (w' rest : jsstring) (k : mstate -> option mstate)
  (pre : jsstring) (caps : list (nat * jsstring)) (y : mstate) :
  str w <> [] -> List.map upper w' = List.map upper (str w) ->
  k (MS (rev w' ++ pre) rest caps) = Some y ->
  m (liti w) k (MS pre (w' ++ rest) caps) = Some y.
Proof.
  intros Hne Hup Hk. unfold liti. rewrite (chis_match _ Hne w' _ _ _ _ Hup). exact Hk.
Qed.








End ExpandClauseMatch.

Section ExpandClauseValue.




Lemma round_int (q : Q) (z : Z) : q == inject_Z z -> round q = z.
Proof.
  intros H. unfold round. rewrite H.
  unfold Qfloor, Qplus, inject_Z. cbn [Qnum Qden].
  change (Z.pos (1 * 2)) with 2.
  symmetry. apply Z.div_unique with (r := 1); lia.
Qed.

Lemma parseFloat_digits (ds : jsstring) :
  ds <> [] -> forallb is_digit ds = true ->
  exists q, parseFloat ds = Some q /\ q == inject_Z (digits_val ds).
Proof.
  intros Hne Hds. unfold parseFloat. rewrite (take_digits_all ds Hds).
  destruct ds as [|c ds]; [contradiction|].
  eexists. split; [reflexivity|].
  unfold Qeq, Qplus, Qdiv, Qmult, Qinv, inject_Z. cbn [Qnum Qden].
  change (digits_val []) with 0. simpl. lia.
Qed.



End ExpandClauseValue.

Section FaithfulCache.


Lemma cacheFaithful_parse (s : jsstring) (σ : State) :
  cacheFaithful σ -> cacheFaithful (snd (parseExpansionInstructions s σ)).
Proof.
  intros Hf. unfold parseExpansionInstructions.
  destruct (parseCache σ !! s) as [r|] eqn:E; [exact Hf|].
  intros s0 r0 H0. cbn [snd parseCache heap] in *.
  destruct (decide (s = s0)) as [<-|Hne].
  - rewrite lookup_insert_eq in H0. injection H0 as <-.
    exists (parseFresh s). split; [|reflexivity].
    rewrite lookup_app_r by lia.
    replace (length (heap σ) - length (heap σ))%nat with 0%nat by lia. reflexivity.
  - rewrite lookup_insert_ne in H0 by exact Hne.
    destruct (Hf s0 r0 H0) as (p & Hp & Ht). exists p. split; [|exact Ht].
    apply lookup_app_l_Some. exact Hp.
Qed.

Lemma cacheFaithful_planStructure (r : ref) (target : Z) (σ : State) :
  cacheFaithful σ -> cacheFaithful (snd (planStructure r target σ)).
Proof.
  intros Hf. unfold planStructure.
  destruct (structure (deref σ r)) as [|s0 st] eqn:E; [exact Hf|].
  intros s1 r1 H1. cbn [snd parseCache heap] in *.
  destruct (Hf s1 r1 H1) as (p & Hp & Ht).
  destruct (decide (r = r1)) as [<-|Hne].
  - eexists. split.
    + apply list_lookup_insert_eq. apply lookup_lt_Some in Hp. exact Hp.
    + cbn [targetWordCount]. unfold deref. rewrite Hp. exact Ht.
  - exists p. split; [|exact Ht]. rewrite list_lookup_insert_ne by exact Hne. exact Hp.
Qed.

(** Jobs keep the cache faithful. *)
Lemma cacheFaithful_universalExpand (env : Env) (req : ExpansionRequest) (σ : State) :
  cacheFaithful σ -> cacheFaithful (snd (universalExpand env req σ)).
Proof.
  intros Hf. rewrite universalExpand_state. cbv zeta.
  apply cacheFaithful_planStructure, cacheFaithful_parse, Hf.
Qed.


End FaithfulCache.




(** ** Fields and words

    [split_ws] and the word counts built on it. *)

Section Fields.

Variable p : char -> bool.

Lemma split_runs_nonempty (b : bool) (s : jsstring) : Words.split_runs_from p b s <> [].
Proof.
  revert b. induction s as [|c s IH]; intros b; simpl; [discriminate|].
  destruct (p c).
  - destruct b; [apply IH | discriminate].
  - destruct (Words.split_runs_from p false s); discriminate.
Qed.

Lemma split_runs_in_run (s : jsstring) :
  Words.split_runs_from p true s = Words.split_runs_from p false (dropWhile p s).
Proof.
  induction s as [|c s IH]; simpl; [reflexivity|].
  destruct (p c) eqn:Hc; [exact IH|].
  simpl. rewrite Hc. reflexivity.
Qed.

Lemma split_runs_word (w rest : jsstring) :
  forallb (fun c => negb (p c)) w = true ->
  stops (fun c => negb (p c)) rest ->
  Words.split_runs_from p false (w ++ rest)
  = match rest with
    | [] => [w]
    | _ :: r => w :: Words.split_runs_from p true r
    end.
Proof.
  intros Hw Hr. induction w as [|c w IH]; simpl in *.
  - destruct rest as [|d r]; [reflexivity|].
    simpl in Hr. apply negb_false_iff in Hr. simpl. rewrite Hr. reflexivity.
  - apply andb_prop in Hw as [Hc Hw]. apply negb_true_iff in Hc. rewrite Hc.
    rewrite (IH Hw). destruct rest; reflexivity.
Qed.

(** Every string is a word followed by nothing or by a separator. *)
Lemma span_word (s : jsstring) :
  exists w rest, s = w ++ rest
    /\ forallb (fun c => negb (p c)) w = true
    /\ stops (fun c => negb (p c)) rest.
Proof.
  induction s as [|c s (w & rest & -> & Hw & Hr)].
  - exists [], []. repeat split.
  - destruct (p c) eqn:Hc.
    + exists [], (c :: w ++ rest). repeat split. simpl. rewrite Hc. reflexivity.
    + exists (c :: w), rest. repeat split; [|exact Hr]. simpl. rewrite Hc, Hw. reflexivity.
Qed.

End Fields.

Section Words.

Lemma split_ws_from_runs (b : bool) (s : jsstring) :
  split_ws_from b s = Words.split_runs_from is_space b s.
Proof.
  revert b. induction s as [|c s IH]; intros b; simpl; [reflexivity|].
  rewrite !IH. reflexivity.
Qed.

Lemma split_ws_runs (s : jsstring) : split_ws s = Words.split_runs is_space s.
Proof. apply split_ws_from_runs. Qed.

Lemma wordsOf_nil : wordsOf [] = [].
Proof. reflexivity. Qed.

Lemma wordsOf_dropWhile (s : jsstring) : wordsOf (dropWhile is_space s) = wordsOf s.
Proof.
  destruct s as [|c s]; [reflexivity|]. cbn [dropWhile].
  destruct (is_space c) eqn:Hc; [|reflexivity].
  unfold wordsOf at 2. unfold split_ws. cbn [split_ws_from]. rewrite Hc.
  cbn [List.filter nonempty].
  rewrite split_ws_from_runs, split_runs_in_run.
  unfold wordsOf. rewrite split_ws_runs. reflexivity.
Qed.

Lemma wordsOf_space (c : char) (s : jsstring) :
  is_space c = true -> wordsOf (c :: s) = wordsOf s.
Proof.
  intros Hc. rewrite <- (wordsOf_dropWhile (c :: s)). simpl. rewrite Hc.
  apply wordsOf_dropWhile.
Qed.

Lemma wordsOf_spaces (run s : jsstring) :
  forallb is_space run = true -> wordsOf (run ++ s) = wordsOf s.
Proof.
  induction run as [|c run IH]; simpl; intros H; [reflexivity|].
  apply andb_prop in H as [Hc H]. rewrite (wordsOf_space _ _ Hc). exact (IH H).
Qed.

Lemma wordsOf_word (w rest : jsstring) :
  is_word_text w = true -> stops (fun c => negb (is_space c)) rest ->
  wordsOf (w ++ rest) = w :: wordsOf rest.
Proof.
  intros Hw Hr. apply andb_prop in Hw as [Hne Hw].
  unfold wordsOf at 1. rewrite split_ws_runs. unfold Words.split_runs.
  rewrite (split_runs_word _ _ _ Hw Hr).
  destruct rest as [|d r]; cbn [List.filter]; rewrite Hne; [reflexivity|].
  f_equal. cbn [stops] in Hr. apply negb_false_iff in Hr.
  rewrite (wordsOf_space _ _ Hr).
  rewrite split_runs_in_run, <- (wordsOf_dropWhile r).
  unfold wordsOf. rewrite split_ws_runs. reflexivity.
Qed.

Lemma wordsOf_app (a b : jsstring) :
  stops (fun c => negb (is_space c)) b -> wordsOf (a ++ b) = wordsOf a ++ wordsOf b.
Proof.
  intros Hb. remember (length a) as n eqn:Hn. revert a Hn.
  induction n as [n IH] using lt_wf_ind. intros a Hn.
  destruct a as [|c a]; [reflexivity|].
  destruct (is_space c) eqn:Hc.
  - simpl. rewrite !(wordsOf_space _ _ Hc). apply (IH (length a)); [simpl in Hn; lia | reflexivity].
  - destruct (span_word is_space a) as (w & rest & -> & Hw & Hr).
    assert (Hcw : is_word_text (c :: w) = true).
    { unfold is_word_text. simpl. rewrite Hc, Hw. reflexivity. }
    replace ((c :: w ++ rest) ++ b) with ((c :: w) ++ (rest ++ b))
      by (simpl; rewrite <- app_assoc; reflexivity).
    assert (Hrb : stops (fun c => negb (is_space c)) (rest ++ b)).
    { destruct rest; [exact Hb | exact Hr]. }
    rewrite (wordsOf_word _ _ Hcw Hrb).
    change (c :: w ++ rest) with ((c :: w) ++ rest). rewrite (wordsOf_word _ _ Hcw Hr).
    simpl. f_equal. apply (IH (length rest)); [|reflexivity].
    subst n. simpl. rewrite length_app. lia.
Qed.

Lemma wordsOf_words (s : jsstring) : forallb is_word_text (wordsOf s) = true.
Proof.
  remember (length s) as n eqn:Hn. revert s Hn.
  induction n as [n IH] using lt_wf_ind. intros s Hn.
  destruct s as [|c s]; [reflexivity|].
  destruct (is_space c) eqn:Hc.
  - rewrite (wordsOf_space _ _ Hc). apply (IH (length s)); [simpl in Hn; lia | reflexivity].
  - destruct (span_word is_space s) as (w & rest & -> & Hw & Hr).
    assert (Hcw : is_word_text (c :: w) = true).
    { unfold is_word_text. simpl. rewrite Hc, Hw. reflexivity. }
    change (c :: w ++ rest) with ((c :: w) ++ rest). rewrite (wordsOf_word _ _ Hcw Hr).
    simpl. rewrite Hcw. apply (IH (length rest)); [|reflexivity].
    subst n. simpl. rewrite length_app. lia.
Qed.

(** *** [trim] *)

Lemma dropWhile_split {A} (f : A -> bool) (l : list A) :
  exists run, l = run ++ dropWhile f l /\ forallb f run = true.
Proof.
  induction l as [|x l (run & Hl & Hrun)]; simpl.
  - exists []. split; reflexivity.
  - destruct (f x) eqn:Hx.
    + exists (x :: run). simpl. rewrite Hx, Hrun. split; [f_equal; exact Hl | reflexivity].
    + exists []. split; reflexivity.
Qed.

Lemma dropWhile_head {A} (f : A -> bool) (l : list A) (x : A) :
  head (dropWhile f l) = Some x -> f x = false.
Proof.
  induction l as [|y l IH]; simpl; [discriminate|].
  destruct (f y) eqn:Hy; [exact IH|]. simpl. intros [= <-]. exact Hy.
Qed.

Lemma dropWhile_all {A} (f : A -> bool) (l : list A) :
  forallb f l = true -> dropWhile f l = [].
Proof.
  induction l as [|y l IH]; simpl; [reflexivity|].
  destruct (f y); [exact IH | discriminate].
Qed.

Lemma dropWhile_stop {A} (f : A -> bool) (l : list A) (x : A) :
  head l = Some x -> f x = false -> dropWhile f l = l.
Proof. destruct l; simpl; [discriminate|]. intros [= ->] ->. reflexivity. Qed.

Lemma last_In {A} (l : list A) (x : A) : last l = Some x -> In x l.
Proof.
  induction l as [|y l IH]; [discriminate|].
  rewrite last_cons. destruct (last l) eqn:Hl.
  - intros [= ->]. right. apply IH. reflexivity.
  - intros [= ->]. left. reflexivity.
Qed.

Lemma last_rev {A} (l : list A) : last (rev l) = head l.
Proof. destruct l; simpl; [reflexivity | apply last_snoc]. Qed.

Lemma head_rev {A} (l : list A) : head (rev l) = last l.
Proof. rewrite <- (rev_involutive l) at 2. symmetry. apply last_rev. Qed.

Lemma trimEnd_split (s : jsstring) :
  exists run, s = trimEnd s ++ run /\ forallb is_space run = true.
Proof.
  destruct (dropWhile_split is_space (rev s)) as (run & Hs & Hrun).
  exists (rev run). split.
  - unfold trimEnd. rewrite <- rev_app_distr, <- Hs, rev_involutive. reflexivity.
  - rewrite forallb_forall in *. intros x Hx. apply Hrun, in_rev, Hx.
Qed.

Lemma trimEnd_last (s : jsstring) (c : char) :
  last (trimEnd s) = Some c -> is_space c = false.
Proof. unfold trimEnd. rewrite last_rev. apply dropWhile_head. Qed.

Lemma trimEnd_head (s : jsstring) (c : char) :
  head s = Some c -> is_space c = false -> head (trimEnd s) = Some c.
Proof.
  intros Hh Hc. destruct (trimEnd_split s) as (run & Hs & Hrun).
  destruct (trimEnd s) as [|d t] eqn:Ht.
  - simpl in Hs. subst run. destruct s; [discriminate|]. simpl in *.
    injection Hh as ->. rewrite Hc in Hrun. discriminate.
  - rewrite Hs in Hh. simpl in *. exact Hh.
Qed.

Lemma trim_head (s : jsstring) (c : char) : head (trim s) = Some c -> is_space c = false.
Proof.
  unfold trim, trimStart. intros H.
  destruct (dropWhile is_space s) as [|d t] eqn:Hd; [discriminate|].
  assert (Hdc : is_space d = false) by (apply (dropWhile_head is_space s); rewrite Hd; reflexivity).
  rewrite (trimEnd_head (d :: t) d eq_refl Hdc) in H. injection H as <-. exact Hdc.
Qed.

Lemma trim_last (s : jsstring) (c : char) : last (trim s) = Some c -> is_space c = false.
Proof. apply trimEnd_last. Qed.

Lemma wordsOf_trimEnd (s : jsstring) : wordsOf (trimEnd s) = wordsOf s.
Proof.
  destruct (trimEnd_split s) as (run & Hs & Hrun).
  rewrite Hs at 2. rewrite wordsOf_app.
  - rewrite <- (app_nil_r run), (wordsOf_spaces _ _ Hrun), app_nil_r. reflexivity.
  - destruct run as [|d r]; simpl in *; [exact I|].
    apply andb_prop in Hrun as [-> _]. reflexivity.
Qed.

Lemma wordsOf_trim (s : jsstring) : wordsOf (trim s) = wordsOf s.
Proof. unfold trim, trimStart. rewrite wordsOf_trimEnd. apply wordsOf_dropWhile. Qed.

Lemma trim_trimmed (s : jsstring) : trim (trim s) = trim s.
Proof.
  set (t := trim s).
  assert (Hh := trim_head s). assert (Hl := trim_last s). fold t in Hh, Hl.
  unfold trim at 1, trimStart.
  replace (dropWhile is_space t) with t.
  - unfold trimEnd.
    replace (dropWhile is_space (rev t)) with (rev t); [apply rev_involutive|].
    destruct (rev t) as [|c r] eqn:Hr; [reflexivity|].
    symmetry. apply dropWhile_stop with (x := c); [reflexivity|]. apply Hl.
    rewrite <- head_rev, Hr. reflexivity.
  - destruct t as [|c r]; [reflexivity|].
    symmetry. apply dropWhile_stop with (x := c); [reflexivity|]. apply Hh. reflexivity.
Qed.

(** The fields of a text that neither starts nor ends with white space
    are its words. *)
Lemma fields_of_trimmed (s : jsstring) :
  s <> [] ->
  (forall c, head s = Some c -> is_space c = false) ->
  (forall c, last s = Some c -> is_space c = false) ->
  split_ws s = wordsOf s.
Proof.
  remember (length s) as n eqn:Hn. revert s Hn.
  induction n as [n IH] using lt_wf_ind. intros s Hn Hne Hh Hl.
  destruct s as [|c s]; [congruence|].
  assert (Hc : is_space c = false) by (apply Hh; reflexivity).
  destruct (span_word is_space s) as (w & rest & -> & Hw & Hr).
  assert (Hcw : is_word_text (c :: w) = true).
  { unfold is_word_text. simpl. rewrite Hc, Hw. reflexivity. }
  assert (Hcw' : forallb (fun c => negb (is_space c)) (c :: w) = true).
  { simpl. rewrite Hc, Hw. reflexivity. }
  change (c :: w ++ rest) with ((c :: w) ++ rest) in *.
  rewrite (wordsOf_word _ _ Hcw Hr).
  rewrite split_ws_runs. unfold Words.split_runs.
  rewrite (split_runs_word _ _ _ Hcw' Hr).
  destruct rest as [|d r]; [reflexivity|].
  f_equal. cbn [stops] in Hr. apply negb_false_iff in Hr.
  rewrite (wordsOf_space _ _ Hr), <- (wordsOf_dropWhile r).
  rewrite split_runs_in_run.
  change (Words.split_runs_from is_space false (dropWhile is_space r))
    with (Words.split_runs is_space (dropWhile is_space r)).
  rewrite <- split_ws_runs.
  destruct (dropWhile_split is_space r) as (run & Hrun & Hsp).
  assert (Hlast : last ((c :: w) ++ d :: r) = last (dropWhile is_space r)
                  /\ dropWhile is_space r <> []).
  { rewrite last_app_cons.
    destruct (dropWhile is_space r) as [|e r'] eqn:Hd.
    - exfalso. rewrite app_nil_r in Hrun. subst run.
      assert (exists x, last (d :: r) = Some x /\ is_space x = true) as (x & Hx & Hsx).
      { destruct (last r) as [x|] eqn:Hlr.
        - exists x. rewrite last_cons, Hlr. split; [reflexivity|].
          rewrite forallb_forall in Hsp. apply Hsp.
          apply last_In, Hlr.
        - exists d. rewrite last_cons, Hlr. split; [reflexivity | exact Hr]. }
      specialize (Hl x). rewrite last_app_cons, Hx in Hl. rewrite Hl in Hsx; [discriminate | reflexivity].
    - split; [|discriminate].
      rewrite Hrun at 1. rewrite app_comm_cons, last_app_cons. reflexivity. }
  destruct Hlast as [Hlast Hdne].
  apply (IH (length (dropWhile is_space r))); [| reflexivity | exact Hdne | |].
  - subst n. rewrite Hrun at 2. simpl. rewrite !length_app. simpl. rewrite length_app. lia.
  - intros x. apply dropWhile_head.
  - intros x Hx. apply Hl. rewrite Hlast. exact Hx.
Qed.

Lemma split_ws_trim (s : jsstring) :
  split_ws (trim s) = match wordsOf s with [] => [[]] | ws => ws end.
Proof.
  rewrite <- (wordsOf_trim s).
  destruct (trim s) as [|c t] eqn:Ht; [reflexivity|].
  rewrite <- Ht.
  rewrite fields_of_trimmed.
  - rewrite Ht. destruct (wordsOf (c :: t)) eqn:Hw; [|reflexivity].
    exfalso. rewrite <- Ht in Hw.
    assert (Hc : is_space c = false) by (apply (trim_head s); rewrite Ht; reflexivity).
    destruct (span_word is_space t) as (w & rest & -> & Hw' & Hr).
    rewrite Ht in Hw. change (c :: w ++ rest) with ((c :: w) ++ rest) in Hw.
    rewrite wordsOf_word in Hw; [discriminate | | exact Hr].
    unfold is_word_text. simpl. rewrite Hc, Hw'. reflexivity.
  - rewrite Ht. discriminate.
  - apply trim_head.
  - apply trim_last.
Qed.

(** The two counts of the service. *)
Lemma countWords_words (s : jsstring) : countWords s = Z.of_nat (length (wordsOf s)).
Proof. unfold countWords. fold (wordsOf (trim s)). rewrite wordsOf_trim. reflexivity. Qed.

Lemma countFields_words (s : jsstring) :
  countFields s = Z.max 1 (Z.of_nat (length (wordsOf s))).
Proof.
  unfold countFields. rewrite split_ws_trim.
  destruct (wordsOf s) as [|w ws]; [reflexivity|]. simpl length. lia.
Qed.

(** *** Joined texts *)

Lemma join_cons (sep w : jsstring) (l : list jsstring) :
  l <> [] -> join sep (w :: l) = w ++ sep ++ join sep l.
Proof. destruct l; [congruence | reflexivity]. Qed.

Lemma join_snoc (sep x : jsstring) (l : list jsstring) :
  l <> [] -> join sep (l ++ [x]) = join sep l ++ sep ++ x.
Proof.
  induction l as [|w l IH]; [congruence|]. intros _.
  destruct l as [|v l]; [reflexivity|].
  change ((w :: v :: l) ++ [x]) with (w :: ((v :: l) ++ [x])).
  rewrite join_cons by (destruct l; discriminate).
  rewrite IH by discriminate.
  rewrite (join_cons sep w (v :: l)) by discriminate.
  rewrite <- !app_assoc. reflexivity.
Qed.

Lemma wordsOf_one (w : jsstring) : is_word_text w = true -> wordsOf w = [w].
Proof.
  intros Hw. rewrite <- (app_nil_r w) at 1.
  rewrite (wordsOf_word w [] Hw I). reflexivity.
Qed.

(** Texts joined by a separator of white space: the words of the pieces. *)
Lemma wordsOf_join (sep : jsstring) (l : list jsstring) :
  sep <> [] -> forallb is_space sep = true ->
  wordsOf (join sep l) = concat (List.map wordsOf l).
Proof.
  intros Hne Hsep. induction l as [|w l IH]; [reflexivity|].
  destruct l as [|v l].
  - simpl. rewrite app_nil_r. reflexivity.
  - rewrite join_cons by discriminate. rewrite wordsOf_app.
    + rewrite (wordsOf_spaces _ _ Hsep), IH. reflexivity.
    + destruct sep as [|c sep]; [congruence|]. simpl in *.
      apply andb_prop in Hsep as [-> _]. reflexivity.
Qed.

Lemma wordsOf_join_words (l : list jsstring) :
  forallb is_word_text l = true -> wordsOf (join (str " ") l) = l.
Proof.
  intros Hl. rewrite wordsOf_join; [| discriminate | reflexivity].
  induction l as [|w l IH]; [reflexivity|].
  simpl in *. apply andb_prop in Hl as [Hw Hl].
  rewrite (wordsOf_one _ Hw), (IH Hl). reflexivity.
Qed.

(** Words joined by blanks, with more text on the last word. *)
Lemma wordsOf_join_tail (l : list jsstring) (tail : jsstring) :
  l <> [] -> forallb is_word_text l = true ->
  forallb (fun c => negb (is_space c)) tail = true ->
  length (wordsOf (join (str " ") l ++ tail)) = length l.
Proof.
  intros Hne Hl Ht. induction l as [|w l IH]; [congruence|].
  simpl in Hl. apply andb_prop in Hl as [Hw Hl].
  destruct l as [|v l].
  - simpl. rewrite wordsOf_one; [reflexivity|].
    unfold is_word_text in *. apply andb_prop in Hw as [Hw1 Hw2].
    rewrite forallb_app, Hw2, Ht. destruct w; [discriminate | reflexivity].
  - rewrite join_cons by discriminate. rewrite <- !app_assoc.
    rewrite (wordsOf_word _ _ Hw) by reflexivity.
    change (str " " ++ join (str " ") (v :: l) ++ tail)
      with (32%N :: (join (str " ") (v :: l) ++ tail)).
    rewrite wordsOf_space by reflexivity.
    simpl length. f_equal. apply IH; [discriminate | exact Hl].
Qed.

Lemma firstn_forallb {A} (f : A -> bool) (n : nat) (l : list A) :
  forallb f l = true -> forallb f (firstn n l) = true.
Proof.
  revert n. induction l as [|x l IH]; intros [|n] H; try reflexivity.
  simpl in *. apply andb_prop in H as [-> H]. exact (IH n H).
Qed.

(** The fields of a trimmed text that has more than one field are words. *)
Lemma fields_are_words (s : jsstring) :
  (1 < length (split_ws (trim s)))%nat ->
  split_ws (trim s) = wordsOf s /\ forallb is_word_text (split_ws (trim s)) = true.
Proof.
  rewrite split_ws_trim. intros H.
  destruct (wordsOf s) as [|w ws] eqn:Hw; [simpl in H; lia|].
  split; [reflexivity|]. rewrite <- Hw. apply wordsOf_words.
Qed.

Lemma wordsOf_le_fields (s : jsstring) :
  (length (wordsOf s) <= length (split_ws (trim s)))%nat.
Proof. rewrite split_ws_trim. destruct (wordsOf s); simpl; lia. Qed.

(** A text cut to its first [n] words, with a mark without white space
    on the last of them. *)
Lemma firstWords_count (n : nat) (s tail : jsstring) :
  (0 < n)%nat -> (n < length (split_ws (trim s)))%nat ->
  forallb (fun c => negb (is_space c)) tail = true ->
  length (wordsOf (Words.firstWords n (split_ws (trim s)) ++ tail)) = n.
Proof.
  intros Hn Hlen Ht. destruct (fields_are_words s) as [_ Hw]; [lia|].
  unfold Words.firstWords. rewrite wordsOf_join_tail.
  - rewrite length_firstn. lia.
  - destruct (split_ws (trim s)); [simpl in Hlen; lia|]. destruct n; [lia | discriminate].
  - apply firstn_forallb, Hw.
  - exact Ht.
Qed.

End Words.

(** ** Word counts, summaries and chunks *)

(** X1.  The service counts the words of a text in two ways: the fields
    of the trimmed text ([countFields]: the input, section and output
    counts of a job) and the non-empty fields ([countWords]: the count the
    continuation loop compares with the target).  The two agree on every
    text that has a word; on a blank text the first is 1 and the second 0.
    So every job reports an input and an output count of at least 1. *)
Theorem word_counts_agree (s : jsstring) (env : Env) (req : ExpansionRequest) (σ : State) :
  countFields s = Z.max 1 (countWords s)
  /\ (wordsOf s = [] -> countFields s = 1 /\ countWords s = 0)
  /\ (let '(result, _, _) := universalExpand env req σ in
      1 <= inputWordCount result /\ 1 <= outputWordCount result).
Proof.
  split; [|split].
  - rewrite countFields_words, countWords_words. reflexivity.
  - intros H. rewrite countFields_words, countWords_words, H. split; reflexivity.
  - unfold universalExpand.
    destruct (parseExpansionInstructions (customInstructions req) σ) as [r σ1].
    destruct (planStructure r _ σ1) as [structure_ σ2].
    cbn [inputWordCount outputWordCount].
    rewrite !countFields_words. lia.
Qed.

Section Summaries.

Lemma concat_length_bound {A} (b : nat) (l : list (list A)) :
  Forall (fun x => (length x <= b)%nat) l -> (length (concat l) <= b * length l)%nat.
Proof.
  induction 1 as [|x l Hx _ IH]; simpl; [lia|].
  rewrite length_app. lia.
Qed.

Lemma shorten_bound (p : jsstring) : (length (wordsOf (Summary.shorten p)) <= 100)%nat.
Proof.
  unfold Summary.shorten.
  destruct (Nat.ltb 100 (length (split_ws (trim p)))) eqn:H.
  - apply Nat.ltb_lt in H. rewrite firstWords_count; [lia | lia | exact H | reflexivity].
  - apply Nat.ltb_ge in H. pose proof (wordsOf_le_fields p). lia.
Qed.

Lemma blank_line_words (l : list jsstring) :
  wordsOf (join [lf; lf] l) = concat (List.map wordsOf l).
Proof. apply wordsOf_join; [discriminate | reflexivity]. Qed.

End Summaries.

(** X2.  The summary of a section that [generateSectionSummary] puts
    into the context of the later sections has at most [maxWords] words
    when the section is returned as it is, and at most 400 words when it is
    condensed (at most four paragraphs of at most 100 words each); with the
    400 the caller passes, it never has more than 400 words.  A section of
    at most [maxWords] words is returned unchanged. *)
Theorem summary_word_bound (sectionContent : jsstring) (maxWords : Z) :
  countFields (Summary.generateSectionSummary sectionContent maxWords) <= Z.max maxWords 400
  /\ countFields (Summary.generateSectionSummary sectionContent 400) <= 400
  /\ (countFields sectionContent <= maxWords ->
      Summary.generateSectionSummary sectionContent maxWords = sectionContent).
Proof.
  assert (H : forall mw, countFields (Summary.generateSectionSummary sectionContent mw)
                         <= Z.max mw 400).
  { intros mw. unfold Summary.generateSectionSummary.
    destruct (countFields sectionContent <=? mw) eqn:Hc; [lia|].
    rewrite countFields_words, blank_line_words.
    set (paragraphs := List.filter _ _).
    set (claims := firstn 2 _).
    assert (Hlen : (length (List.map wordsOf
                      (List.map Summary.shorten
                         ([default [] (head paragraphs)] ++ claims ++ [default [] (last paragraphs)])))
                    <= 4)%nat).
    { rewrite !length_map, !length_app. simpl.
      pose proof (firstn_le_length 2 (List.filter (test Summary.summaryClaim)
                                        (Summary.middle paragraphs))).
      fold claims in H. lia. }
    pose proof (concat_length_bound 100
                  (List.map wordsOf
                     (List.map Summary.shorten
                        ([default [] (head paragraphs)] ++ claims
                         ++ [default [] (last paragraphs)])))) as Hb.
    assert (Hall : Forall (fun x : list jsstring => (length x <= 100)%nat)
                     (List.map wordsOf
                        (List.map Summary.shorten
                           ([default [] (head paragraphs)] ++ claims
                            ++ [default [] (last paragraphs)])))).
    { rewrite List.map_map. apply Forall_forall. intros x Hx.
      apply list_elem_of_In, in_map_iff in Hx as (q & <- & _). apply shorten_bound. }
    specialize (Hb Hall). lia. }
  split; [apply H | split].
  - pose proof (H 400). lia.
  - intros Hle. unfold Summary.generateSectionSummary.
    apply Z.leb_le in Hle. rewrite Hle. reflexivity.
Qed.

Section Truncation.

Lemma truncationMark_words : length (wordsOf Chunks.truncationMark) = 4%nat.
Proof. vm_compute. reflexivity. Qed.

Lemma firstWords_words (n : nat) (s : jsstring) :
  (n < length (split_ws (trim s)))%nat ->
  wordsOf (Words.firstWords n (split_ws (trim s))) = firstn n (split_ws (trim s)).
Proof.
  intros Hlen. destruct n as [|n]; [reflexivity|].
  destruct (fields_are_words s) as [_ Hw]; [lia|].
  apply wordsOf_join_words, firstn_forallb, Hw.
Qed.

End Truncation.

(** X3.  The source text handed to the skeleton extraction holds at
    most 15,004 words (the first 15,000 and the four of the truncation
    mark), and the section text handed to the delta report at most 4,000;
    a text within the limit is handed over unchanged. *)
Theorem prompt_texts_bounded (s : jsstring) :
  countFields (Chunks.truncatedSource s) <= 15004
  /\ countFields (Chunks.truncatedSection s) <= 4000
  /\ (countFields s <= 15000 -> Chunks.truncatedSource s = s)
  /\ (countFields s <= 4000 -> Chunks.truncatedSection s = s).
Proof.
  unfold Chunks.truncatedSource, Chunks.truncatedSection.
  assert (Hf : countFields s = Z.of_nat (length (split_ws (trim s)))) by reflexivity.
  assert (H15 : Z.of_nat 15000 = 15000) by (vm_compute; reflexivity).
  assert (H4 : Z.of_nat 4000 = 4000) by (vm_compute; reflexivity).
  repeat split.
  - destruct (15000 <? countFields s) eqn:Hc; [|apply Z.ltb_ge in Hc; lia].
    apply Z.ltb_lt in Hc. rewrite countFields_words, wordsOf_app by reflexivity.
    rewrite firstWords_words by lia.
    rewrite length_app, length_firstn, truncationMark_words. lia.
  - destruct (4000 <? countFields s) eqn:Hc; [|apply Z.ltb_ge in Hc; lia].
    apply Z.ltb_lt in Hc. rewrite countFields_words.
    rewrite firstWords_words by lia.
    rewrite length_firstn. lia.
  - intros Hle. destruct (15000 <? countFields s) eqn:Hc; [apply Z.ltb_lt in Hc; lia | reflexivity].
  - intros Hle. destruct (4000 <? countFields s) eqn:Hc; [apply Z.ltb_lt in Hc; lia | reflexivity].
Qed.

Section ChunkLemmas.

Lemma slices_nil {A} (fuel size : nat) : @Chunks.slices A fuel size [] = [].
Proof. destruct fuel; reflexivity. Qed.

Lemma slices_concat {A} (size : nat) :
  (0 < size)%nat ->
  forall (fuel : nat) (ws : list A),
    (length ws <= fuel)%nat -> concat (Chunks.slices fuel size ws) = ws.
Proof.
  intros Hs. induction fuel as [|fuel IH]; intros ws Hlen.
  - destruct ws; [reflexivity | simpl in Hlen; lia].
  - destruct ws as [|x ws]; [reflexivity|].
    cbn [Chunks.slices concat]. rewrite IH.
    + apply firstn_skipn.
    + rewrite length_skipn. simpl in *. lia.
Qed.

Lemma slices_each {A} (size : nat) (f : A -> bool) :
  (0 < size)%nat ->
  forall (fuel : nat) (ws : list A),
    forallb f ws = true ->
    Forall (fun c => c <> [] /\ (length c <= size)%nat /\ forallb f c = true)
      (Chunks.slices fuel size ws).
Proof.
  intros Hs. induction fuel as [|fuel IH]; intros ws Hf; [constructor|].
  destruct ws as [|x ws]; [constructor|].
  cbn [Chunks.slices]. constructor.
  - repeat split.
    + destruct size; [lia | discriminate].
    + apply firstn_le_length.
    + apply firstn_forallb, Hf.
  - apply IH. rewrite <- (firstn_skipn size (x :: ws)) in Hf.
    rewrite forallb_app in Hf. apply andb_prop in Hf as [_ Hf]. exact Hf.
Qed.

Lemma slices_length {A} (size : nat) :
  (0 < size)%nat ->
  forall (fuel : nat) (ws : list A),
    (length ws <= fuel)%nat ->
    Z.of_nat (length (Chunks.slices fuel size ws))
    = (Z.of_nat (length ws) + Z.of_nat size - 1) / Z.of_nat size.
Proof.
  intros Hs. induction fuel as [|fuel IH]; intros ws Hlen.
  - destruct ws; [|simpl in Hlen; lia]. simpl.
    symmetry. apply Z.div_small. lia.
  - destruct ws as [|x ws].
    + simpl. symmetry. apply Z.div_small. lia.
    + cbn [Chunks.slices length]. rewrite Nat2Z.inj_succ, IH.
      * rewrite length_skipn. cbn [length].
        destruct (Nat.le_gt_cases size (S (length ws))) as [Hge|Hlt].
        -- replace (Z.of_nat (S (length ws)) + Z.of_nat size - 1)
             with (Z.of_nat (S (length ws) - size) + Z.of_nat size - 1 + 1 * Z.of_nat size) by lia.
           rewrite Z.div_add by lia. lia.
        -- replace (S (length ws) - size)%nat with 0%nat by lia.
           rewrite (Z.div_small (Z.of_nat 0 + _ - 1)) by lia.
           apply (Z.div_unique _ _ 1 (Z.of_nat (S (length ws)) - 1)); lia.
      * rewrite length_skipn. simpl in *. lia.
Qed.

(** Words joined by blanks are found again by the split. *)
Lemma split_ws_join_words (c : list jsstring) :
  c <> [] -> forallb is_word_text c = true -> split_ws (join (str " ") c) = c.
Proof.
  intros Hne Hc.
  assert (Hw : wordsOf (join (str " ") c) = c) by (apply wordsOf_join_words, Hc).
  rewrite <- Hw at 2. apply fields_of_trimmed.
  - intros He. rewrite He in Hw. destruct c; [congruence | discriminate].
  - destruct c as [|w c]; [congruence|]. simpl in Hc. apply andb_prop in Hc as [Hw1 _].
    unfold is_word_text in Hw1. apply andb_prop in Hw1 as [Hw1 Hw2].
    destruct w as [|x w]; [discriminate|]. simpl in Hw2. apply andb_prop in Hw2 as [Hx _].
    intros y Hy. destruct c; simpl in Hy; injection Hy as <-; apply negb_true_iff, Hx.
  - clear Hw Hne. induction c as [|w c IH]; [intros; discriminate|].
    simpl in Hc. apply andb_prop in Hc as [Hw1 Hc].
    destruct c as [|v c].
    + simpl. intros y Hy. unfold is_word_text in Hw1. apply andb_prop in Hw1 as [_ Hw2].
      rewrite forallb_forall in Hw2. apply negb_true_iff, Hw2, last_In, Hy.
    + rewrite join_cons by discriminate. intros y Hy.
      apply IH; [exact Hc|].
      rewrite !last_app in Hy.
      destruct (last (join (str " ") (v :: c))) eqn:Hl; [exact Hy|].
      exfalso. apply last_None in Hl.
      assert (Hw : wordsOf (join (str " ") (v :: c)) = v :: c) by (apply wordsOf_join_words, Hc).
      rewrite Hl in Hw. discriminate.
Qed.

Lemma chunk_size : (0 < Chunks.CHUNK_SIZE)%nat /\ Z.of_nat Chunks.CHUNK_SIZE = 50000.
Proof. split; [apply Nat.ltb_lt|]; vm_compute; reflexivity. Qed.

(** The words of a trimmed text: words, or the one empty field of a blank
    text. *)
Lemma fields_cases (s : jsstring) :
  split_ws (trim s) = [[]]
  \/ (split_ws (trim s) <> [] /\ forallb is_word_text (split_ws (trim s)) = true).
Proof.
  rewrite split_ws_trim. destruct (wordsOf s) as [|w ws] eqn:Hw; [left; reflexivity|].
  right. split; [discriminate|]. rewrite <- Hw. apply wordsOf_words.
Qed.

End ChunkLemmas.

(** X4.  A source of more than 50,000 words is cut into chunks for the
    first tier of skeletons.  The chunks hold the words of the source in
    their order, none lost and none twice; no chunk has more than 50,000
    words; their number is the word count divided by 50,000, rounded up;
    and a listener receives one progress event for each of them besides
    the two of the stage. *)
Theorem chunks_cover_the_source (rawText : jsstring) :
  concat (List.map split_ws (Chunks.chunksOf rawText)) = split_ws (trim rawText)
  /\ Forall (fun c => countFields c <= 50000) (Chunks.chunksOf rawText)
  /\ Z.of_nat (length (Chunks.chunksOf rawText)) = (countFields rawText + 49999) / 50000
  /\ length (tierEvents (countFields rawText)) = (2 + length (Chunks.chunksOf rawText))%nat.
Proof.
  destruct chunk_size as [Hpos Hsize].
  assert (Hcount : Z.of_nat (length (Chunks.chunksOf rawText))
                   = (countFields rawText + 49999) / 50000).
  { unfold Chunks.chunksOf. rewrite length_map, (slices_length _ Hpos) by lia.
    rewrite Hsize. unfold countFields. f_equal. lia. }
  split; [|split; [|split]].
  - unfold Chunks.chunksOf. rewrite List.map_map.
    rewrite (map_ext_in _ (fun c : list jsstring => c)).
    + rewrite List.map_id. apply slices_concat; [exact Hpos | lia].
    + intros c Hc.
      destruct (fields_cases rawText) as [Hblank | [Hne Hwords]].
      * rewrite Hblank in Hc. cbn [length Chunks.slices] in Hc.
        destruct Chunks.CHUNK_SIZE; [lia|]. simpl in Hc. rewrite firstn_nil in Hc.
        destruct Hc as [<- | []]. reflexivity.
      * pose proof (slices_each _ is_word_text Hpos (length (split_ws (trim rawText))) _ Hwords)
          as Hall.
        rewrite Forall_forall in Hall. apply list_elem_of_In, Hall in Hc as (Hcne & _ & Hcw).
        apply split_ws_join_words; assumption.
  - unfold Chunks.chunksOf. apply Forall_forall. intros t Ht.
    apply list_elem_of_In, in_map_iff in Ht as (c & <- & Hc).
    rewrite countFields_words.
    destruct (fields_cases rawText) as [Hblank | [Hne Hwords]].
    + rewrite Hblank in Hc. cbn [length Chunks.slices] in Hc.
      destruct Chunks.CHUNK_SIZE; [lia|]. simpl in Hc. rewrite firstn_nil in Hc.
        destruct Hc as [<- | []].
      vm_compute. discriminate.
    + pose proof (slices_each _ is_word_text Hpos (length (split_ws (trim rawText))) _ Hwords) as Hall.
      rewrite Forall_forall in Hall. apply list_elem_of_In, Hall in Hc as (Hcne & Hlen & Hcw).
      rewrite (wordsOf_join_words _ Hcw). lia.
  - exact Hcount.
  - unfold tierEvents. rewrite repeat_length, <- Hcount, Nat2Z.id. reflexivity.
Qed.

(** ** The source excerpt of a section *)

Section Sorting.

Context {A : Type} (before : A -> A -> bool).

Lemma insertBy_Permutation (x : A) (l : list A) : Words.insertBy before x l ≡ₚ x :: l.
Proof.
  induction l as [|y l IH]; simpl; [reflexivity|].
  destruct (before x y); [reflexivity|].
  rewrite IH. apply perm_swap.
Qed.

Lemma sortBy_Permutation (l : list A) : Words.sortBy before l ≡ₚ l.
Proof.
  induction l as [|x l IH]; simpl; [reflexivity|].
  rewrite insertBy_Permutation, IH. reflexivity.
Qed.

Hypothesis before_total : forall x y, before x y = true \/ before y x = true.
Hypothesis before_trans :
  forall x y z, before x y = true -> before y z = true -> before x z = true.

Lemma insertBy_sorted (x : A) (l : list A) :
  StronglySorted (fun a b => before a b = true) l ->
  StronglySorted (fun a b => before a b = true) (Words.insertBy before x l).
Proof.
  induction 1 as [|y l Hl IH Hy]; simpl.
  - repeat constructor.
  - destruct (before x y) eqn:Hxy.
    + constructor; [constructor; assumption|].
      constructor; [exact Hxy|].
      eapply Forall_impl; [exact Hy|]. intros z Hz. exact (before_trans _ _ _ Hxy Hz).
    + constructor; [exact IH|].
      assert (Hyx : before y x = true) by (destruct (before_total x y); congruence).
      apply Forall_forall. intros z Hz.
      apply list_elem_of_In in Hz.
      apply (Permutation_in _ (insertBy_Permutation x l)) in Hz as [<- | Hz]; [exact Hyx|].
      rewrite Forall_forall in Hy. apply Hy, list_elem_of_In, Hz.
Qed.

Lemma sortBy_sorted (l : list A) :
  StronglySorted (fun a b => before a b = true) (Words.sortBy before l).
Proof.
  induction l as [|x l IH]; simpl; [constructor | apply insertBy_sorted, IH].
Qed.

End Sorting.

Section ExcerptLemmas.

Import Excerpt.

Variable kws : list jsstring.

Lemma scoreAll_idx (P : list jsstring) (i : nat) (x : Scored) :
  In x (scoreAll kws i P) -> (i <= idx x)%nat.
Proof.
  revert i. induction P as [|p P IH]; intros i; simpl; [tauto|].
  intros [<- | H]; [simpl; lia|]. apply IH in H. lia.
Qed.

Lemma scoreAll_para (P : list jsstring) (i : nat) : List.map para (scoreAll kws i P) = P.
Proof. revert i. induction P as [|p P IH]; intros i; simpl; [|rewrite IH]; reflexivity. Qed.

Lemma scoreAll_NoDup (P : list jsstring) (i : nat) : NoDup (scoreAll kws i P).
Proof.
  revert i. induction P as [|p P IH]; intros i; simpl; constructor; [|apply IH].
  intros H. apply list_elem_of_In, scoreAll_idx in H. simpl in H. lia.
Qed.

(** Scored paragraphs in the order of their indexes, none twice, are
    paragraphs of the source in the order of the source. *)
Lemma ordered_sublist (P : list jsstring) :
  forall (i : nat) (l : list Scored),
    NoDup l ->
    StronglySorted (fun a b => byIdx a b = true) l ->
    (forall x, In x l -> In x (scoreAll kws i P)) ->
    l `sublist_of` scoreAll kws i P.
Proof.
  induction P as [|p P IH]; intros i l Hnd Hs Hin.
  - destruct l as [|x l]; [constructor|]. destruct (Hin x); left; reflexivity.
  - destruct l as [|x l]; [apply sublist_nil_l|].
    cbn [scoreAll] in *.
    apply NoDup_cons in Hnd as [Hx Hnd]. apply StronglySorted_inv in Hs as [Hs Hle].
    rewrite Forall_forall in Hle.
    destruct (Hin x (or_introl eq_refl)) as [Heq | Hrest].
    + subst x. apply sublist_skip, IH; [exact Hnd | exact Hs |].
      intros y Hy. destruct (Hin y (or_intror Hy)) as [<- | H]; [|exact H].
      exfalso. apply Hx, list_elem_of_In, Hy.
    + apply sublist_cons, IH; [constructor; assumption | constructor; [assumption|] |].
      * apply Forall_forall. exact Hle.
      * intros y [<- | Hy]; [exact Hrest|].
        destruct (Hin y (or_intror Hy)) as [<- | H]; [|exact H].
        exfalso. apply scoreAll_idx in Hrest.
        specialize (Hle _ (proj2 (list_elem_of_In _ _) Hy)).
        unfold byIdx in Hle. apply Nat.leb_le in Hle. simpl in Hle. lia.
Qed.

Lemma selectWithin_sublist (maxWords wc : Z) (items : list Scored) :
  selectWithin maxWords wc items `sublist_of` items.
Proof.
  revert wc. induction items as [|x items IH]; intros wc; simpl; [constructor|].
  destruct (maxWords <? wc + countFields (para x)); [apply sublist_nil_l | apply sublist_skip, IH].
Qed.

Lemma selectWithin_budget (maxWords : Z) (items : list Scored) (wc : Z) :
  selectWithin maxWords wc items <> [] ->
  wc + totalFields (List.map para (selectWithin maxWords wc items)) <= maxWords.
Proof.
  revert wc. induction items as [|x items IH]; intros wc; simpl; [congruence|].
  destruct (maxWords <? wc + countFields (para x)) eqn:Hfit; [congruence|]. intros _.
  apply Z.ltb_ge in Hfit. unfold totalFields in *. simpl.
  destruct (selectWithin maxWords (wc + countFields (para x)) items) eqn:Hsel.
  - simpl. lia.
  - rewrite <- Hsel in *. specialize (IH (wc + countFields (para x))).
    rewrite Hsel in IH at 1. specialize (IH ltac:(discriminate)). lia.
Qed.

Lemma totalFields_Permutation (l k : list jsstring) : l ≡ₚ k -> totalFields l = totalFields k.
Proof.
  unfold totalFields. induction 1; simpl; lia.
Qed.

Lemma byIdx_total (x y : Scored) : byIdx x y = true \/ byIdx y x = true.
Proof. unfold byIdx. destruct (Nat.leb_spec (idx x) (idx y)); [left; reflexivity | right]. apply Nat.leb_le. lia. Qed.

Lemma byIdx_trans (x y z : Scored) :
  byIdx x y = true -> byIdx y z = true -> byIdx x z = true.
Proof. unfold byIdx. rewrite !Nat.leb_le. lia. Qed.

End ExcerptLemmas.

Lemma sublist_map {A B} (f : A -> B) (l k : list A) :
  l `sublist_of` k -> List.map f l `sublist_of` List.map f k.
Proof. induction 1; simpl; [constructor | apply sublist_skip | apply sublist_cons]; assumption. Qed.

Lemma words_within_fields (ps : list jsstring) :
  Z.of_nat (length (concat (List.map wordsOf ps))) <= totalFields ps.
Proof.
  unfold totalFields. induction ps as [|p ps IH]; simpl; [lia|].
  rewrite length_app, (countFields_words p). lia.
Qed.

(** X5.  [extractRelevantSourceExcerpt] returns a source of at most
    [maxWords] words as it is.  Of a longer source it returns whole
    paragraphs: the selected paragraphs stand in the order of the source,
    none twice, their word counts sum to at most [maxWords], and so does
    the word count of the excerpt.  When the selection is empty or consists
    of empty paragraphs, the result is instead the first [6 * maxWords]
    characters of the source; this is always so for a longer source that
    has no paragraph break. *)
Theorem excerpt_is_paragraphs_within_budget
  (sourceText sectionName outlineForSection : jsstring) (maxWords : Z) :
  let result :=
    Excerpt.extractRelevantSourceExcerpt sourceText sectionName outlineForSection maxWords in
  let fallback := substring0 (Z.to_nat (maxWords * 6)) sourceText in
  (countFields sourceText <= maxWords -> result = sourceText)
  /\ (maxWords < countFields sourceText ->
      exists ps : list jsstring,
        ps `sublist_of` Words.split_paragraphs sourceText
        /\ totalFields ps <= Z.max 0 maxWords
        /\ countFields (join [lf; lf] ps) <= Z.max 1 maxWords
        /\ result = (if nonempty (join [lf; lf] ps) then join [lf; lf] ps else fallback))
  /\ (maxWords < countFields sourceText ->
      Words.split_paragraphs sourceText = [sourceText] -> result = fallback).
Proof.
  cbv zeta. unfold Excerpt.extractRelevantSourceExcerpt.
  split; [|split].
  - intros H. apply Z.leb_le in H. rewrite H. reflexivity.
  - intros H. apply Z.leb_gt in H. rewrite H.
    set (sel := Excerpt.selectedParagraphs sourceText sectionName outlineForSection maxWords).
    exists (List.map Excerpt.para sel).
    unfold Excerpt.selectedParagraphs in sel.
    set (kws := Words.dedupe [] _) in sel.
    set (scored := Excerpt.scoreAll kws 0 (Words.split_paragraphs sourceText)) in sel.
    set (taken := Excerpt.selectWithin maxWords 0 (Words.sortBy Excerpt.byScore scored)) in sel.
    assert (Hperm : sel ≡ₚ taken) by apply sortBy_Permutation.
    assert (Htaken : taken `sublist_of` Words.sortBy Excerpt.byScore scored)
      by apply selectWithin_sublist.
    assert (Hnd : NoDup taken).
    { eapply sublist_NoDup; [|exact Htaken].
      rewrite sortBy_Permutation. apply scoreAll_NoDup. }
    assert (Hbudget : totalFields (List.map Excerpt.para sel) <= Z.max 0 maxWords).
    { rewrite (totalFields_Permutation _ (List.map Excerpt.para taken))
        by (apply Permutation_map, Hperm).
      pose proof (selectWithin_budget maxWords (Words.sortBy Excerpt.byScore scored) 0) as Hb.
      fold taken in Hb. clearbody taken. clear Hperm Htaken Hnd sel.
      destruct taken as [|x taken']; [unfold totalFields; simpl; lia|].
      specialize (Hb ltac:(discriminate)). lia. }
    split; [|split; [exact Hbudget | split; [|reflexivity]]].
    + rewrite <- (scoreAll_para kws (Words.split_paragraphs sourceText) 0).
      apply sublist_map, ordered_sublist.
      * rewrite Hperm. exact Hnd.
      * apply sortBy_sorted; [apply byIdx_total | apply byIdx_trans].
      * intros x Hx. apply (Permutation_in _ Hperm) in Hx.
        apply list_elem_of_In in Hx. apply (elem_of_sublist _ _ _ Hx) in Htaken.
        apply list_elem_of_In in Htaken.
        apply (Permutation_in _ (sortBy_Permutation _ _)) in Htaken. exact Htaken.
    + rewrite countFields_words, blank_line_words.
      pose proof (words_within_fields (List.map Excerpt.para sel)). lia.
  - intros H Hone. apply Z.leb_gt in H. rewrite H.
    unfold Excerpt.selectedParagraphs. rewrite Hone.
    cbn [Excerpt.scoreAll Words.sortBy fold_right Words.insertBy Excerpt.selectWithin Excerpt.para].
    apply Z.leb_gt in H. replace (maxWords <? 0 + countFields sourceText) with true
      by (symmetry; apply Z.ltb_lt; lia).
    reflexivity.
Qed.

Lemma excerpt_is_paragraphs_within_budget_witness :
  let sourceText := str "alpha beta" ++ [lf; lf] ++ str "gamma delta epsilon" ++ [lf; lf] ++ str "zeta" in
  let result := Excerpt.extractRelevantSourceExcerpt sourceText (str "gamma") [] 3 in
  3 < countFields sourceText
  /\ exists ps : list jsstring,
       ps `sublist_of` Words.split_paragraphs sourceText
       /\ totalFields ps <= Z.max 0 3
       /\ countFields (join [lf; lf] ps) <= Z.max 1 3
       /\ result = (if nonempty (join [lf; lf] ps) then join [lf; lf] ps
                    else substring0 (Z.to_nat (3 * 6)) sourceText).
Proof.
  cbv zeta.
  assert (H : 3 < countFields (str "alpha beta" ++ [lf; lf] ++ str "gamma delta epsilon"
                                 ++ [lf; lf] ++ str "zeta")) by (vm_compute; reflexivity).
  split; [exact H|].
  destruct (excerpt_is_paragraphs_within_budget
              (str "alpha beta" ++ [lf; lf] ++ str "gamma delta epsilon" ++ [lf; lf] ++ str "zeta")
              (str "gamma") [] 3) as (_ & Hlong & _).
  exact (Hlong H).
Defined.

(** ** Key points *)

Section KeyPointLemmas.

Import KeyPoints.

Variable sectionName : jsstring.

Lemma claimLoop_spec (sentences : list jsstring) :
  forall (seen : gset jsstring) (points : list jsstring),
    exists more,
      claimLoop sectionName sentences seen points = points ++ more
      /\ more `sublist_of` List.map (point sectionName) sentences
      /\ ((length points < 8)%nat -> (length (points ++ more) <= 8)%nat).
Proof.
  induction sentences as [|s sentences IH]; intros seen points; cbn [claimLoop].
  - exists []. rewrite app_nil_r. repeat split; [constructor | lia].
  - destruct (test claimLike s && negb (bool_decide (seenKey s ∈ seen))).
    + destruct (Nat.leb 8 (length (points ++ [point sectionName s]))) eqn:Hfull.
      * exists [point sectionName s]. split; [reflexivity|]. split.
        -- simpl. apply sublist_skip, sublist_nil_l.
        -- rewrite length_app. simpl. lia.
      * destruct (IH ({[seenKey s]} ∪ seen) (points ++ [point sectionName s]))
          as (more & Heq & Hsub & Hlen).
        exists (point sectionName s :: more). rewrite Heq, <- app_assoc.
        split; [reflexivity|]. split.
        -- simpl. apply sublist_skip, Hsub.
        -- intros _. apply Nat.leb_gt in Hfull. specialize (Hlen Hfull).
           rewrite <- app_assoc in Hlen. exact Hlen.
    + destruct (IH seen points) as (more & Heq & Hsub & Hlen).
      exists more. split; [exact Heq|]. split; [|exact Hlen].
      simpl. apply sublist_cons, Hsub.
Qed.

Lemma point_length (s : jsstring) :
  length (point sectionName s) = (length sectionName + 3 + Nat.min 200 (length (trim s)))%nat.
Proof.
  unfold point, substring0.
  rewrite !length_app, length_firstn. simpl. lia.
Qed.

End KeyPointLemmas.

(** X6.  [extractKeyPoints] returns at most eight points.  They are
    sentences of the section, in the order of the text: each point is the
    section name in brackets followed by the first 200 characters at most of
    a trimmed sentence that has more than 30 characters, so that a point
    is between 34 and 203 characters longer than the section name. *)
Theorem key_points_bounded (sectionContent sectionName : jsstring) :
  let points := KeyPoints.extractKeyPoints sectionContent sectionName in
  (length points <= 8)%nat
  /\ points `sublist_of`
       List.map (KeyPoints.point sectionName) (KeyPoints.sentencesOf sectionContent)
  /\ Forall (fun pt => (length sectionName + 34 <= length pt <= length sectionName + 203)%nat)
       points.
Proof.
  cbv zeta.
  assert (Hsub : KeyPoints.extractKeyPoints sectionContent sectionName
                 `sublist_of`
                 List.map (KeyPoints.point sectionName) (KeyPoints.sentencesOf sectionContent)
                 /\ (length (KeyPoints.extractKeyPoints sectionContent sectionName) <= 8)%nat).
  { unfold KeyPoints.extractKeyPoints.
    destruct (claimLoop_spec sectionName (KeyPoints.sentencesOf sectionContent) ∅ [])
      as (more & Heq & Hsub & Hlen).
    rewrite Heq. simpl app. simpl in Hlen.
    destruct more as [|pt more].
    - split; [apply sublist_map, sublist_take|].
      rewrite length_map. pose proof (firstn_le_length 3 (KeyPoints.sentencesOf sectionContent)).
      lia.
    - split; [exact Hsub | apply Hlen; lia]. }
  destruct Hsub as [Hsub Hlen].
  split; [exact Hlen | split; [exact Hsub|]].
  apply Forall_forall. intros pt Hpt.
  apply (elem_of_sublist _ _ _ Hpt) in Hsub.
  apply list_elem_of_In, in_map_iff in Hsub as (s & <- & Hs).
  unfold KeyPoints.sentencesOf in Hs. apply filter_In in Hs as [_ Hs].
  apply Nat.ltb_lt in Hs.
  rewrite point_length. lia.
Qed.

(** ** More on the matcher *)

Section MatcherFailure.

Lemma ahead_refl (x : mstate) : ahead x x.
Proof. exists []. split; reflexivity. Qed.

Lemma ahead_trans (x y z : mstate) : ahead x y -> ahead y z -> ahead x z.
Proof.
  intros (u & Hu1 & Hu2) (v & Hv1 & Hv2). exists (u ++ v). split.
  - rewrite Hu1, Hv1, app_assoc. reflexivity.
  - rewrite Hv2, Hu2, rev_app_distr, app_assoc. reflexivity.
Qed.

Lemma ahead_caps (x y : mstate) (caps : list (nat * jsstring)) :
  ahead x y -> ahead x (MS (ms_pre y) (ms_rest y) caps).
Proof. intros (u & H1 & H2). exists u. split; assumption. Qed.

Lemma rep_fails (mr : (mstate -> option mstate) -> mstate -> option mstate) (greedy : bool) :
  (forall d x, (forall y, ahead x y -> d y = None) -> mr d x = None) ->
  forall (fuel lo : nat) (hi : option nat) (k : mstate -> option mstate) (x : mstate),
    (forall y, ahead x y -> k y = None) ->
    rep mr k greedy fuel lo hi x = None.
Proof.
  intros Hmr. induction fuel as [|fuel IH]; intros lo hi k x Hk; [reflexivity|].
  rewrite rep_S. cbv zeta.
  assert (Hx : k x = None) by apply Hk, ahead_refl.
  assert (Hd : mr (fun y : mstate =>
                     if Nat.eqb lo 0 && Nat.eqb (length (ms_rest y)) (length (ms_rest x))
                     then None
                     else rep mr k greedy fuel (Nat.pred lo) (dec_hi hi) y) x = None).
  { apply Hmr. intros y Hy.
    destruct (Nat.eqb lo 0 && Nat.eqb (length (ms_rest y)) (length (ms_rest x)));
      [reflexivity|].
    apply IH. intros z Hz. apply Hk. exact (ahead_trans _ _ _ Hy Hz). }
  rewrite Hd, Hx. destruct (hi_is_zero hi), (negb (Nat.eqb lo 0)), greedy; reflexivity.
Qed.

(** A match needs its continuation: when the continuation fails at every
    state ahead, so does the matcher. *)
Lemma m_fails (r : regex) :
  forall (k : mstate -> option mstate) (x : mstate),
    (forall y, ahead x y -> k y = None) -> m r k x = None.
Proof.
  induction r as [|p|a IHa b IHb|a IHa b IHb|lo hi greedy r IHr|n r IHr|ml|ml|];
    intros k x Hk.
  - apply Hk, ahead_refl.
  - cbn [m]. destruct x as [pre rest caps]. cbn [ms_rest ms_pre ms_caps] in *.
    destruct rest as [|c rest]; [reflexivity|]. destruct (p c); [|reflexivity].
    apply Hk. exists [c]. split; reflexivity.
  - cbn [m]. apply IHa. intros y Hy. apply IHb. intros z Hz.
    apply Hk. exact (ahead_trans _ _ _ Hy Hz).
  - cbn [m]. rewrite (IHa k x Hk), (IHb k x Hk). reflexivity.
  - rewrite m_rep. apply rep_fails; [exact IHr | exact Hk].
  - cbn [m]. apply IHr. intros y Hy. apply Hk, ahead_caps, Hy.
  - cbn [m]. rewrite (Hk x (ahead_refl x)). destruct (ms_pre x) as [|c ?]; [reflexivity|].
    destruct (ml && is_line_terminator c); reflexivity.
  - cbn [m]. rewrite (Hk x (ahead_refl x)). destruct (ms_rest x) as [|c ?]; [reflexivity|].
    destruct (ml && is_line_terminator c); reflexivity.
  - cbn [m]. rewrite (Hk x (ahead_refl x)). destruct (at_word_boundary x); reflexivity.
Qed.

(** A pattern that ends with a code unit of a class does not match where
    no code unit of the class lies ahead. *)
Lemma m_needs_char (r : regex) (p : char -> bool) (k : mstate -> option mstate) (x : mstate) :
  forallb (fun c => negb (p c)) (ms_rest x) = true ->
  m (Seq r (Chr p)) k x = None.
Proof.
  intros Hp. cbn [m]. apply m_fails. intros y (u & Hu & _).
  destruct y as [pre rest caps]. cbn [ms_rest] in Hu. cbn [m ms_rest].
  destruct rest as [|c rest]; [reflexivity|].
  rewrite Hu, forallb_app in Hp. apply andb_prop in Hp as [_ Hp].
  simpl in Hp. apply andb_prop in Hp as [Hc _]. apply negb_true_iff in Hc.
  rewrite Hc. reflexivity.
Qed.

(** The search finds nothing where no position matches, and something
    where a position matches. *)
Lemma search_from_none (r : regex) :
  forall (rest : jsstring) (fuel : nat) (pre : jsstring) (caps : list (nat * jsstring)),
    (forall u v, rest = u ++ v -> match_at r (MS (rev u ++ pre) v []) = None) ->
    search_from fuel r (MS pre rest caps) = None.
Proof.
  induction rest as [|c rest IH]; intros fuel pre caps H.
  - assert (H0 : match_at r (MS pre [] caps) = None) by exact (H [] [] eq_refl).
    destruct fuel; simpl; rewrite H0; reflexivity.
  - assert (H0 : match_at r (MS pre (c :: rest) caps) = None) by exact (H [] (c :: rest) eq_refl).
    destruct fuel; cbn [search_from]; rewrite H0; [reflexivity|].
    cbn [ms_rest ms_pre]. apply IH. intros u v Huv.
    specialize (H (c :: u) v). simpl in H. rewrite <- app_assoc in H. apply H.
    rewrite Huv. reflexivity.
Qed.

Lemma search_from_some (r : regex) (res : rmatch) :
  forall (u v : jsstring) (fuel : nat) (pre : jsstring) (caps : list (nat * jsstring)),
    match_at r (MS (rev u ++ pre) v []) = Some res ->
    exists res', search_from (length u + fuel) r (MS pre (u ++ v) caps) = Some res'.
Proof.
  induction u as [|c u IH]; intros v fuel pre caps H.
  - exists res. apply search_from_hit. exact H.
  - cbn [length Nat.add app search_from].
    destruct (match_at r (MS pre (c :: u ++ v) caps)) as [res0|] eqn:H0;
      [exists res0; reflexivity|].
    cbn [ms_rest ms_pre]. apply IH. simpl in H. rewrite <- app_assoc in H. exact H.
Qed.

Lemma test_found (r : regex) (u v : jsstring) (res : rmatch) :
  match_at r (MS (rev u) v []) = Some res -> test r (u ++ v) = true.
Proof.
  intros H. unfold test, exec, search. cbn [ms_rest].
  rewrite <- (app_nil_r (rev u)) in H.
  destruct (search_from_some r res u v (length v) [] [] H) as (res' & Hres).
  rewrite length_app, Hres. reflexivity.
Qed.

End MatcherFailure.

(** ** [parseWordCountFromString] *)

Section WordCountText.

(** A repetition of a class that the text ahead cannot feed is passed
    over. *)
Lemma star_class_stop (p : char -> bool) (k : mstate -> option mstate)
  (pre rest : jsstring) (caps : list (nat * jsstring)) :
  stops p rest -> m (star (Chr p)) k (MS pre rest caps) = k (MS pre rest caps).
Proof.
  intros Hstop. unfold star. rewrite m_rep. cbn [ms_rest].
  replace (0 + length rest + 1)%nat with (S (length rest)) by lia.
  rewrite rep_S. cbn [hi_is_zero Nat.eqb negb]. cbv zeta.
  rewrite (m_chr_stop p _ pre rest caps Hstop). reflexivity.
Qed.

(** A repetition of a class fails when the continuation fails after every
    number of code units that it may take. *)
Lemma rep_class_fails (p : char -> bool) (k : mstate -> option mstate)
  (tail : jsstring) (caps : list (nat * jsstring)) :
  forall (fuel : nat) (run : jsstring) (lo : nat) (pre : jsstring),
    forallb p run = true ->
    stops p tail ->
    (forall u v, run = u ++ v -> (lo <= length u)%nat ->
       k (MS (rev u ++ pre) (v ++ tail) caps) = None) ->
    rep (m (Chr p)) k true fuel lo None (MS pre (run ++ tail) caps) = None.
Proof.
  induction fuel as [|fuel IH]; intros run lo pre Hrun Hstop Hk; [reflexivity|].
  rewrite rep_S. cbn [hi_is_zero]. cbv zeta.
  assert (Hd : m (Chr p)
                 (fun y : mstate =>
                    if Nat.eqb lo 0
                       && Nat.eqb (length (ms_rest y)) (length (ms_rest (MS pre (run ++ tail) caps)))
                    then None
                    else rep (m (Chr p)) k true fuel (Nat.pred lo) (dec_hi None) y)
                 (MS pre (run ++ tail) caps) = None).
  { destruct run as [|c run].
    - apply m_chr_stop. exact Hstop.
    - simpl in Hrun. apply andb_prop in Hrun as [Hc Hrun].
      cbn [app]. rewrite (m_chr_ok p _ pre (run ++ tail) caps c Hc).
      cbn [ms_rest length].
      replace (Nat.eqb (length (run ++ tail)) (S (length (run ++ tail)))) with false
        by (symmetry; apply Nat.eqb_neq; lia).
      rewrite andb_false_r. cbn [dec_hi].
      apply IH; [exact Hrun | exact Hstop |].
      intros u v Huv Hlo. specialize (Hk (c :: u) v).
      cbn [rev] in Hk. rewrite <- app_assoc in Hk. apply Hk.
      + rewrite Huv. reflexivity.
      + simpl. lia. }
  rewrite Hd.
  destruct (Nat.eqb lo 0) eqn:Hlo; cbn [negb]; [|reflexivity].
  cbn [orElse]. apply Nat.eqb_eq in Hlo. apply (Hk [] run eq_refl). simpl. lia.
Qed.

Lemma plus_class_fails (p : char -> bool) (k : mstate -> option mstate)
  (run tail pre : jsstring) (caps : list (nat * jsstring)) :
  forallb p run = true ->
  stops p tail ->
  (forall u v, run = u ++ v -> u <> [] -> k (MS (rev u ++ pre) (v ++ tail) caps) = None) ->
  m (plus (Chr p)) k (MS pre (run ++ tail) caps) = None.
Proof.
  intros Hrun Hstop Hk. unfold plus. rewrite m_rep.
  apply rep_class_fails; [exact Hrun | exact Hstop |].
  intros u v Huv Hlen. apply Hk; [exact Huv|]. destruct u; [simpl in Hlen; lia | discriminate].
Qed.

(** The search passes over the positions at which the pattern does not
    match. *)
Lemma search_from_skip (r : regex) :
  forall (u v : jsstring) (fuel : nat) (pre : jsstring) (caps : list (nat * jsstring)),
    (forall u1 u2, u = u1 ++ u2 -> u2 <> [] ->
       match_at r (MS (rev u1 ++ pre) (u2 ++ v) []) = None) ->
    search_from (length u + fuel) r (MS pre (u ++ v) caps)
    = search_from fuel r (MS (rev u ++ pre) v (match u with [] => caps | _ => [] end)).
Proof.
  induction u as [|c u IH]; intros v fuel pre caps H; [reflexivity|].
  cbn [length Nat.add app].
  assert (H0 : match_at r (MS pre (c :: u ++ v) caps) = None)
    by (apply (H [] (c :: u)); [reflexivity | discriminate]).
  rewrite search_from_miss by exact H0.
  rewrite IH.
  - cbn [rev]. rewrite <- app_assoc. destruct u; reflexivity.
  - intros u1 u2 Hu Hne. specialize (H (c :: u1) u2).
    cbn [rev] in H. rewrite <- app_assoc in H. apply H; [|exact Hne].
    rewrite Hu. reflexivity.
Qed.

Lemma kMatch_shape (k : mstate -> option mstate) (x : mstate) :
  m kMatch_pattern k x
  = m (Seq (Seq (Group 1 (plus (Chr dot_digit))) (star ws)) (Chr isK)) k x.
Proof. reflexivity. Qed.

Lemma kMatch_absent (s : jsstring) :
  forallb (fun c => negb (isK c)) s = true -> exec kMatch_pattern s = None.
Proof.
  intros H. unfold exec, search. apply search_from_none. intros u v Huv.
  apply match_at_none. cbn [ms_pre ms_rest]. rewrite kMatch_shape.
  apply m_needs_char. cbn [ms_rest]. subst s.
  rewrite forallb_app in H. apply andb_prop in H as [_ H]. exact H.
Qed.

Lemma isK_cases (kc : char) : isK kc = true -> kc = 75%N \/ kc = 107%N.
Proof.
  unfold isK, upper, is_lower. intros H.
  destruct ((97 <=? kc)%N && (kc <=? 122)%N) eqn:E.
  - apply andb_prop in E as [E1 E2]. apply N.leb_le in E1, E2. apply N.eqb_eq in H. right. lia.
  - apply N.eqb_eq in H. left. exact H.
Qed.

Lemma kMatch_here (run : jsstring) (kc : char) (pre post : jsstring) :
  run <> [] -> forallb dot_digit run = true -> isK kc = true ->
  m kMatch_pattern (fun y => Some y) (MS pre (run ++ kc :: post) [])
  = Some (MS (kc :: rev run ++ pre) post [(1%nat, run)]).
Proof.
  intros Hne Hrun Hk.
  assert (Hkc : dot_digit kc = false /\ is_space kc = false).
  { destruct (isK_cases kc Hk) as [-> | ->]; split; reflexivity. }
  destruct Hkc as [Hkd Hks].
  rewrite kMatch_shape, !m_seq, m_group.
  apply plus_class_run; [exact Hne | exact Hrun | exact Hkd |].
  cbn [ms_pre ms_rest ms_caps].
  rewrite firstn_app_sub. unfold Regex.ws.
  rewrite star_class_stop by exact Hks.
  rewrite (m_chr_ok isK _ _ post _ kc Hk). reflexivity.
Qed.

Lemma digit_cases (c : char) :
  is_digit c = true ->
  In c [48; 49; 50; 51; 52; 53; 54; 55; 56; 57]%N.
Proof. intros H. apply is_digit_range in H. simpl. lia. Qed.

Lemma digit_classes (c : char) :
  is_digit c = true ->
  dot_digit c = true /\ is_space c = false /\ isK c = false /\ (c =? 44)%N = false
  /\ (c =? 46)%N = false.
Proof.
  intros H. apply digit_cases in H. simpl in H.
  repeat (destruct H as [<- | H]; [repeat split; reflexivity|]). contradiction.
Qed.

Lemma digits_not_K (ds : jsstring) :
  forallb is_digit ds = true -> forallb (fun c => negb (isK c)) ds = true.
Proof.
  intros H. apply forallb_forall. intros c Hc.
  rewrite forallb_forall in H. destruct (digit_classes c (H c Hc)) as (_ & _ & -> & _).
  reflexivity.
Qed.

Lemma digits_dot_digit (ds : jsstring) :
  forallb is_digit ds = true -> forallb dot_digit ds = true.
Proof.
  intros H. apply forallb_forall. intros c Hc.
  rewrite forallb_forall in H. destruct (digit_classes c (H c Hc)) as (-> & _). reflexivity.
Qed.

(** Where the pattern for the shorthand finds its match: after a part
    [skip] of the text in which no position matches. *)
Lemma kMatch_value (skip run : jsstring) (kc : char) :
  run <> [] -> forallb dot_digit run = true -> isK kc = true ->
  (forall u1 u2, skip = u1 ++ u2 -> u2 <> [] ->
     match_at kMatch_pattern (MS (rev u1 ++ []) (u2 ++ run ++ [kc]) []) = None) ->
  parseWordCountFromString (skip ++ run ++ [kc])
  = match parseFloat run with
    | Some q => Int (round (q * inject_Z 1000))
    | None => NaN
    end.
Proof.
  intros Hne Hrun Hk Hskip. unfold parseWordCountFromString, exec, search. cbn [ms_rest].
  rewrite length_app, (search_from_skip _ skip (run ++ [kc]) _ [] [] Hskip).
  assert (Hm : match_at kMatch_pattern
                 (MS (rev skip ++ []) (run ++ [kc]) (match skip with [] => [] | _ => [] end))
               = Some (RM (length (rev skip ++ []))
                          (firstn (length (run ++ [kc]) - 0) (run ++ [kc]))
                          [(1%nat, run)]
                          (MS (kc :: rev run ++ rev skip ++ []) [] [(1%nat, run)]))).
  { unfold match_at. cbn [ms_pre ms_rest].
    rewrite (kMatch_here run kc _ [] Hne Hrun Hk). reflexivity. }
  rewrite (search_from_hit _ _ _ _ Hm). cbn [rm_caps cap Nat.eqb]. reflexivity.
Qed.

(** At a digit of a group that a comma ends, the pattern does not match. *)
Lemma kMatch_fails_before_comma (a2 pre rest : jsstring) :
  forallb is_digit a2 = true ->
  match_at kMatch_pattern (MS pre (a2 ++ 44%N :: rest) []) = None.
Proof.
  intros Ha. apply match_at_none. cbn [ms_pre ms_rest].
  rewrite kMatch_shape, !m_seq, m_group.
  apply plus_class_fails; [apply digits_dot_digit, Ha | reflexivity |].
  intros u v Huv Hu. cbn [ms_pre ms_rest ms_caps]. unfold Regex.ws.
  assert (Hhead : stops is_space (v ++ 44%N :: rest) /\ stops isK (v ++ 44%N :: rest)).
  { destruct v as [|c v]; [split; reflexivity|]. cbn [app stops].
    assert (Hc : is_digit c = true).
    { rewrite forallb_forall in Ha. apply Ha. rewrite Huv. apply in_or_app. right. left.
      reflexivity. }
    destruct (digit_classes c Hc) as (_ & -> & -> & _). split; reflexivity. }
  destruct Hhead as [Hsp HK].
  rewrite star_class_stop by exact Hsp.
  apply m_chr_stop. exact HK.
Qed.

Lemma take_digits_stop (a r : jsstring) (c : char) :
  forallb is_digit a = true -> is_digit c = false -> take_digits (a ++ c :: r) = (a, c :: r).
Proof.
  intros Ha Hc. induction a as [|d a IH]; cbn [app take_digits].
  - rewrite Hc. reflexivity.
  - simpl in Ha. apply andb_prop in Ha as [Hd Ha]. rewrite Hd, (IH Ha). reflexivity.
Qed.

Lemma parseInt_digits (a : jsstring) :
  a <> [] -> forallb is_digit a = true -> parseInt a = Int (digits_val a).
Proof.
  intros Hne Ha. unfold parseInt. rewrite (take_digits_all a Ha).
  destruct a; [congruence | reflexivity].
Qed.

Lemma parseInt_fraction (a r : jsstring) (c : char) :
  a <> [] -> forallb is_digit a = true -> is_digit c = false ->
  parseInt (a ++ c :: r) = Int (digits_val a).
Proof.
  intros Hne Ha Hc. unfold parseInt. rewrite (take_digits_stop a r c Ha Hc).
  destruct a; [congruence | reflexivity].
Qed.

Lemma remove_commas_app (a b : jsstring) :
  remove_commas (a ++ b) = remove_commas a ++ remove_commas b.
Proof. unfold remove_commas. apply List.filter_app. Qed.

(** The value of [digits.digits] with up to three digits after the point,
    in thousands. *)
Lemma parseFloat_fraction (a b : jsstring) :
  a <> [] -> forallb is_digit a = true -> b <> [] -> forallb is_digit b = true ->
  (length b <= 3)%nat ->
  exists q, parseFloat (a ++ 46%N :: b) = Some q
    /\ (q * inject_Z 1000 ==
         inject_Z (1000 * digits_val a + 10 ^ (3 - Z.of_nat (length b)) * digits_val b))%Q.
Proof.
  intros Hane Ha Hbne Hb Hlen.
  assert (Hpf : parseFloat (a ++ 46%N :: b)
                = Some (inject_Z (digits_val a)
                        + inject_Z (digits_val b) / inject_Z (10 ^ Z.of_nat (length b)))%Q).
  { pose proof (take_digits_stop a b 46%N Ha eq_refl) as Ht.
    unfold parseFloat. unfold jsstring, char in *.
    rewrite Ht, (take_digits_all b Hb). cbn [fst].
    destruct a; [congruence | reflexivity]. }
  rewrite Hpf. eexists. split; [reflexivity|].
  set (A := digits_val a).
  destruct b as [|b1 [|b2 [|b3 [|b4 b]]]]; [congruence | | | | simpl in Hlen; lia];
    set (V := digits_val _);
    unfold Qeq, Qplus, Qdiv, Qmult, Qinv, inject_Z; cbn [Qnum Qden length Z.of_nat];
    simpl; lia.
Qed.

End WordCountText.

Lemma suffix_of_snoc {A} (a u1 u2 : list A) (x : A) :
  a ++ [x] = u1 ++ u2 -> u2 <> [] -> exists a2, u2 = a2 ++ [x] /\ a = u1 ++ a2.
Proof.
  intros H Hne. destruct (exists_last Hne) as (u2' & y & ->).
  rewrite app_assoc in H. apply app_inj_tail in H as [-> ->].
  exists u2'. split; reflexivity.
Qed.

Lemma parseInt_no_digit (s : jsstring) :
  forallb (fun c => (c =? 44) || (c =? 46))%N s = true -> parseInt (remove_commas s) = NaN.
Proof.
  induction s as [|c s IH]; [reflexivity|]. simpl. intros H.
  apply andb_prop in H as [Hc H]. apply orb_prop in Hc as [Hc | Hc]; apply N.eqb_eq in Hc; subst c.
  - exact (IH H).
  - reflexivity.
Qed.

(** X7.  What [parseWordCountFromString] makes of the count texts
    that the structure patterns capture (digits, commas, dots, a [k] at
    the end).  Without a [k] the text is read as an integer after the
    commas are removed, so that a fraction is dropped ([3.500] is 3).  With
    a [k] the number read is the run of digits and dots that ends at the
    [k], in thousands: a group before a comma is lost ([2,5k] is 5000).  A
    text of commas and dots only gives [NaN]. *)
Theorem word_count_text_value (a b : jsstring) (kc : char) :
  a <> [] -> forallb is_digit a = true ->
  b <> [] -> forallb is_digit b = true ->
  isK kc = true ->
  1000 * digits_val (a ++ b) < 2 ^ 53 ->
  parseWordCountFromString a = Int (digits_val a)
  /\ parseWordCountFromString (a ++ str "," ++ b) = Int (digits_val (a ++ b))
  /\ parseWordCountFromString (a ++ str "." ++ b) = Int (digits_val a)
  /\ parseWordCountFromString (a ++ [kc]) = Int (1000 * digits_val a)
  /\ ((length b <= 3)%nat ->
      parseWordCountFromString (a ++ str "." ++ b ++ [kc])
      = Int (1000 * digits_val a + 10 ^ (3 - Z.of_nat (length b)) * digits_val b))
  /\ parseWordCountFromString (a ++ str "," ++ b ++ [kc]) = Int (1000 * digits_val b)
  /\ (forall s, forallb (fun c => (c =? 44) || (c =? 46))%N s = true ->
        parseWordCountFromString s = NaN).
Proof.
  intros Hane Ha Hbne Hb Hk _.
  change (str ",") with ([44%N] : jsstring). change (str ".") with ([46%N] : jsstring).
  assert (HaK := digits_not_K a Ha). assert (HbK := digits_not_K b Hb).
  assert (Hnok : forall s, forallb (fun c => negb (isK c)) s = true ->
                   parseWordCountFromString s = parseInt (remove_commas s)).
  { intros s Hs. unfold parseWordCountFromString. rewrite (kMatch_absent s Hs). reflexivity. }
  assert (Hthousand : forall q z, (q == inject_Z z)%Q ->
                        round (q * inject_Z 1000) = 1000 * z).
  { intros q z Hq. apply round_int. rewrite Hq, <- inject_Z_mult.
    replace (z * 1000) with (1000 * z) by lia. reflexivity. }
  repeat split.
  - rewrite (Hnok a HaK), (remove_commas_digits a Ha). apply parseInt_digits; assumption.
  - rewrite Hnok.
    + rewrite !remove_commas_app, (remove_commas_digits a Ha), (remove_commas_digits b Hb).
      cbn [remove_commas List.filter N.eqb negb app].
      apply parseInt_digits; [destruct a; [congruence | discriminate]|].
      rewrite forallb_app. apply andb_true_intro. split; assumption.
    + rewrite !forallb_app. repeat (apply andb_true_intro; split); try assumption; reflexivity.
  - rewrite Hnok.
    + rewrite !remove_commas_app, (remove_commas_digits a Ha), (remove_commas_digits b Hb).
      cbn [remove_commas List.filter N.eqb negb app].
      apply parseInt_fraction; [assumption | assumption | reflexivity].
    + rewrite !forallb_app. repeat (apply andb_true_intro; split); try assumption; reflexivity.
  - etransitivity.
    + apply (kMatch_value [] a kc Hane (digits_dot_digit a Ha) Hk).
      intros u1 u2 Hu Hne. destruct u1, u2; try discriminate. congruence.
    + destruct (parseFloat_digits a Hane Ha) as (q & -> & Hq).
      rewrite (Hthousand q _ Hq). reflexivity.
  - intros Hlen.
    assert (E : a ++ [46%N] ++ b ++ [kc] = [] ++ (a ++ 46%N :: b) ++ [kc])
      by (cbn [app]; rewrite <- app_assoc; reflexivity).
    apply (eq_trans (f_equal parseWordCountFromString E)). clear E.
    etransitivity.
    + apply (kMatch_value [] (a ++ 46%N :: b) kc).
      * destruct a; [congruence | discriminate].
      * rewrite forallb_app. cbn [forallb].
        repeat (apply andb_true_intro; split); try (apply digits_dot_digit; assumption);
          reflexivity.
      * exact Hk.
      * intros u1 u2 Hu Hne. destruct u1, u2; try discriminate. congruence.
    + destruct (parseFloat_fraction a b Hane Ha Hbne Hb Hlen) as (q & -> & Hq).
      rewrite (round_int _ _ Hq). reflexivity.
  - assert (E : a ++ [44%N] ++ b ++ [kc] = (a ++ [44%N]) ++ b ++ [kc])
      by (rewrite <- app_assoc; reflexivity).
    apply (eq_trans (f_equal parseWordCountFromString E)). clear E.
    etransitivity.
    + apply (kMatch_value (a ++ [44%N]) b kc Hbne (digits_dot_digit b Hb) Hk).
      intros u1 u2 Hu Hne. destruct (suffix_of_snoc _ _ _ _ Hu Hne) as (a2 & -> & Ha2).
      rewrite <- app_assoc. apply kMatch_fails_before_comma.
      rewrite Ha2, forallb_app in Ha. apply andb_prop in Ha as [_ Ha]. exact Ha.
    + destruct (parseFloat_digits b Hbne Hb) as (q & -> & Hq).
      rewrite (Hthousand q _ Hq). reflexivity.
  - intros s Hs. rewrite Hnok; [apply parseInt_no_digit, Hs|].
    apply forallb_forall. intros c Hc. rewrite forallb_forall in Hs.
    specialize (Hs c Hc). apply orb_prop in Hs as [Hs | Hs]; apply N.eqb_eq in Hs; subst c;
      reflexivity.
Qed.

Lemma word_count_text_value_witness :
  parseWordCountFromString (str "3,500") = Int 3500
  /\ parseWordCountFromString (str "3.500") = Int 3
  /\ parseWordCountFromString (str "3k") = Int 3000
  /\ parseWordCountFromString (str "3,500k") = Int 500000.
Proof.
  destruct (word_count_text_value (str "3") (str "500") 107%N) as (_ & H1 & H2 & H3 & _ & H5 & _).
  - discriminate.
  - reflexivity.
  - discriminate.
  - reflexivity.
  - reflexivity.
  - reflexivity.
  - exact (conj H1 (conj H2 (conj H3 H5))).
Defined.

(** ** The entry test *)

Section EntryTest.



Lemma expand_to_matches (pre e w t post : jsstring) :
  toUpperCase e = str "EXPAND" -> forallb is_space w = true -> toUpperCase t = str "TO" ->
  exists y,
    m (seqs [liti "EXPAND"; star Regex.ws; liti "TO"]) (fun y => Some y)
      (MS pre (e ++ w ++ t ++ post) []) = Some y.
Proof.
  intros He Hw Ht. eexists. cbn [seqs]. rewrite !m_seq.
  apply (liti_then "EXPAND" e); [discriminate | exact He |].
  unfold Regex.ws. apply (star_class_run is_space _ _ w (t ++ post)); [exact Hw | |].
  - destruct t as [|t1 t]; [discriminate|]. cbn [app stops].
    unfold toUpperCase in Ht. simpl in Ht. injection Ht as Ht1 _.
    unfold upper in Ht1. destruct (is_lower t1) eqn:Hl.
    + unfold is_lower in Hl. apply andb_prop in Hl as [H1 H2].
      apply N.leb_le in H1, H2. assert (t1 = 116%N) by lia. subst t1. reflexivity.
    + subst t1. reflexivity.
  - apply (liti_then "TO" t post); [discriminate | exact Ht |]. reflexivity.
Qed.

End EntryTest.



(** X9.  A text that holds [EXPAND], white space or none, and [TO],
    in any case of the letters, passes the entry test, whatever else it
    says and whether or not a number follows. *)
Theorem entry_test_expand_to (pre e w t post : jsstring) (σ : State) :
  toUpperCase e = str "EXPAND" -> forallb is_space w = true -> toUpperCase t = str "TO" ->
  fst (Entry.hasExpansionInstructions (Some (pre ++ e ++ w ++ t ++ post)) σ) = true.
Proof.
  intros He Hw Ht.
  assert (Htest : test (seqs [liti "EXPAND"; star Regex.ws; liti "TO"])
                    (pre ++ e ++ w ++ t ++ post) = true).
  { destruct (expand_to_matches (rev pre) e w t post He Hw Ht) as (y & Hy).
    eapply test_found. unfold match_at. cbn [ms_pre ms_rest]. rewrite Hy. reflexivity. }
  unfold Entry.hasExpansionInstructions.
  destruct (pre ++ e ++ w ++ t ++ post) as [|c s] eqn:Hs.
  - exfalso. destruct e; [discriminate|]. destruct pre; discriminate.
  - destruct (parseExpansionInstructions (c :: s) σ) as [r σ1].
    destruct (Entry.positive _); [reflexivity|].
    destruct (Nat.ltb 0 _); [reflexivity|].
    cbn [fst Entry.expansionKeywords existsb]. rewrite Htest. reflexivity.
Qed.

Lemma entry_test_expand_to_witness :
  fst (Entry.hasExpansionInstructions (Some (str "do not expand to anything")) initialState)
  = true.
Proof.
  apply (entry_test_expand_to (str "do not ") (str "expand") (str " ") (str "to")
           (str " anything") initialState); reflexivity.
Defined.

(** ** The parsed structure and the cache *)

Section StructureInvariant.

Lemma startsWith_firstn (s : jsstring) (n : nat) : startsWith s (firstn n s) = true.
Proof.
  revert n. induction s as [|c s IH]; intros [|n]; try reflexivity.
  cbn [firstn startsWith]. rewrite N.eqb_refl. apply IH.
Qed.

Lemma addSection_distinctNames (nm : jsstring) (wc : jsnum) (st : list SectionSpec) :
  distinctNames st -> distinctNames (addSection nm wc st).
Proof.
  intros [Hnd Htr]. unfold addSection. cbv zeta.
  destruct (existsb _ st) eqn:Hex; [split; assumption|].
  split.
  - rewrite List.map_app. apply NoDup_app. split; [exact Hnd | split].
    + intros x Hx Hin. cbn [List.map name] in Hin.
      apply list_elem_of_In in Hin. destruct Hin as [<- | []].
      apply list_elem_of_In, in_map_iff in Hx as (s & Hs & Hin).
      assert (Hfalse : existsb
                (fun s0 => includes (toUpperCase (name s0))
                   (substring0 (Nat.min 15 (length (toUpperCase (trim nm))))
                      (toUpperCase (trim nm)))) st = true).
      { apply existsb_exists. exists s. split; [exact Hin|].
        rewrite Hs. apply includes_head, startsWith_firstn. }
      rewrite Hfalse in Hex. discriminate.
    + cbn [List.map]. apply NoDup_singleton.
  - apply Forall_app. split; [exact Htr|]. constructor; [|constructor].
    cbn [name]. apply trim_trimmed.
Qed.

Lemma fold_distinctNames {B} (step : list SectionSpec -> B -> list SectionSpec) (l : list B) :
  (forall st b, distinctNames st -> distinctNames (step st b)) ->
  forall st, distinctNames st -> distinctNames (fold_left step l st).
Proof.
  intros Hstep. induction l as [|b l IH]; intros st Hst; [exact Hst|].
  simpl. apply IH, Hstep, Hst.
Qed.

Lemma parseStructure_distinctNames (originalText : jsstring) :
  distinctNames (parseStructure originalText).
Proof.
  unfold parseStructure. cbv zeta. unfold forEachMatch.
  assert (Hmatch : forall (step : list SectionSpec -> rmatch -> list SectionSpec),
             (forall st mt, distinctNames st -> distinctNames (step st mt)) ->
             forall p st, distinctNames st ->
               distinctNames (fold_left step (exec_all p originalText) st)).
  { intros step Hstep p. apply fold_distinctNames, Hstep. }
  assert (Hchapter : forall numOf st mt, distinctNames st -> distinctNames (addChapterMatch numOf st mt)).
  { intros numOf st mt Hst. unfold addChapterMatch. cbv zeta. apply addSection_distinctNames, Hst. }
  apply Hmatch.
  { intros st mt Hst. unfold addChapterNoWordMatch. cbv zeta.
    destruct (existsb _ st); [exact Hst | apply addSection_distinctNames, Hst]. }
  apply Hmatch.
  { intros st mt Hst. unfold addAbbreviationMatch. cbv zeta. apply addSection_distinctNames, Hst. }
  apply fold_distinctNames.
  { intros st p Hst. apply Hmatch; [|exact Hst].
    intros st' mt Hst'. unfold addSectionMatch. cbv zeta.
    destruct (includes _ _); [exact Hst' | apply addSection_distinctNames, Hst']. }
  apply fold_distinctNames.
  { intros st p Hst. apply Hmatch; [apply Hchapter | exact Hst]. }
  apply fold_distinctNames.
  { intros st p Hst. apply Hmatch; [apply Hchapter | exact Hst]. }
  split; constructor.
Qed.

End StructureInvariant.

(** X10.  In the structure that [parseExpansionInstructions] builds for
    a text, no two sections have the same name, not even up to the case of
    the letters, and no name starts or ends with white space. *)
Theorem structure_names_distinct (s : jsstring) (σ : State) :
  parseCache σ !! s = None ->
  let p := parseExpansionInstructions s σ in
  let st := structure (deref (snd p) (fst p)) in
  NoDup (List.map (fun x => toUpperCase (name x)) st)
  /\ NoDup (List.map name st)
  /\ Forall (fun x => trim (name x) = name x) st.
Proof.
  intros Hmiss. cbv zeta. rewrite (parse_miss_deref s σ Hmiss).
  assert (H : NoDup (List.map (fun x => toUpperCase (name x)) (structure (parseFresh s)))
              /\ Forall (fun x => trim (name x) = name x) (structure (parseFresh s))).
  { unfold parseFresh. destruct s as [|c s]; [split; constructor|].
    apply parseStructure_distinctNames. }
  destruct H as [Hnd Htr]. split; [exact Hnd | split; [|exact Htr]].
  rewrite <- (List.map_map name toUpperCase) in Hnd.
  apply (NoDup_fmap_1 toUpperCase). exact Hnd.
Qed.

Lemma structure_names_distinct_witness :
  NoDup (List.map name
           (structure (deref (snd (parseExpansionInstructions romanInstruction initialState))
                         (fst (parseExpansionInstructions romanInstruction initialState))))).
Proof.
  destruct (structure_names_distinct romanInstruction initialState) as (_ & H & _).
  - reflexivity.
  - exact H.
Defined.

(** X11.  The parse cache never drops or rebinds an entry: after a call
    of [parseExpansionInstructions] for any text, a text that was cached
    before is still bound to the same object, and that object is as it
    was.  A text that was not cached gets an object of its own, different
    from every object cached before. *)
Theorem cache_keeps_entries (s s' : jsstring) (σ : State) (r : ref) (p : ParsedInstructions) :
  parseCache σ !! s = Some r ->
  heap σ !! r = Some p ->
  let out := parseExpansionInstructions s' σ in
  parseCache (snd out) !! s = Some r
  /\ heap (snd out) !! r = Some p
  /\ deref (snd out) r = p
  /\ (parseCache σ !! s' = None -> fst out <> r /\ heap σ !! fst out = None).
Proof.
  intros Hs Hr. cbv zeta. unfold parseExpansionInstructions, deref.
  destruct (parseCache σ !! s') as [r'|] eqn:Hs'; cbn [fst snd]; unfold ref in *.
  - split; [exact Hs | split; [exact Hr | split; [|discriminate]]].
    rewrite Hr. reflexivity.
  - assert (Hne : s' <> s) by congruence.
    assert (Hlen : (r < length (heap σ))%nat) by (eapply lookup_lt_Some; exact Hr).
    cbn [parseCache heap]. split; [|split; [|split; [|intros _; split]]].
    + rewrite lookup_insert_ne by exact Hne. exact Hs.
    + rewrite lookup_app_l by exact Hlen. exact Hr.
    + rewrite lookup_app_l by exact Hlen. rewrite Hr. reflexivity.
    + lia.
    + apply lookup_ge_None. lia.
Qed.

Lemma cache_keeps_entries_witness :
  let σ := snd (parseExpansionInstructions romanInstruction initialState) in
  parseCache (snd (parseExpansionInstructions twoChapters σ)) !! romanInstruction = Some 0%nat
  /\ fst (parseExpansionInstructions twoChapters σ) <> 0%nat.
Proof.
  cbv zeta.
  destruct (cache_keeps_entries romanInstruction twoChapters
              (snd (parseExpansionInstructions romanInstruction initialState)) 0%nat
              (parseFresh romanInstruction))
    as (H1 & _ & _ & H4).
  - apply parse_records.
  - reflexivity.
  - split; [exact H1|]. apply H4. vm_compute. reflexivity.
Defined.

(** ** More on the continuation loop *)

Section ContinuationContent.

Variable target : jsnum.
Variable provider : nat -> Response.

Lemma joinedAnswers_S (n : nat) :
  joinedAnswers provider (S n)
  = if Nat.eqb n 0 then trim (text (provider 0%nat))
    else joinedAnswers provider n ++ [lf; lf] ++ trim (text (provider n)).
Proof.
  unfold joinedAnswers. rewrite seq_S, List.map_app. cbn [List.map Nat.add].
  destruct n as [|n]; [reflexivity|].
  rewrite join_snoc; [reflexivity|]. simpl. discriminate.
Qed.

(** The content the loop has accumulated is the answers so far. *)
Lemma iterate_content (n : nat) (st : Gen.LoopState) :
  Gen.accumulatedContent st = joinedAnswers provider (Gen.continuationAttempts st) ->
  Gen.currentWordCount st = countWords (Gen.accumulatedContent st) ->
  let final := Gen.iterate n target provider st in
  Gen.accumulatedContent final = joinedAnswers provider (Gen.continuationAttempts final)
  /\ forall j,
       (Gen.continuationAttempts st <= j < Gen.continuationAttempts final)%nat ->
       Gen.below95 (countWords (joinedAnswers provider j)) target = true.
Proof.
  revert st. induction n as [|n IH]; intros st Hacc Hcount; cbn [Gen.iterate]; cbv zeta.
  - split; [exact Hacc | lia].
  - destruct (Gen.guard target st) eqn:Hg; [|split; [exact Hacc | lia]].
    assert (Hacc' : Gen.accumulatedContent (Gen.body provider st)
                    = joinedAnswers provider (Gen.continuationAttempts (Gen.body provider st))).
    { unfold Gen.body. cbn [Gen.accumulatedContent Gen.continuationAttempts].
      rewrite joinedAnswers_S.
      destruct (Nat.eqb (Gen.continuationAttempts st) 0) eqn:E.
      - apply Nat.eqb_eq in E. rewrite E. reflexivity.
      - rewrite Hacc. reflexivity. }
    destruct (IH (Gen.body provider st) Hacc' eq_refl) as [H1 H2].
    split; [exact H1|]. intros j Hj.
    destruct (Nat.eq_dec j (Gen.continuationAttempts st)) as [-> | Hne].
    + unfold Gen.guard in Hg. apply andb_prop in Hg as [Hg _].
      rewrite Hcount, Hacc in Hg. exact Hg.
    + apply H2. cbn [Gen.body Gen.continuationAttempts]. lia.
Qed.

End ContinuationContent.

(** X12.  The text that [generateSection] accumulates is the trimmed
    answers to its requests, in the order of the requests and joined by
    blank lines: no answer is dropped, none is used twice.  A request is
    made only when the answers before it, taken together, have fewer
    words than 95% of the target. *)
Theorem accumulated_content_is_the_answers (target : jsnum) (provider : nat -> Response) :
  let final := Gen.iterate Gen.maxContinuationAttempts target provider Gen.initial in
  let n := Gen.continuationAttempts final in
  Gen.accumulatedContent final = joinedAnswers provider n
  /\ Gen.generateSection target provider = stripSkeletonMetadata (joinedAnswers provider n)
  /\ forall j, (j < n)%nat ->
       Gen.below95 (countWords (joinedAnswers provider j)) target = true.
Proof.
  cbv zeta.
  destruct (iterate_content target provider Gen.maxContinuationAttempts Gen.initial
              eq_refl eq_refl) as [H1 H2].
  split; [exact H1 | split].
  - unfold Gen.generateSection. rewrite H1. reflexivity.
  - intros j Hj. apply H2. cbn [Gen.initial Gen.continuationAttempts]. lia.
Qed.

(** X13.  For a section whose target is zero, negative or [NaN] (a
    chapter named without a count that the distribution left at 0, or a
    count text without digits) [generateSection] makes no request and
    returns the empty text.  The job still adds the section, as its name
    and a blank line, and counts it as one word. *)
Theorem section_without_target_is_empty (env : Env) (i : nat) (s : SectionSpec) :
  no_target (wordCount s) = true ->
  Gen.iterate Gen.maxContinuationAttempts (wordCount s) (provider env i) Gen.initial
  = Gen.initial
  /\ Gen.generateSection (wordCount s) (provider env i) = []
  /\ sectionText env i s = name s ++ [lf; lf]
  /\ sectionWords env i s = 1.
Proof.
  intros H.
  assert (Hg : Gen.guard (wordCount s) Gen.initial = false).
  { unfold Gen.guard, Gen.below95. cbn [Gen.initial Gen.currentWordCount].
    destruct (wordCount s) as [|t]; [reflexivity|].
    cbn [no_target] in H. apply Z.leb_le in H.
    replace (20 * 0 <? 19 * t) with false by (symmetry; apply Z.ltb_ge; lia). reflexivity. }
  assert (Hi : Gen.iterate Gen.maxContinuationAttempts (wordCount s) (provider env i) Gen.initial
               = Gen.initial).
  { unfold Gen.maxContinuationAttempts. cbn [Gen.iterate]. rewrite Hg. reflexivity. }
  assert (Hs : Gen.generateSection (wordCount s) (provider env i) = []).
  { unfold Gen.generateSection. rewrite Hi. reflexivity. }
  split; [exact Hi | split; [exact Hs | split]].
  - unfold sectionText. rewrite Hs. reflexivity.
  - unfold sectionWords. rewrite Hs. reflexivity.
Qed.

Lemma section_without_target_is_empty_witness :
  sectionText quietEnv 0 (mkSection (str "CHAPTER 1: Intro") (Int 0))
  = str "CHAPTER 1: Intro" ++ [lf; lf]
  /\ sectionWords quietEnv 0 (mkSection (str "CHAPTER 1: Intro") (Int 0)) = 1.
Proof.
  destruct (section_without_target_is_empty quietEnv 0
              (mkSection (str "CHAPTER 1: Intro") (Int 0)) eq_refl) as (_ & _ & H1 & H2).
  split; [exact H1 | exact H2].
Defined.

(** ** Roman numerals *)

Section RomanNumerals.



Lemma romanValue_acc (l : jsstring) (acc : Z) : romanValue l acc = acc + romanValue l 0.
Proof.
  revert acc. induction l as [|c l IH]; intros acc; cbn [romanValue]; [lia|]. cbv zeta.
  destruct (romanMap c <? _).
  - rewrite (IH (acc - romanMap c)), (IH (0 - romanMap c)). lia.
  - rewrite (IH (acc + romanMap c)), (IH (0 + romanMap c)). lia.
Qed.

Lemma roman_letter_value (c : char) :
  one_of_i "IVXLCDM" c = true ->
  In (romanMap (upper c)) [1; 5; 10; 50; 100; 500; 1000].
Proof.
  unfold one_of_i. intros H. apply existsb_exists in H as (x & Hx & Hc).
  apply N.eqb_eq in Hc. rewrite Hc. simpl in Hx.
  repeat (destruct Hx as [<- | Hx]; [simpl; tauto|]). contradiction.
Qed.

(** The value of a string of Roman letters, standard or not, is at least
    the value of its first letter. *)
Lemma romanValue_bounds (l : jsstring) :
  l <> [] -> forallb (one_of_i "IVXLCDM") l = true ->
  match l with
  | [] => True
  | c :: _ => romanMap (upper c) <= romanValue (toUpperCase l) 0 <= 1000 * Z.of_nat (length l)
  end.
Proof.
  induction l as [|c l IH]; [congruence|]. intros _ H.
  cbn [forallb] in H. apply andb_prop in H as [Hc Hl].
  pose proof (roman_letter_value c Hc) as Vc.
  destruct l as [|d l].
  - cbn [toUpperCase List.map romanValue length]. cbv zeta.
    replace (romanMap (upper c) <? 0) with false
      by (symmetry; apply Z.ltb_ge; simpl in Vc; lia).
    simpl in Vc. lia.
  - specialize (IH ltac:(discriminate) Hl).
    assert (Hd : one_of_i "IVXLCDM" d = true).
    { cbn [forallb] in Hl. apply andb_prop in Hl as [Hd _]. exact Hd. }
    pose proof (roman_letter_value d Hd) as Vd.
    change (toUpperCase (c :: d :: l)) with (upper c :: toUpperCase (d :: l)).
    cbn [romanValue]. cbv zeta.
    change (match toUpperCase (d :: l) with [] => 0 | d0 :: _ => romanMap d0 end)
      with (romanMap (upper d)).
    rewrite (romanValue_acc _ (0 - _)), (romanValue_acc _ (0 + _)).
    cbn [length] in *. rewrite !Nat2Z.inj_succ in *.
    simpl in Vc, Vd.
    destruct (romanMap (upper c) <? romanMap (upper d)) eqn:E;
      [apply Z.ltb_lt in E | apply Z.ltb_ge in E]; lia.
Qed.

End RomanNumerals.



(** X15.  Whatever string of Roman letters follows [CHAPTER], standard
    numeral or not, [romanToArabic] gives the decimal text of a positive
    number, at most 1000 for every letter: no chapter is numbered 0 or
    below. *)
Theorem roman_number_is_positive (r : jsstring) :
  r <> [] -> forallb (one_of_i "IVXLCDM") r = true ->
  exists n, 1 <= n <= 1000 * Z.of_nat (length r) /\ romanToArabic r = toString n.
Proof.
  intros Hne Hr. exists (romanValue (toUpperCase r) 0). split; [|reflexivity].
  pose proof (romanValue_bounds r Hne Hr) as H.
  destruct r as [|c r]; [congruence|].
  assert (Hc : one_of_i "IVXLCDM" c = true).
  { cbn [forallb] in Hr. apply andb_prop in Hr as [Hc _]. exact Hc. }
  pose proof (roman_letter_value c Hc) as Vc. simpl in Vc. lia.
Qed.

Lemma roman_number_is_positive_witness :
  exists n, 1 <= n <= 4000 /\ romanToArabic (str "IIIX") = toString n.
Proof.
  apply (roman_number_is_positive (str "IIIX")); [discriminate | reflexivity].
Defined.

(** ** The events of a job *)

Section Stream.

Variable env : Env.
Variable req : ExpansionRequest.
Hypothesis listening : onChunk req = true.

Lemma sectionEvents_app (a b : list StreamChunk) :
  sectionEvents (a ++ b) = sectionEvents a ++ sectionEvents b.
Proof. apply flat_map_app. Qed.

Lemma streamedTexts_app (a b : list StreamChunk) :
  streamedTexts (a ++ b) = streamedTexts a ++ streamedTexts b.
Proof. apply flat_map_app. Qed.

Lemma sectionLoop_stream (total : nat) (todo : list SectionSpec) :
  forall (i : nat) (acc : Progress_),
    let out := sectionLoop env req total i todo acc in
    exists n : nat,
      (n <= length todo)%nat
      /\ sections out = sections acc ++ sectionTexts env i (firstn n todo)
      /\ flags out = flags acc ++ List.map (flagged env) (seq i n)
      /\ sectionEvents (events out)
         = sectionEvents (events acc)
           ++ loopEvents env total i (firstn n todo) (cumulativeWordCount acc)
      /\ streamedTexts (events out)
         = streamedTexts (events acc) ++ sectionTexts env i (firstn n todo)
      /\ length (List.filter isComplete (events out))
         = (length (List.filter isComplete (events acc))
            + if Nat.ltb n (length todo) then 1 else 0)%nat.
Proof.
  induction todo as [|s todo IH]; intros i acc; cbn [sectionLoop]; cbv zeta.
  - exists 0%nat. cbn [firstn sectionTexts loopEvents seq List.map length Nat.ltb Nat.leb].
    rewrite !app_nil_r. repeat split; lia.
  - destruct (limitReached (maxWords req) (cumulativeWordCount acc)).
    + exists 0%nat. cbn [firstn sectionTexts loopEvents seq List.map sections flags events].
      unfold emit. rewrite listening, sectionEvents_app, streamedTexts_app, List.filter_app.
      rewrite !app_nil_r, length_app. cbn [length Nat.ltb Nat.leb].
      repeat split; simpl; lia.
    + destruct (IH (S i) (generateOne env req total i s acc))
        as (n & Hn & Hsec & Hfl & Hev & Htx & Hco).
      exists (S n). cbn [firstn sectionTexts loopEvents length].
      rewrite Hsec, Hfl, Hev, Htx, Hco.
      unfold generateOne. cbn [sections flags events cumulativeWordCount].
      unfold emit. rewrite listening, sectionEvents_app, streamedTexts_app, List.filter_app.
      cbn [sectionEvents streamedTexts flat_map List.filter isComplete app].
      rewrite <- !app_assoc. cbn [app seq List.map].
      rewrite !app_nil_r.
      repeat split; try reflexivity; try lia.
Qed.

Lemma loopEvents_shape (total : nat) (l : list SectionSpec) :
  forall (i : nat) (c : Z),
    List.map st_index (loopEvents env total i l c) = seq i (length l)
    /\ Forall (fun e => st_total e = total) (loopEvents env total i l c)
    /\ List.map st_running (loopEvents env total i l c)
       = prefixSums c (List.map st_words (loopEvents env total i l c))
    /\ length (loopEvents env total i l c) = length l.
Proof.
  induction l as [|s l IH]; intros i c; cbn [loopEvents List.map length seq prefixSums].
  - repeat split. constructor.
  - destruct (IH (S i) (c + sectionWords env i s)) as (H1 & H2 & H3 & H4).
    cbn [st_index st_total st_words st_running].
    rewrite H1, H3, H4. repeat split. constructor; [reflexivity | exact H2].
Qed.

End Stream.

Section JobEvents.

Lemma progress_only (n : nat) :
  sectionEvents (repeat Progress n) = []
  /\ streamedTexts (repeat Progress n) = []
  /\ List.filter isComplete (repeat Progress n) = [].
Proof. induction n as [|n (H1 & H2 & H3)]; simpl; repeat split; assumption. Qed.

Lemma stitchPass_events (env : Env) (req : ExpansionRequest) (structure_ : list SectionSpec)
  (acc : Progress_) :
  let out := stitchPass env req structure_ acc in
  sectionEvents (events out) = sectionEvents (events acc)
  /\ streamedTexts (events out) = streamedTexts (events acc)
  /\ List.filter isComplete (events out) = List.filter isComplete (events acc)
  /\ ((stitchRepairs env = None \/ existsb (fun b => b) (flags acc) = false) ->
      sections out = sections acc).
Proof.
  cbv zeta. unfold stitchPass.
  destruct (existsb (fun b => b) (flags acc) && Nat.ltb 0 (length (sections acc))) eqn:E.
  - assert (Hev : forall on,
               sectionEvents (emit on Progress (events acc)) = sectionEvents (events acc)
               /\ streamedTexts (emit on Progress (events acc)) = streamedTexts (events acc)
               /\ List.filter isComplete (emit on Progress (events acc))
                  = List.filter isComplete (events acc)).
    { intros [|]; unfold emit; [|repeat split].
      rewrite sectionEvents_app, streamedTexts_app, List.filter_app. simpl.
      rewrite !app_nil_r. repeat split. }
    destruct (Hev (onChunk req)) as (H1 & H2 & H3).
    destruct (stitchRepairs env) as [repairs|]; cbn [events sections];
      (split; [exact H1 | split; [exact H2 | split; [exact H3|]]]).
    + intros [H | H]; [discriminate|]. rewrite H in E. discriminate.
    + reflexivity.
  - repeat split.
Qed.

End JobEvents.

(** X16.  What a listener of a job is told.  The [section_complete]
    events number the sections from 0 without a gap, all give the number of
    planned sections, and the running total of each is the sum of the word
    counts of the events up to it.  The job ends with a [complete] event
    that gives the output word count; when the ceiling has stopped the
    loop, so that fewer sections were streamed than planned, a first
    [complete] event came before it.  The texts streamed are the sections
    as generated: they make up the expanded text when the stitch pass
    repairs nothing. *)
Theorem streamed_sections_are_consistent (env : Env) (req : ExpansionRequest) (σ : State) :
  onChunk req = true ->
  let '(result, evs, _) := universalExpand env req σ in
  let streamed := sectionEvents evs in
  List.map st_index streamed = seq 0 (length streamed)
  /\ Forall (fun e => st_total e = sectionsGenerated result) streamed
  /\ List.map st_running streamed = prefixSums 0 (List.map st_words streamed)
  /\ (length streamed <= sectionsGenerated result)%nat
  /\ length (List.filter isComplete evs)
     = (if Nat.ltb (length streamed) (sectionsGenerated result) then 2 else 1)%nat
  /\ last evs = Some (Complete (Some (sectionsGenerated result)) None (outputWordCount result))
  /\ ((stitchRepairs env = None \/ forall i, flagged env i = false) ->
      expandedText result = join [lf; lf] (streamedTexts evs)).
Proof.
  intros Hon. unfold universalExpand.
  destruct (parseExpansionInstructions (customInstructions req) σ) as [r σ1].
  destruct (planStructure r _ σ1) as [structure_ σ2].
  cbv zeta. rewrite Hon.
  set (tier := if (50000 <? countFields (req_text req)) && true
               then tierEvents (countFields (req_text req)) else []).
  set (evs0 := emit true (Outline (length structure_))
                 (emit true Progress (emit true Progress tier))).
  assert (H0 : sectionEvents evs0 = [] /\ streamedTexts evs0 = []
               /\ List.filter isComplete evs0 = []).
  { subst evs0. unfold emit.
    rewrite !sectionEvents_app, !streamedTexts_app, !List.filter_app.
    destruct (progress_only (2 + Z.to_nat ((countFields (req_text req) + 49999) / 50000)))
      as (H1 & H2 & H3).
    subst tier. destruct ((50000 <? countFields (req_text req)) && true); unfold tierEvents;
      rewrite ?H1, ?H2, ?H3; repeat split. }
  destruct H0 as (Hse0 & Htx0 & Hco0).
  set (acc0 := mkProgress [] 0 [] evs0).
  destruct (sectionLoop_stream env req Hon (length structure_) structure_ 0 acc0)
    as (n & Hn & Hsec & Hfl & Hev & Htx & Hco).
  set (out := sectionLoop env req (length structure_) 0 structure_ acc0) in *.
  destruct (stitchPass_events env req structure_ out) as (Hse' & Htx' & Hco' & Hsame).
  set (fin := stitchPass env req structure_ out) in *.
  cbn [sectionsGenerated outputWordCount expandedText]. unfold emit.
  cbn [events cumulativeWordCount sections flags acc0] in Hev, Htx, Hco, Hsec, Hfl.
  rewrite Hse0 in Hev. rewrite Htx0 in Htx. rewrite Hco0 in Hco. cbn [app length] in Hev, Htx, Hco.
  destruct (loopEvents_shape env (length structure_) (firstn n structure_) 0 0)
    as (S1 & S2 & S3 & S4).
  assert (Hlen : length (firstn n structure_) = n) by (rewrite length_firstn; lia).
  set (done := Complete (Some (length structure_)) None
                 (countFields (join [lf; lf] (sections fin)))).
  assert (Hstream : sectionEvents (events fin ++ [done])
                    = loopEvents env (length structure_) 0 (firstn n structure_) 0).
  { rewrite sectionEvents_app, Hse', Hev. apply app_nil_r. }
  assert (Hcomp : length (List.filter isComplete (events fin ++ [done]))
                  = if Nat.ltb n (length structure_) then 2%nat else 1%nat).
  { rewrite List.filter_app, length_app, Hco', Hco.
    destruct (Nat.ltb n (length structure_)); reflexivity. }
  rewrite Hstream, Hcomp, last_snoc, S4, Hlen.
  split; [rewrite S1, Hlen; reflexivity|].
  split; [exact S2|].
  split; [exact S3|].
  split; [exact Hn|].
  split; [reflexivity|].
  split; [reflexivity|].
  intros Hquiet. rewrite streamedTexts_app. cbn [streamedTexts flat_map].
  rewrite app_nil_r, Htx', Htx. rewrite Hsame; [rewrite Hsec; reflexivity|].
  destruct Hquiet as [Hnone | Hflag]; [left; exact Hnone | right].
  rewrite Hfl. cbn [app]. clear -Hflag. generalize (seq 0 n). intros l.
  induction l as [|i l IH]; [reflexivity|]. simpl. rewrite Hflag. exact IH.
Qed.

Lemma streamed_sections_are_consistent_witness :
  let '(result, evs, _) := universalExpand quietEnv cappedRequest initialState in
  length (List.filter isComplete evs) = 2%nat
  /\ expandedText result = join [lf; lf] (streamedTexts evs).
Proof.
  pose proof (streamed_sections_are_consistent quietEnv cappedRequest initialState eq_refl) as H.
  destruct (universalExpand quietEnv cappedRequest initialState) as [[result evs] σ] eqn:E.
  destruct H as (_ & _ & _ & _ & H5 & _ & H7).
  split.
  - rewrite H5.
    replace (sectionEvents evs) with (sectionEvents (snd (fst (universalExpand quietEnv cappedRequest initialState))))
      by (rewrite E; reflexivity).
    replace (sectionsGenerated result)
      with (sectionsGenerated (fst (fst (universalExpand quietEnv cappedRequest initialState))))
      by (rewrite E; reflexivity).
    vm_compute. reflexivity.
  - apply H7. left. reflexivity.
Defined.

(** ** [stripSkeletonMetadata] *)

Section StripLemmas.

Lemma blankRun_spec (s : jsstring) :
  blankRun s = true <-> exists u v, s = u ++ [lf; lf; lf] ++ v.
Proof.
  induction s as [|a t IH].
  - split; [discriminate|]. intros (u & v & H). destruct u; discriminate.
  - cbn [blankRun]. rewrite orb_true_iff, IH. split.
    + intros [H | (u & v & ->)].
      * destruct t as [|b [|c rest]]; try discriminate.
        apply andb_prop in H as [H Hc]. apply andb_prop in H as [Ha Hb].
        apply N.eqb_eq in Ha, Hb, Hc. subst. exists [], rest. reflexivity.
      * exists (a :: u), v. reflexivity.
    + intros (u & v & H). destruct u as [|x u].
      * left. injection H as -> ->. reflexivity.
      * right. injection H as _ ->. exists u, v. reflexivity.
Qed.

Lemma blankRun_none (s : jsstring) :
  blankRun s = false <-> forall u v, s <> u ++ [lf; lf; lf] ++ v.
Proof.
  split.
  - intros H u v E. assert (Ht : blankRun s = true) by (apply blankRun_spec; eauto).
    congruence.
  - intros H. destruct (blankRun s) eqn:E; [|reflexivity].
    apply blankRun_spec in E as (u & v & E). destruct (H u v E).
Qed.

Lemma blankRun_infix (a s b : jsstring) : blankRun (a ++ s ++ b) = false -> blankRun s = false.
Proof.
  rewrite !blankRun_none. intros H u v ->. apply (H (a ++ u) (v ++ b)).
  rewrite <- !app_assoc. reflexivity.
Qed.

Lemma trim_infix (s : jsstring) : exists a b, s = a ++ trim s ++ b.
Proof.
  destruct (dropWhile_split is_space s) as (a & Ha & _).
  destruct (trimEnd_split (trimStart s)) as (b & Hb & _).
  exists a, b. unfold trim. unfold trimStart in *. rewrite <- Hb. exact Ha.
Qed.

Lemma squeeze_stop (n : nat) (tail : jsstring) :
  stops (fun x => (x =? 10)%N) tail -> squeeze n tail = squeeze 0 tail.
Proof.
  destruct tail as [|c t]; [reflexivity|]. cbn [stops squeeze]. unfold lf.
  intros ->. reflexivity.
Qed.

Lemma squeeze_lfs (tail : jsstring) :
  stops (fun x => (x =? 10)%N) tail ->
  forall (run : jsstring) (n : nat),
    forallb (fun x => (x =? 10)%N) run = true -> (n <= 2)%nat ->
    squeeze n (run ++ tail) = repeat lf (Nat.min (length run) (2 - n)) ++ squeeze 0 tail.
Proof.
  intros Hstop. induction run as [|c run IH]; intros n Hrun Hn.
  - apply squeeze_stop, Hstop.
  - cbn [forallb] in Hrun. apply andb_prop in Hrun as [Hc Hrun].
    cbn [app squeeze length]. unfold lf at 1. rewrite Hc.
    apply N.eqb_eq in Hc. subst c.
    destruct (2 <=? n)%nat eqn:E.
    + apply Nat.leb_le in E. rewrite (IH n Hrun Hn).
      replace (2 - n)%nat with 0%nat by lia. rewrite !Nat.min_0_r. reflexivity.
    + apply Nat.leb_gt in E. rewrite (IH (S n) Hrun) by lia.
      replace (2 - n)%nat with (S (2 - S n)) by lia.
      rewrite <- Nat.succ_min_distr. reflexivity.
Qed.

Lemma blankRun_squeeze (s : jsstring) :
  forall n, (n <= 2)%nat -> blankRun (repeat lf n ++ squeeze n s) = false.
Proof.
  induction s as [|c s IH]; intros n Hn.
  - cbn [squeeze]. rewrite app_nil_r.
    destruct n as [|[|[|n]]]; [reflexivity | reflexivity | reflexivity | lia].
  - cbn [squeeze]. destruct (c =? lf)%N eqn:Hc.
    + apply N.eqb_eq in Hc. subst c. destruct (2 <=? n)%nat eqn:E.
      * apply IH, Hn.
      * apply Nat.leb_gt in E.
        replace (repeat lf n ++ lf :: squeeze (S n) s)
          with (repeat lf (S n) ++ squeeze (S n) s)
          by (cbn [repeat]; rewrite repeat_cons, <- app_assoc; reflexivity).
        apply IH. lia.
    + pose proof (IH 0%nat ltac:(lia)) as H0. cbn [repeat app] in H0.
      assert (Hc' : (lf =? c)%N = false) by (rewrite N.eqb_sym; exact Hc).
      destruct n as [|[|[|n]]]; [| | | lia]; cbn [repeat app blankRun];
        rewrite ?Hc, ?Hc', ?andb_false_r, ?andb_false_l, H0;
        destruct (squeeze 0 s) as [|? [|? ?]]; reflexivity.
Qed.

(** The search reports a position at or after the one it starts from. *)
Lemma search_from_index (r : regex) (res : rmatch) :
  forall (fuel : nat) (st : mstate),
    search_from fuel r st = Some res -> (length (ms_pre st) <= rm_index res)%nat.
Proof.
  induction fuel as [|fuel IH]; intros st H; cbn [search_from] in H;
    destruct (match_at r st) as [res0|] eqn:E.
  - injection H as <-. unfold match_at in E.
    destruct (m r _ _); [injection E as <-; simpl; lia | discriminate].
  - discriminate.
  - injection H as <-. unfold match_at in E.
    destruct (m r _ _); [injection E as <-; simpl; lia | discriminate].
  - destruct (ms_rest st) as [|c rest]; [discriminate|].
    apply IH in H. cbn [ms_pre length] in H. lia.
Qed.

(** A replacement passes over a position at which the pattern does not
    match. *)
Lemma replace_all_skip (r : regex) (by_ pre rest : jsstring) (c : char)
  (caps : list (nat * jsstring)) (fuel : nat) :
  match_at r (MS pre (c :: rest) caps) = None ->
  replace_all_from (S fuel) r by_ (MS pre (c :: rest) caps)
  = c :: replace_all_from (S fuel) r by_ (MS (c :: pre) rest []).
Proof.
  intros Hmiss. cbn [replace_all_from]. unfold search. cbn [ms_rest ms_pre length].
  rewrite (search_from_miss _ _ _ _ _ _ Hmiss).
  destruct (search_from (length rest) r (MS (c :: pre) rest [])) as [res|] eqn:E;
    [|reflexivity].
  destruct (rm_text res); [reflexivity|].
  apply search_from_index in E. cbn [ms_pre length] in E.
  replace (rm_index res - length pre)%nat with (S (rm_index res - S (length pre))) by lia.
  reflexivity.
Qed.

(** [/\n{3,}/] does not match at a run of fewer than three line feeds. *)
Lemma blank_lines_miss (run tail pre : jsstring) (caps : list (nat * jsstring)) :
  forallb (fun x => (x =? 10)%N) run = true ->
  stops (fun x => (x =? 10)%N) tail ->
  (length run < 3)%nat ->
  match_at blank_lines (MS pre (run ++ tail) caps) = None.
Proof.
  intros Hrun Hstop Hlen. apply match_at_none. cbn [ms_pre ms_rest].
  unfold blank_lines, ch. rewrite m_rep.
  apply rep_class_fails; [exact Hrun | exact Hstop |].
  intros u v -> Hu. rewrite length_app in Hlen. lia.
Qed.

(** It takes a run of three line feeds or more as a whole. *)
Lemma blank_lines_hit (run tail pre : jsstring) (caps : list (nat * jsstring)) :
  forallb (fun x => (x =? 10)%N) run = true ->
  stops (fun x => (x =? 10)%N) tail ->
  (3 <= length run)%nat ->
  match_at blank_lines (MS pre (run ++ tail) caps)
  = Some (RM (length pre) run [] (MS (rev run ++ pre) tail [])).
Proof.
  intros Hrun Hstop Hlen.
  destruct run as [|c1 [|c2 [|c3 run]]]; try (simpl in Hlen; lia).
  cbn [forallb] in Hrun.
  apply andb_prop in Hrun as [H1 Hrun]. apply andb_prop in Hrun as [H2 Hrun].
  apply andb_prop in Hrun as [H3 Hrun].
  unfold match_at. cbn [ms_pre ms_rest].
  assert (Hm : m blank_lines (fun y => Some y) (MS pre ((c1 :: c2 :: c3 :: run) ++ tail) [])
               = Some (MS (rev (c1 :: c2 :: c3 :: run) ++ pre) tail [])).
  { unfold blank_lines, ch. rewrite m_rep. cbn [ms_rest app length Nat.add].
    rewrite rep_S. cbn [hi_is_zero Nat.eqb negb]. cbv zeta.
    rewrite (m_chr_ok (fun x => (x =? 10)%N) _ _ _ _ c1 H1). cbn [andb dec_hi Nat.pred].
    rewrite rep_S. cbn [hi_is_zero Nat.eqb negb]. cbv zeta.
    rewrite (m_chr_ok (fun x => (x =? 10)%N) _ _ _ _ c2 H2). cbn [andb dec_hi Nat.pred].
    rewrite rep_S. cbn [hi_is_zero Nat.eqb negb]. cbv zeta.
    rewrite (m_chr_ok (fun x => (x =? 10)%N) _ _ _ _ c3 H3). cbn [andb dec_hi Nat.pred].
    apply rep_class_run; [lia | exact Hrun | exact Hstop |].
    cbn [rev]. rewrite <- !app_assoc. reflexivity. }
  rewrite Hm. cbn [ms_rest ms_caps]. f_equal. f_equal.
  rewrite length_app.
  replace (length (c1 :: c2 :: c3 :: run) + length tail - length tail)%nat
    with (length (c1 :: c2 :: c3 :: run)) by lia.
  rewrite firstn_app, firstn_all, Nat.sub_diag. cbn [firstn]. apply app_nil_r.
Qed.

(** The text as the run of line feeds it starts with and the rest. *)
Lemma leading_lfs (s : jsstring) :
  exists run tail, s = run ++ tail
    /\ forallb (fun x => (x =? 10)%N) run = true /\ stops (fun x => (x =? 10)%N) tail.
Proof.
  induction s as [|c s (run & tail & -> & Hrun & Hstop)].
  - exists [], []. repeat split.
  - destruct (c =? 10)%N eqn:Hc.
    + exists (c :: run), tail. cbn [forallb]. rewrite Hc. repeat split; assumption.
    + exists [], (c :: run ++ tail). repeat split. exact Hc.
Qed.

(** [replace(/\n{3,}/g, '\n\n')] cuts every run of three line feeds or more
    down to two and changes nothing else. *)
Lemma replace_blank_lines_from :
  forall (n : nat) (rest : jsstring), (length rest <= n)%nat ->
  forall (fuel : nat) (pre : jsstring) (caps : list (nat * jsstring)),
    (length rest < fuel)%nat ->
    replace_all_from fuel blank_lines [lf; lf] (MS pre rest caps) = squeeze 0 rest.
Proof.
  induction n as [|n IH]; intros rest Hn fuel pre caps Hfuel.
  - destruct rest; [|simpl in Hn; lia].
    destruct fuel as [|fuel]; [simpl in Hfuel; lia|].
    assert (Hmiss : match_at blank_lines (MS pre [] caps) = None)
      by exact (blank_lines_miss [] [] pre caps eq_refl I ltac:(simpl; lia)).
    cbn [replace_all_from]. unfold search. cbn [ms_rest length search_from].
    rewrite Hmiss. reflexivity.
  - destruct fuel as [|fuel]; [lia|].
    destruct (leading_lfs rest) as (run & tail & -> & Hrun & Hstop).
    destruct (Nat.ltb (length run) 3) eqn:Hlen;
      [apply Nat.ltb_lt in Hlen | apply Nat.ltb_ge in Hlen].
    + pose proof (blank_lines_miss run tail pre caps Hrun Hstop Hlen) as Hmiss.
      rewrite (squeeze_lfs tail Hstop run 0 Hrun) by lia.
      replace (Nat.min (length run) (2 - 0)) with (length run) by lia.
      destruct run as [|c run].
      * cbn [app repeat length] in *. destruct tail as [|c tail].
        -- cbn [replace_all_from]. unfold search. cbn [ms_rest length search_from].
           rewrite Hmiss. reflexivity.
        -- rewrite (replace_all_skip _ _ _ _ _ _ _ Hmiss).
           rewrite IH by (simpl in *; lia).
           cbn [stops] in Hstop. cbn [squeeze]. unfold lf. rewrite Hstop. reflexivity.
      * cbn [app] in Hmiss |- *. rewrite (replace_all_skip _ _ _ _ _ _ _ Hmiss).
        cbn [forallb] in Hrun. apply andb_prop in Hrun as [Hc Hrun].
        apply N.eqb_eq in Hc. subst c.
        rewrite IH by (cbn [length app] in Hn, Hfuel; lia).
        rewrite (squeeze_lfs tail Hstop run 0 Hrun) by lia.
        cbn [length] in *.
        replace (Nat.min (length run) (2 - 0)) with (length run) by lia.
        reflexivity.
    + pose proof (blank_lines_hit run tail pre caps Hrun Hstop Hlen) as Hhit.
      cbn [replace_all_from]. unfold search. cbn [ms_rest].
      rewrite (search_from_hit _ _ _ _ Hhit). cbn [rm_text rm_index rm_after ms_pre ms_rest].
      destruct run as [|c run]; [simpl in Hlen; lia|]. cbn [app].
      rewrite Nat.sub_diag. cbn [firstn app].
      rewrite length_app in Hn, Hfuel.
      rewrite IH by (cbn [length] in *; lia).
      change (c :: run ++ tail) with ((c :: run) ++ tail).
      rewrite (squeeze_lfs tail Hstop (c :: run) 0 Hrun) by lia.
      replace (Nat.min (length (c :: run)) (2 - 0)) with 2%nat by lia.
      reflexivity.
Qed.

Lemma replace_blank_lines (s : jsstring) :
  replace_all blank_lines [lf; lf] s = squeeze 0 s.
Proof.
  unfold replace_all. apply (replace_blank_lines_from (length s)); lia.
Qed.

Lemma squeeze_none (s : jsstring) : blankRun s = false -> forall n, (n <= 2)%nat ->
  blankRun (repeat lf n ++ s) = false -> squeeze n s = s.
Proof.
  induction s as [|c s IH]; intros Hs n Hn Hns; [reflexivity|].
  cbn [squeeze]. destruct (c =? lf)%N eqn:Hc.
  - apply N.eqb_eq in Hc. subst c.
    assert (Hs' : blankRun s = false).
    { cbn [blankRun] in Hs. apply orb_false_iff in Hs as [_ Hs]. exact Hs. }
    destruct (2 <=? n)%nat eqn:E.
    + apply Nat.leb_le in E. assert (n = 2)%nat by lia. subst n.
      cbn [repeat app blankRun] in Hns. rewrite N.eqb_refl in Hns. discriminate.
    + apply Nat.leb_gt in E. f_equal. apply IH; [exact Hs' | lia |].
      replace (repeat lf (S n) ++ s) with (repeat lf n ++ lf :: s)
        by (cbn [repeat]; rewrite repeat_cons, <- app_assoc; reflexivity).
      exact Hns.
  - f_equal. assert (Hs' : blankRun s = false).
    { cbn [blankRun] in Hs. apply orb_false_iff in Hs as [_ Hs]. exact Hs. }
    apply IH; [exact Hs' | lia | exact Hs'].
Qed.

Lemma split_char_nonempty (sep : char) (s : jsstring) : split_char sep s <> [].
Proof.
  induction s as [|c s IH]; cbn [split_char]; [discriminate|].
  destruct (c =? sep)%N; [discriminate|]. destruct (split_char sep s); discriminate.
Qed.

Lemma join_split_char (sep : char) (s : jsstring) : join [sep] (split_char sep s) = s.
Proof.
  induction s as [|c s IH]; [reflexivity|]. cbn [split_char].
  destruct (c =? sep)%N eqn:Hc.
  - apply N.eqb_eq in Hc. subst c.
    rewrite join_cons by apply split_char_nonempty. rewrite IH. reflexivity.
  - pose proof (split_char_nonempty sep s) as Hne.
    destruct (split_char sep s) as [|w ws]; [congruence|].
    destruct ws as [|w2 ws].
    + rewrite <- IH. reflexivity.
    + rewrite <- IH. reflexivity.
Qed.

Lemma cleanLoop_plain (lines : list jsstring) :
  forallb plainLine lines = true -> cleanLoop false lines = lines.
Proof.
  induction lines as [|line lines IH]; [reflexivity|].
  cbn [forallb]. intros H. apply andb_prop in H as [Hl Hls].
  unfold plainLine in Hl. apply andb_prop in Hl as [Hl Hh]. apply andb_prop in Hl as [Hm Hr].
  apply negb_true_iff in Hm, Hr.
  cbn [cleanLoop]. cbv zeta. rewrite Hm, Hr. cbn [andb].
  destruct (exec wordCountInHeader (trim line)); [discriminate|].
  rewrite (IH Hls). reflexivity.
Qed.

End StripLemmas.

(** X17.  The text that [stripSkeletonMetadata] returns, and so every
    section text that [generateSection] returns, has no white space at its
    start or end and nowhere three line feeds in a row: its paragraphs are
    separated by one blank line at most. *)
Theorem stripped_text_is_tidy (t : jsstring) (target : jsnum) (provider : nat -> Response) :
  let out := stripSkeletonMetadata t in
  trim out = out
  /\ (forall u v, out <> u ++ [lf; lf; lf] ++ v)
  /\ (forall u v, Gen.generateSection target provider <> u ++ [lf; lf; lf] ++ v).
Proof.
  assert (H : forall s u v, stripSkeletonMetadata s <> u ++ [lf; lf; lf] ++ v).
  { intros s. apply blankRun_none. unfold stripSkeletonMetadata.
    rewrite replace_blank_lines.
    destruct (trim_infix (squeeze 0 (join [lf] (cleanLoop false (split_char lf s)))))
      as (a & b & E).
    apply (blankRun_infix a _ b). rewrite <- E.
    exact (blankRun_squeeze _ 0%nat ltac:(lia)). }
  cbv zeta. split; [apply trim_trimmed | split; [apply H|]].
  unfold Gen.generateSection. intros u v. apply H.
Qed.

(** X18.  A text in which no line is a metadata line, a rule [---] or a
    header with a word count loses no line in [stripSkeletonMetadata]: the
    result is the text with its runs of three line feeds or more cut down
    to two, trimmed.  If the text has no such run and no white space at
    its start or end, it is returned unchanged. *)
Theorem plain_text_is_kept (t : jsstring) :
  forallb plainLine (split_char lf t) = true ->
  stripSkeletonMetadata t = trim (squeeze 0 t)
  /\ (blankRun t = false -> trim t = t -> stripSkeletonMetadata t = t).
Proof.
  intros Hplain.
  assert (E : stripSkeletonMetadata t = trim (squeeze 0 t)).
  { unfold stripSkeletonMetadata. rewrite replace_blank_lines, (cleanLoop_plain _ Hplain).
    rewrite join_split_char. reflexivity. }
  split; [exact E|]. intros Hrun Htrim.
  rewrite E, (squeeze_none t Hrun 0%nat) by (trivial; lia). exact Htrim.
Qed.

Lemma plain_text_is_kept_witness :
  let t := str "## Method" ++ [lf; lf] ++ str "The sample was drawn twice." in
  let u := str "One." ++ [lf; lf; lf; lf] ++ str "Two. " in
  stripSkeletonMetadata t = t
  /\ stripSkeletonMetadata u = str "One." ++ [lf; lf] ++ str "Two.".
Proof.
  cbv zeta. split.
  - destruct (plain_text_is_kept
                (str "## Method" ++ [lf; lf] ++ str "The sample was drawn twice."))
      as (_ & H); [vm_compute; reflexivity|].
    apply H; vm_compute; reflexivity.
  - destruct (plain_text_is_kept (str "One." ++ [lf; lf; lf; lf] ++ str "Two. "))
      as (H & _); [vm_compute; reflexivity|].
    apply (eq_trans H). vm_compute. reflexivity.
Defined.
